(** * DBSCAN1D: a shallow embedding of [src/dbscan1d/core.py]

    The class [DBSCAN1D] clusters one-dimensional data.  Its methods are
    translated one by one, twice:

    - in [DBSCAN1D], with exact rationals ([Q]) for the array elements, the
      estimator as a record of its attributes and the methods that store
      into it in a state-and-exception monad.  This model carries the
      control flow, the exceptions and the stores, and the properties of the
      clustering as exact arithmetic gives it;
    - in [Binary64], with the binary64 numbers of the kernel ([float]) and
      the operations of IEEE 754 for [+], [-], [abs] and the comparisons, as
      numpy computes them on arrays of dtype float64.  This model carries
      the properties of the methods as the code computes them, where
      [ar - eps], [ar + eps], the running sum of the weights, the gaps
      between core points and the distances to them are rounded.

    Index arrays and labels are [Z] (their int64 wrap-around is out of reach
    for arrays that fit in memory); a negative index counts from the end, as
    in numpy.  An operation that can raise returns a [result].  Numpy's
    library calls are modelled by what they compute: [searchsorted] as the
    bisection it runs, [argsort] as a stable sort of the indices, indexing
    with bounds checks; on floats both order NaN after every number, as
    numpy does. *)

From Stdlib Require Import QArith Qabs ZArith List Bool Lia Lqa.
From Stdlib Require Import Permutation Sorted String Ascii Floats.
Import ListNotations.

(** ** Exceptions *)

Inductive exn : Type :=
| AssertionError
| IndexError
| ValueError.

Inductive result (A : Type) : Type :=
| Ok (a : A)
| Raise (e : exn).

Arguments Ok {A} a.
Arguments Raise {A} e.

Definition bind {A B : Type} (r : result A) (k : A -> result B) : result B :=
  match r with
  | Ok a => k a
  | Raise e => Raise e
  end.

Declare Scope result_scope.
Delimit Scope result_scope with result.
Notation "x <- e ;; k" := (bind e (fun x => k))
  (at level 61, e at next level, right associativity) : result_scope.

Fixpoint mapM {A B : Type} (f : A -> result B) (l : list A) : result (list B) :=
  match l with
  | [] => Ok []
  | x :: t =>
      match f x with
      | Raise e => Raise e
      | Ok y => match mapM f t with
                | Raise e => Raise e
                | Ok ys => Ok (y :: ys)
                end
      end
  end.

Definition Qlt_bool (x y : Q) : bool := negb (Qle_bool y x).

(** ** The numpy operations the class uses *)

Module Np.

(** An n-dimensional array of floats: its shape and its elements in row-major
    order, which is what [flatten] returns. *)
Record ndarray : Type := mk_ndarray { shape : list Z; data : list Q }.

Definition flatten (X : ndarray) : list Q := data X.

(** [l[i]] for an integer [i]: negative indices count from the end. *)
Definition getitem {A : Type} (l : list A) (i : Z) : result A :=
  let n := Z.of_nat (List.length l) in
  let j := if (i <? 0)%Z then (i + n)%Z else i in
  if ((0 <=? j)%Z && (j <? n)%Z)%bool
  then match nth_error l (Z.to_nat j) with
       | Some a => Ok a
       | None => Raise IndexError
       end
  else Raise IndexError.

(** [l[idx]] for an integer array [idx]. *)
Definition take {A : Type} (l : list A) (idx : list Z) : result (list A) :=
  mapM (getitem l) idx.

Fixpoint select {A : Type} (mask : list bool) (l : list A) : list A :=
  match mask, l with
  | b :: m, x :: t => if b then x :: select m t else select m t
  | _, _ => []
  end.

(** [l[mask]] for a boolean array [mask]. *)
Definition compress {A : Type} (mask : list bool) (l : list A) : result (list A) :=
  if (List.length mask =? List.length l)%nat then Ok (select mask l)
  else Raise IndexError.

Definition count_true (mask : list bool) : nat :=
  List.length (filter (fun b => b) mask).

Fixpoint scatter {A : Type} (mask : list bool) (l vals : list A) : list A :=
  match mask, l with
  | b :: m, x :: t =>
      if b then match vals with
                | v :: vs => v :: scatter m t vs
                | [] => x :: scatter m t []
                end
      else x :: scatter m t vals
  | _, _ => l
  end.

(** [l[mask] = vals]: as many values as the mask selects, or one value that
    is broadcast. *)
Definition putmask {A : Type} (mask : list bool) (l vals : list A)
  : result (list A) :=
  if negb (List.length mask =? List.length l)%nat then Raise IndexError
  else if (List.length vals =? count_true mask)%nat then Ok (scatter mask l vals)
  else match vals with
       | [v] => Ok (scatter mask l (repeat v (count_true mask)))
       | _ => Raise ValueError
       end.

Fixpoint where_from (i : Z) (mask : list bool) : list Z :=
  match mask with
  | [] => []
  | b :: m => if b then i :: where_from (i + 1) m else where_from (i + 1) m
  end.

(** [np.where(mask)[0]] *)
Definition where_ (mask : list bool) : list Z := where_from 0 mask.

Fixpoint cumsumQ_from (acc : Q) (l : list Q) : list Q :=
  match l with
  | [] => []
  | x :: t => (acc + x) :: cumsumQ_from (acc + x) t
  end.

Definition cumsumQ (l : list Q) : list Q := cumsumQ_from 0 l.

Fixpoint cumsumZ_from (acc : Z) (l : list Z) : list Z :=
  match l with
  | [] => []
  | x :: t => (acc + x)%Z :: cumsumZ_from (acc + x)%Z t
  end.

Definition cumsumZ (l : list Z) : list Z := cumsumZ_from 0%Z l.

(** [np.roll(l, 1)] *)
Definition roll1 (l : list Q) : list Q :=
  match l with
  | [] => []
  | _ :: _ => last l 0 :: removelast l
  end.

Definition ones_like (l : list Q) : list Q := repeat 1 (List.length l).

(** The bisection of [np.searchsorted]: [goes_right x v] tells whether the
    insertion point of [v] lies after an element [x]. *)
Fixpoint bisect (goes_right : Q -> Q -> bool) (a : list Q) (v : Q)
  (fuel lo hi : nat) : nat :=
  match fuel with
  | O => lo
  | S fuel' =>
      if (lo <? hi)%nat then
        let mid := (lo + (hi - lo) / 2)%nat in
        if goes_right (nth mid a 0) v
        then bisect goes_right a v fuel' (S mid) hi
        else bisect goes_right a v fuel' lo mid
      else lo
  end.

Definition searchsorted_left (a : list Q) (v : Q) : Z :=
  Z.of_nat (bisect Qlt_bool a v (List.length a) 0 (List.length a)).

Definition searchsorted_right (a : list Q) (v : Q) : Z :=
  Z.of_nat (bisect Qle_bool a v (List.length a) 0 (List.length a)).

(** [np.argsort]: the indices in the order that sorts the keys.  Numpy leaves
    the order of equal keys to the sorting kind; this is the stable one. *)
Section Argsort.
Context {K : Type}.
Variable leb : K -> K -> bool.

Fixpoint insert_key (x : K * Z) (l : list (K * Z)) : list (K * Z) :=
  match l with
  | [] => [x]
  | y :: t => if leb (fst x) (fst y) then x :: y :: t
              else y :: insert_key x t
  end.

Fixpoint sort_keys (l : list (K * Z)) : list (K * Z) :=
  match l with
  | [] => []
  | x :: t => insert_key x (sort_keys t)
  end.

Fixpoint arange_from (i : Z) (n : nat) : list Z :=
  match n with
  | O => []
  | S n' => i :: arange_from (i + 1) n'
  end.

Definition argsort (l : list K) : list Z :=
  map snd (sort_keys (combine l (arange_from 0 (List.length l)))).
End Argsort.

End Np.

(** ** The class *)

Module DBSCAN1D.
Import Np.
Local Open Scope result_scope.

(** The attributes of an estimator.  The three that [fit] sets are [None] at
    class level. *)
Record t : Type := mk {
  eps : Q;
  min_samples : Q;
  core_sample_indices_ : option (list Z);
  components_ : option (list Q);
  labels_ : option (list Z)
}.

Definition lower_ascii (c : ascii) : ascii :=
  let n := nat_of_ascii c in
  if ((65 <=? n) && (n <=? 90))%nat then ascii_of_nat (n + 32) else c.

(** [str.lower] on ASCII text. *)
Fixpoint lower (s : string) : string :=
  match s with
  | EmptyString => EmptyString
  | String c s' => String (lower_ascii c) (lower s')
  end.

Definition __init__ (eps min_samples : Q) (metric : string) : result t :=
  let self := mk eps min_samples None None None in
  if negb (String.eqb (lower metric) "euclidean")
  then Raise ValueError
  else Ok self.

(** The array [cumulated_weight[maxeps] - cumulated_weight[mineps]] of
    [_get_is_core]. *)
Definition _neighbor_weight (self : t) (ar sample_weight : list Q)
  : result (list Q) :=
  let mineps := map (fun v => searchsorted_left ar (v - eps self)) ar in
  let maxeps := map (fun v => searchsorted_right ar (v + eps self)) ar in
  let cumulated_weight := 0 :: cumsumQ sample_weight in
  hi <- take cumulated_weight maxeps ;;
  lo <- take cumulated_weight mineps ;;
  Ok (map (fun hl => fst hl - snd hl) (combine hi lo)).

Definition _get_is_core (self : t) (ar sample_weight : list Q)
  : result (list bool) :=
  nw <- _neighbor_weight self ar sample_weight ;;
  Ok (map (fun s => Qle_bool (min_samples self) s) nw).

Definition _assign_core_group_numbers (self : t) (cores : list Q) : list Z :=
  let gt_eps :=
    map (fun cr => Qlt_bool (eps self) (Qabs (fst cr - snd cr)))
        (combine cores (roll1 cores)) in
  let gt_eps := match gt_eps with
                | [] => []
                | _ :: rest => false :: rest
                end in
  cumsumZ (map (fun b : bool => if b then 1%Z else 0%Z) gt_eps).

Definition _bound_on (arr : list Z) (max_len : Z) : list Z :=
  let arr := map (fun i => if (i <? 0)%Z then 0%Z else i) arr in
  map (fun i => if (max_len <=? i)%Z then (max_len - 1)%Z else i) arr.

(** Column [k] of a two-column row. *)
Definition col {A : Type} (row : A * A) (k : Z) : A :=
  if (k =? 0)%Z then fst row else snd row.

Definition _get_non_core_labels (self : t) (non_cores cores : list Q)
  (core_nums : list Z) : result (list Z) :=
  let out := map (fun _ => (-1)%Z) non_cores in
  if (List.length cores =? 0)%nat then Ok out
  else
    let cc_right := map (searchsorted_left cores) non_cores in
    let cc_left := map (fun i => (i - 1)%Z) cc_right in
    let cc_left := _bound_on cc_left (Z.of_nat (List.length cores)) in
    let cc_right := _bound_on cc_right (Z.of_nat (List.length cores)) in
    let core_index := combine cc_left cc_right in
    vals_left <- take cores cc_left ;;
    vals_right <- take cores cc_right ;;
    let vals := combine vals_left vals_right in
    let diffs :=
      map (fun vx => (Qabs (fst (fst vx) - snd vx), Qabs (snd (fst vx) - snd vx)))
          (combine vals non_cores) in
    let argmin :=
      map (fun d => if Qlt_bool (snd d) (fst d) then 1%Z else 0%Z) diffs in
    let min_vals := map (fun dk => col (fst dk) (snd dk)) (combine diffs argmin) in
    let inds := map (fun ck => col (fst ck) (snd ck)) (combine core_index argmin) in
    let is_connected := map (fun m => Qle_bool m (eps self)) min_vals in
    sel <- compress is_connected inds ;;
    nums <- take core_nums sel ;;
    putmask is_connected out nums.

(** Methods that store into the estimator: a computation takes the estimator
    and returns it, updated so far, with a value or the exception raised. *)
Definition M (A : Type) : Type := t -> result A * t.

Definition ret {A : Type} (a : A) : M A := fun self => (Ok a, self).

Definition mbind {A B : Type} (m : M A) (k : A -> M B) : M B :=
  fun self =>
    match m self with
    | (Ok a, self') => k a self'
    | (Raise e, self') => (Raise e, self')
    end.

Definition lift {A : Type} (r : result A) : M A := fun self => (r, self).

Definition get_self : M t := fun self => (Ok self, self).

Definition assert_ (b : bool) : M unit :=
  lift (if b then Ok tt else Raise AssertionError).

Definition set_core_sample_indices_ (v : list Z) : M unit :=
  fun self =>
    (Ok tt, mk (eps self) (min_samples self) (Some v)
               (components_ self) (labels_ self)).

Definition set_labels_ (v : list Z) : M unit :=
  fun self =>
    (Ok tt, mk (eps self) (min_samples self) (core_sample_indices_ self)
               (components_ self) (Some v)).

Declare Scope dbscan_scope.
Delimit Scope dbscan_scope with dbscan.
Notation "x <~ e ;; k" := (mbind e (fun x => k))
  (at level 61, e at next level, right associativity) : dbscan_scope.
Local Open Scope dbscan_scope.

(** Lines 108 to 116 of [fit]: the core flags and the group numbers, both in
    sorted order. *)
Definition group_numbers (self : t) (ar_sorted sample_weight_sorted : list Q)
  : result (list bool * list Z) :=
  (is_core <- _get_is_core self ar_sorted sample_weight_sorted ;;
   let group_nums := map (fun _ : bool => (-1)%Z) is_core in
   cores <- compress is_core ar_sorted ;;
   non_cores <- compress (map negb is_core) ar_sorted ;;
   let core_nums := _assign_core_group_numbers self cores in
   non_core_nums <- _get_non_core_labels self non_cores cores core_nums ;;
   group_nums <- putmask is_core group_nums core_nums ;;
   group_nums <- putmask (map negb is_core) group_nums non_core_nums ;;
   Ok (is_core, group_nums))%result.

(** [X.shape[-1] == 1], evaluated only when [len(X.shape) == 1] is false. *)
Definition shape_is_1d (X : ndarray) : result bool :=
  if (List.length (shape X) =? 1)%nat then Ok true
  else (d <- getitem (shape X) (-1) ;; Ok (d =? 1)%Z)%result.

Definition fit (X : ndarray) (y : option (list Q))
  (sample_weight : option (list Q)) : M unit :=
  ok <~ lift (shape_is_1d X) ;;
  _ <~ assert_ ok ;;
  _ <~ assert_ (match y with None => true | Some _ => false end) ;;
  let ar := flatten X in
  let sample_weight := match sample_weight with
                       | None => ones_like ar
                       | Some w => w
                       end in
  let sorted_index := argsort Qle_bool ar in
  ar_sorted <~ lift (take ar sorted_index) ;;
  sample_weight_sorted <~ lift (take sample_weight sorted_index) ;;
  let undo_sorted := argsort Z.leb (argsort Qle_bool ar) in
  self <~ get_self ;;
  cg <~ lift (group_numbers self ar_sorted sample_weight_sorted) ;;
  let is_core := fst cg in
  let group_nums := snd cg in
  out <~ lift (take group_nums undo_sorted) ;;
  is_core_original_sorting <~ lift (take is_core undo_sorted) ;;
  _ <~ set_core_sample_indices_ (where_ is_core_original_sorting) ;;
  _ <~ set_labels_ out ;;
  ret tt.

Definition fit_predict (X : ndarray) (y : option (list Q))
  (sample_weight : option (list Q)) : M (option (list Z)) :=
  _ <~ fit X y sample_weight ;;
  self <~ get_self ;;
  ret (labels_ self).

End DBSCAN1D.

(** ** The methods in binary64 *)

Module Binary64.
Import Np.
Local Open Scope result_scope.

(** The order in which numpy sorts and searches floats: the order of the
    numbers, with NaN after all of them. *)
Definition np_lt (a b : float) : bool :=
  PrimFloat.ltb a b || (PrimFloat.is_nan b && negb (PrimFloat.is_nan a)).

Definition np_le (a b : float) : bool := negb (np_lt b a).

Fixpoint bisect (goes_right : float -> float -> bool) (a : list float)
  (v : float) (fuel lo hi : nat) : nat :=
  match fuel with
  | O => lo
  | S fuel' =>
      if (lo <? hi)%nat then
        let mid := (lo + (hi - lo) / 2)%nat in
        if goes_right (nth mid a PrimFloat.zero) v
        then bisect goes_right a v fuel' (S mid) hi
        else bisect goes_right a v fuel' lo mid
      else lo
  end.

Definition searchsorted_left (a : list float) (v : float) : Z :=
  Z.of_nat (bisect np_lt a v (List.length a) 0 (List.length a)).

Definition searchsorted_right (a : list float) (v : float) : Z :=
  Z.of_nat (bisect np_le a v (List.length a) 0 (List.length a)).

Fixpoint cumsum_from (acc : float) (l : list float) : list float :=
  match l with
  | [] => []
  | x :: t => PrimFloat.add acc x :: cumsum_from (PrimFloat.add acc x) t
  end.

(** [np.cumsum]: every partial sum is rounded. *)
Definition cumsum (l : list float) : list float :=
  match l with
  | [] => []
  | x :: t => x :: cumsum_from x t
  end.

Definition roll1 (l : list float) : list float :=
  match l with
  | [] => []
  | _ :: _ => last l PrimFloat.zero :: removelast l
  end.

Definition ones_like (l : list float) : list float :=
  repeat PrimFloat.one (List.length l).

(** The parameters of the estimator, which is all that these methods read
    of it. *)
Record t : Type := mk { eps : float; min_samples : float }.

Definition _neighbor_weight (self : t) (ar sample_weight : list float)
  : result (list float) :=
  let mineps :=
    map (fun v => searchsorted_left ar (PrimFloat.sub v (eps self))) ar in
  let maxeps :=
    map (fun v => searchsorted_right ar (PrimFloat.add v (eps self))) ar in
  let cumulated_weight := PrimFloat.zero :: cumsum sample_weight in
  hi <- take cumulated_weight maxeps ;;
  lo <- take cumulated_weight mineps ;;
  Ok (map (fun hl => PrimFloat.sub (fst hl) (snd hl)) (combine hi lo)).

Definition _get_is_core (self : t) (ar sample_weight : list float)
  : result (list bool) :=
  nw <- _neighbor_weight self ar sample_weight ;;
  Ok (map (fun s => PrimFloat.leb (min_samples self) s) nw).

Definition _assign_core_group_numbers (self : t) (cores : list float)
  : list Z :=
  let gt_eps :=
    map (fun cr => PrimFloat.ltb (eps self)
                     (PrimFloat.abs (PrimFloat.sub (fst cr) (snd cr))))
        (combine cores (roll1 cores)) in
  let gt_eps := match gt_eps with
                | [] => []
                | _ :: rest => false :: rest
                end in
  cumsumZ (map (fun b : bool => if b then 1%Z else 0%Z) gt_eps).

(** [argmin] of a row of two distances: the first one unless the second is
    less; a NaN counts as least. *)
Definition argmin2 (d : float * float) : Z :=
  if PrimFloat.is_nan (fst d) then 0%Z
  else if PrimFloat.leb (fst d) (snd d) then 0%Z else 1%Z.

Definition _get_non_core_labels (self : t) (non_cores cores : list float)
  (core_nums : list Z) : result (list Z) :=
  let out := map (fun _ => (-1)%Z) non_cores in
  if (List.length cores =? 0)%nat then Ok out
  else
    let cc_right := map (searchsorted_left cores) non_cores in
    let cc_left := map (fun i => (i - 1)%Z) cc_right in
    let cc_left := DBSCAN1D._bound_on cc_left (Z.of_nat (List.length cores)) in
    let cc_right := DBSCAN1D._bound_on cc_right (Z.of_nat (List.length cores)) in
    let core_index := combine cc_left cc_right in
    vals_left <- take cores cc_left ;;
    vals_right <- take cores cc_right ;;
    let vals := combine vals_left vals_right in
    let diffs :=
      map (fun vx => (PrimFloat.abs (PrimFloat.sub (fst (fst vx)) (snd vx)),
                      PrimFloat.abs (PrimFloat.sub (snd (fst vx)) (snd vx))))
          (combine vals non_cores) in
    let argmin := map argmin2 diffs in
    let min_vals :=
      map (fun dk => DBSCAN1D.col (fst dk) (snd dk)) (combine diffs argmin) in
    let inds :=
      map (fun ck => DBSCAN1D.col (fst ck) (snd ck))
          (combine core_index argmin) in
    let is_connected := map (fun m => PrimFloat.leb m (eps self)) min_vals in
    sel <- compress is_connected inds ;;
    nums <- take core_nums sel ;;
    putmask is_connected out nums.

(** Lines 108 to 116 of [fit]. *)
Definition group_numbers (self : t) (ar_sorted sample_weight_sorted : list float)
  : result (list bool * list Z) :=
  is_core <- _get_is_core self ar_sorted sample_weight_sorted ;;
  let group_nums := map (fun _ : bool => (-1)%Z) is_core in
  cores <- compress is_core ar_sorted ;;
  non_cores <- compress (map negb is_core) ar_sorted ;;
  let core_nums := _assign_core_group_numbers self cores in
  non_core_nums <- _get_non_core_labels self non_cores cores core_nums ;;
  group_nums <- putmask is_core group_nums core_nums ;;
  group_nums <- putmask (map negb is_core) group_nums non_core_nums ;;
  Ok (is_core, group_nums).

(** Lines 97 to 121 of [fit] on the flattened input: the core indices and
    the labels that it goes on to store.  The assertions before and the two
    stores after are those of [DBSCAN1D.fit]. *)
Definition fit_arrays (self : t) (ar : list float)
  (sample_weight : option (list float)) : result (list Z * list Z) :=
  let sample_weight := match sample_weight with
                       | None => ones_like ar
                       | Some w => w
                       end in
  let sorted_index := argsort np_le ar in
  ar_sorted <- take ar sorted_index ;;
  sample_weight_sorted <- take sample_weight sorted_index ;;
  let undo_sorted := argsort Z.leb (argsort np_le ar) in
  cg <- group_numbers self ar_sorted sample_weight_sorted ;;
  let is_core := fst cg in
  let group_nums := snd cg in
  out <- take group_nums undo_sorted ;;
  is_core_original_sorting <- take is_core undo_sorted ;;
  Ok (where_ is_core_original_sorting, out).

End Binary64.


Import Np.
Import DBSCAN1D.

(** ** Vocabulary of the specification and of the proofs *)

(** A one-dimensional array as [fit] receives it. *)
Definition flat (l : list Q) : ndarray :=
  mk_ndarray [Z.of_nat (List.length l)] l.

(** The total weight of the points [(x, w)] whose value satisfies [p]. *)
Fixpoint weight_where (p : Q -> bool) (pts : list (Q * Q)) : Q :=
  match pts with
  | [] => 0
  | xw :: t => (if p (fst xw) then snd xw else 0) + weight_where p t
  end.

(** [x] lies in the closed interval [[v - e, v + e]]. *)
Definition within (e v x : Q) : bool :=
  Qle_bool (v - e) x && Qle_bool x (v + e).

(** The total weight of the points within [e] of [v]. *)
Definition neighborhood_weight (e : Q) (ar sw : list Q) (v : Q) : Q :=
  weight_where (within e v) (combine ar sw).

(** The insertion points as positions. *)
Definition left_point (a : list Q) (v : Q) : nat :=
  bisect Qlt_bool a v (List.length a) 0 (List.length a).

Definition right_point (a : list Q) (v : Q) : nat :=
  bisect Qle_bool a v (List.length a) 0 (List.length a).

(** The entry of the array of [_neighbor_weight] for a value [v]. *)
Definition window_weight (self : t) (ar sw : list Q) (v : Q) : Q :=
  nth (right_point ar (v + eps self)) (0 :: cumsumQ sw) 0 -
  nth (left_point ar (v - eps self)) (0 :: cumsumQ sw) 0.

(** The distance between two neighbours of the core sequence exceeds [e]. *)
Definition gap_exceeds (e prev c : Q) : bool := Qlt_bool e (Qabs (c - prev)).

(** The walk of the specification: the id goes up by one at each core point
    whose gap to the previous one exceeds [e]. *)
Fixpoint walk (e : Q) (id : Z) (prev : Q) (l : list Q) : list Z :=
  match l with
  | [] => []
  | c :: rest =>
      let id' := (id + (if gap_exceeds e prev c then 1 else 0))%Z in
      id' :: walk e id' c rest
  end.

(** What [_bound_on] does to one index. *)
Definition clamp (max_len i : Z) : Z :=
  let i := if (i <? 0)%Z then 0%Z else i in
  if (max_len <=? i)%Z then (max_len - 1)%Z else i.

(** The two candidates the method compares for a value [x], and the one it
    keeps: the right one only when it is strictly nearer. *)
Definition right_candidate (cores : list Q) (x : Q) : Z :=
  clamp (Z.of_nat (List.length cores)) (searchsorted_left cores x).

Definition left_candidate (cores : list Q) (x : Q) : Z :=
  clamp (Z.of_nat (List.length cores)) (searchsorted_left cores x - 1).

Definition dist_to (cores : list Q) (x : Q) (j : Z) : Q :=
  Qabs (nth (Z.to_nat j) cores 0 - x).

Definition nearest_candidate (cores : list Q) (x : Q) : Z :=
  if Qlt_bool (dist_to cores x (right_candidate cores x))
              (dist_to cores x (left_candidate cores x))
  then right_candidate cores x
  else left_candidate cores x.

(** The label the method gives to a non-core value [x]. *)
Definition non_core_label (self : t) (cores : list Q) (core_nums : list Z)
  (x : Q) : Z :=
  match cores with
  | [] => (-1)%Z
  | _ :: _ =>
      if Qle_bool (dist_to cores x (nearest_candidate cores x)) (eps self)
      then nth (Z.to_nat (nearest_candidate cores x)) core_nums (-1)%Z
      else (-1)%Z
  end.

(** The order of two keyed indices that [argsort] sorts by. *)
Definition key_le {K : Type} (leb : K -> K -> bool) (p q : K * Z) : Prop :=
  leb (fst p) (fst q) = true.

(** The values in sorted order, as [fit] obtains them. *)
Definition sorted_values (ar : list Q) : list Q :=
  map (fun i => nth (Z.to_nat i) ar 0) (argsort Qle_bool ar).

(** The flag [_get_is_core] computes for a value [v] of [ar]. *)
Definition core_value (self : t) (ar sw : list Q) (v : Q) : bool :=
  Qle_bool (min_samples self) (window_weight self ar sw v).

(** The arrays of lines 108 to 116, when nothing raises. *)
Definition sorted_flags (self : t) (ar sw : list Q) : list bool :=
  map (core_value self ar sw) ar.

Definition sorted_cores (self : t) (ar sw : list Q) : list Q :=
  filter (core_value self ar sw) ar.

Definition sorted_labels (self : t) (ar sw : list Q) : list Z :=
  let is_core := sorted_flags self ar sw in
  let cores := sorted_cores self ar sw in
  let non_cores := filter (fun x => negb (core_value self ar sw x)) ar in
  let core_nums := _assign_core_group_numbers self cores in
  let non_core_nums := map (non_core_label self cores core_nums) non_cores in
  scatter (map negb is_core)
    (scatter is_core (map (fun _ : bool => (-1)%Z) is_core) core_nums)
    non_core_nums.

(** The weights [fit] works with, their sorted arrangement, and the inverse
    of the sorting permutation. *)
Definition weights_of (ar : list Q) (sample_weight : option (list Q)) : list Q :=
  match sample_weight with
  | None => ones_like ar
  | Some w => w
  end.

Definition sorted_weights (ar w : list Q) : list Q :=
  map (fun i => nth (Z.to_nat i) w 0) (argsort Qle_bool ar).

Definition undo_sorted (ar : list Q) : list Z :=
  argsort Z.leb (argsort Qle_bool ar).

(** The labels and the core flags in the order of the input. *)
Definition fit_labels (self : t) (ar w : list Q) : list Z :=
  map (fun u => nth (Z.to_nat u)
                  (sorted_labels self (sorted_values ar) (sorted_weights ar w))
                  (-1)%Z)
      (undo_sorted ar).

Definition fit_flags (self : t) (ar w : list Q) : list bool :=
  map (fun u => nth (Z.to_nat u)
                  (sorted_flags self (sorted_values ar) (sorted_weights ar w))
                  false)
      (undo_sorted ar).

(** The estimator after a call of [fit] that returns. *)
Definition fitted (self : t) (ar w : list Q) : t :=
  mk (eps self) (min_samples self)
     (Some (where_ (fit_flags self ar w)))
     (components_ self)
     (Some (fit_labels self ar w)).

(** [len(X.shape) == 1 or X.shape[-1] == 1] holds. *)
Definition accepted (X : ndarray) : Prop := shape_is_1d X = Ok true.

(** A flat sequence, and an n-by-1 structure. *)
Definition is_flat_sequence (X : ndarray) : Prop := exists n, shape X = [n].

Definition is_column (X : ndarray) : Prop := exists n, shape X = [n; 1%Z].

(** What the assertion of [fit] lets through: one axis, or a last axis of
    length 1. *)
Definition shape_ok (X : ndarray) : Prop :=
  List.length (shape X) = 1%nat \/ (shape X <> [] /\ last (shape X) 0%Z = 1%Z).

Definition is_upper (c : ascii) : bool :=
  ((65 <=? nat_of_ascii c) && (nat_of_ascii c <=? 90))%nat.

(** Two characters that are equal or are the two cases of one letter. *)
Definition same_letter (c d : ascii) : bool :=
  (c =? d)%char
  || (is_upper c && (nat_of_ascii c + 32 =? nat_of_ascii d)%nat)
  || (is_upper d && (nat_of_ascii d + 32 =? nat_of_ascii c)%nat).

(** Two strings that differ in the case of letters only. *)
Fixpoint case_variant (s t : string) : bool :=
  match s, t with
  | EmptyString, EmptyString => true
  | String c s', String d t' => same_letter c d && case_variant s' t'
  | _, _ => false
  end.

(** A point of value [v] is a core point of the weighted points [pts]. *)
Definition core_of (self : t) (pts : list (Q * Q)) (v : Q) : bool :=
  Qle_bool (min_samples self) (weight_where (within (eps self) v) pts).

(** The id of a core value [v]: the id at its insertion point. *)
Definition core_id (self : t) (cores : list Q) (v : Q) : Z :=
  nth (left_point cores v) (_assign_core_group_numbers self cores) (-1)%Z.

(** The label of a value [v] of the sorted array [ar] with weights [sw]. *)
Definition value_label (self : t) (ar sw : list Q) (v : Q) : Z :=
  let cores := sorted_cores self ar sw in
  if core_value self ar sw v then core_id self cores v
  else non_core_label self cores (_assign_core_group_numbers self cores) v.

(** The input and its weights, rearranged by the index array [p]. *)
Definition permute (p : list Z) (l : list Q) : list Q :=
  map (fun i => nth (Z.to_nat i) l 0) p.

(** ** Vocabulary of the binary64 model *)

(** A float as a point of a lexicographic order: its class, then its exponent
    and mantissa.  NaN comes last, as numpy sorts it. *)
Definition sf_rank (f : spec_float) : Z * (Z * Z) :=
  match f with
  | S754_nan => (3, (0, 0))%Z
  | S754_infinity true => (-2, (0, 0))%Z
  | S754_infinity false => (2, (0, 0))%Z
  | S754_zero _ => (0, (0, 0))%Z
  | S754_finite true m e => (-1, (- e, Z.neg m))%Z
  | S754_finite false m e => (1, (e, Z.pos m))%Z
  end.

Definition rank (x : float) : Z * (Z * Z) := sf_rank (Prim2SF x).

Definition lex_lt (a b : Z * (Z * Z)) : Prop :=
  (fst a < fst b \/
   (fst a = fst b /\
    (fst (snd a) < fst (snd b) \/
     (fst (snd a) = fst (snd b) /\ snd (snd a) < snd (snd b)))))%Z.

(** The exact value of a finite float. *)
Definition Q_of_float (x : float) : Q :=
  match Prim2SF x with
  | S754_finite s m e => inject_Z (cond_Zopp s (Z.pos m)) * Qpower 2 e
  | _ => 0
  end.

(** The rounded difference of two neighbours of the core sequence exceeds
    [e]. *)
Definition gap_exceeds64 (e prev c : float) : bool :=
  PrimFloat.ltb e (PrimFloat.abs (PrimFloat.sub c prev)).

Fixpoint walk64 (e : float) (id : Z) (prev : float) (l : list float) : list Z :=
  match l with
  | [] => []
  | c :: rest =>
      let id' := (id + (if gap_exceeds64 e prev c then 1 else 0))%Z in
      id' :: walk64 e id' c rest
  end.

(** The insertion points of [np.searchsorted], as positions. *)
Definition left_point64 (a : list float) (v : float) : nat :=
  Binary64.bisect Binary64.np_lt a v (List.length a) 0 (List.length a).

Definition right_point64 (a : list float) (v : float) : nat :=
  Binary64.bisect Binary64.np_le a v (List.length a) 0 (List.length a).

(** An array in numpy's order. *)
Definition sorted64 (a : list float) : Prop :=
  Sorted (fun x y => Binary64.np_le x y = true) a.


(** The entry of the array of [_neighbor_weight] for a value [v]. *)
Definition window_weight64 (self : Binary64.t) (ar sw : list float) (v : float)
  : float :=
  PrimFloat.sub
    (nth (right_point64 ar (PrimFloat.add v (Binary64.eps self)))
         (PrimFloat.zero :: Binary64.cumsum sw) PrimFloat.zero)
    (nth (left_point64 ar (PrimFloat.sub v (Binary64.eps self)))
         (PrimFloat.zero :: Binary64.cumsum sw) PrimFloat.zero).

Definition core_value64 (self : Binary64.t) (ar sw : list float) (v : float)
  : bool :=
  PrimFloat.leb (Binary64.min_samples self) (window_weight64 self ar sw v).

(** The two candidates for a value [x], their rounded distances to [x], and
    the label the method gives to [x]. *)
Definition right_candidate64 (cores : list float) (x : float) : Z :=
  clamp (Z.of_nat (List.length cores)) (Binary64.searchsorted_left cores x).

Definition left_candidate64 (cores : list float) (x : float) : Z :=
  clamp (Z.of_nat (List.length cores)) (Binary64.searchsorted_left cores x - 1).

Definition dist64 (cores : list float) (x : float) (j : Z) : float :=
  PrimFloat.abs (PrimFloat.sub (nth (Z.to_nat j) cores PrimFloat.zero) x).

Definition distances64 (cores : list float) (x : float) : float * float :=
  (dist64 cores x (left_candidate64 cores x),
   dist64 cores x (right_candidate64 cores x)).

Definition non_core_label64 (self : Binary64.t) (cores : list float)
  (core_nums : list Z) (x : float) : Z :=
  match cores with
  | [] => (-1)%Z
  | _ :: _ =>
      let k := Binary64.argmin2 (distances64 cores x) in
      if PrimFloat.leb (col (distances64 cores x) k) (Binary64.eps self)
      then nth (Z.to_nat (col (left_candidate64 cores x,
                               right_candidate64 cores x) k))
               core_nums (-1)%Z
      else (-1)%Z
  end.

(** The arrays of lines 102 to 119 of [fit], when nothing raises. *)
Definition sorted_values64 (ar : list float) : list float :=
  map (fun i => nth (Z.to_nat i) ar PrimFloat.zero) (argsort Binary64.np_le ar).

Definition sorted_weights64 (ar w : list float) : list float :=
  map (fun i => nth (Z.to_nat i) w PrimFloat.zero) (argsort Binary64.np_le ar).

Definition undo_sorted64 (ar : list float) : list Z :=
  argsort Z.leb (argsort Binary64.np_le ar).

Definition sorted_flags64 (self : Binary64.t) (ar sw : list float) : list bool :=
  map (core_value64 self ar sw) ar.

Definition sorted_cores64 (self : Binary64.t) (ar sw : list float) : list float :=
  filter (core_value64 self ar sw) ar.

Definition sorted_labels64 (self : Binary64.t) (ar sw : list float) : list Z :=
  let is_core := sorted_flags64 self ar sw in
  let cores := sorted_cores64 self ar sw in
  let non_cores := filter (fun x => negb (core_value64 self ar sw x)) ar in
  let core_nums := Binary64._assign_core_group_numbers self cores in
  let non_core_nums := map (non_core_label64 self cores core_nums) non_cores in
  scatter (map negb is_core)
    (scatter is_core (map (fun _ : bool => (-1)%Z) is_core) core_nums)
    non_core_nums.

Definition fit_labels64 (self : Binary64.t) (ar w : list float) : list Z :=
  map (fun u => nth (Z.to_nat u)
                  (sorted_labels64 self (sorted_values64 ar)
                     (sorted_weights64 ar w))
                  (-1)%Z)
      (undo_sorted64 ar).

Definition fit_flags64 (self : Binary64.t) (ar w : list float) : list bool :=
  map (fun u => nth (Z.to_nat u)
                  (sorted_flags64 self (sorted_values64 ar)
                     (sorted_weights64 ar w))
                  false)
      (undo_sorted64 ar).

(** The id of a core value [v]: the id at its insertion point. *)
Definition core_id64 (self : Binary64.t) (cores : list float) (v : float) : Z :=
  nth (left_point64 cores v) (Binary64._assign_core_group_numbers self cores)
      (-1)%Z.

(** The label of a value [v] of the sorted array [ar] with weights [sw]. *)
Definition value_label64 (self : Binary64.t) (ar sw : list float) (v : float)
  : Z :=
  let cores := sorted_cores64 self ar sw in
  if core_value64 self ar sw v then core_id64 self cores v
  else non_core_label64 self cores
         (Binary64._assign_core_group_numbers self cores) v.

(** An array rearranged by the index array [p]. *)
Definition permute64 (p : list Z) (l : list float) : list float :=
  map (fun i => nth (Z.to_nat i) l PrimFloat.zero) p.

(** Values that numpy's order does not separate are the same float. *)
Definition separated (l : list float) : Prop :=
  forall x y, In x l -> In y l ->
    Binary64.np_le x y = true -> Binary64.np_le y x = true -> x = y.

(** Points whose values numpy's order does not separate are the same point:
    the same float with the same weight. *)
Definition ties_are_copies (pts : list (float * float)) : Prop :=
  forall a b, In a pts -> In b pts ->
    Binary64.np_le (fst a) (fst b) = true ->
    Binary64.np_le (fst b) (fst a) = true -> a = b.

Definition point_le (a b : float * float) : Prop :=
  Binary64.np_le (fst a) (fst b) = true.

(** ** Results and indexing *)

Lemma Qlt_bool_iff (x y : Q) : Qlt_bool x y = true <-> x < y.
Proof.
  unfold Qlt_bool. rewrite negb_true_iff.
  split; intro H.
  - apply Qnot_le_lt. intro Hle. apply Qle_bool_iff in Hle. congruence.
  - destruct (Qle_bool y x) eqn:E; [|reflexivity].
    apply Qle_bool_iff in E. exfalso. apply (Qlt_not_le _ _ H E).
Qed.

Lemma Qle_bool_false_iff (x y : Q) : Qle_bool x y = false <-> y < x.
Proof.
  rewrite <- Qlt_bool_iff. unfold Qlt_bool.
  destruct (Qle_bool x y); simpl; intuition congruence.
Qed.

Lemma Qle_bool_Qeq (x x' y y' : Q) :
  x == x' -> y == y' -> Qle_bool x y = Qle_bool x' y'.
Proof.
  intros Hx Hy.
  destruct (Qle_bool x y) eqn:E1, (Qle_bool x' y') eqn:E2; try reflexivity.
  - apply Qle_bool_iff in E1. apply Qle_bool_false_iff in E2. lra.
  - apply Qle_bool_iff in E2. apply Qle_bool_false_iff in E1. lra.
Qed.

Lemma Qlt_bool_Qeq (x x' y y' : Q) :
  x == x' -> y == y' -> Qlt_bool x y = Qlt_bool x' y'.
Proof.
  intros Hx Hy. unfold Qlt_bool. f_equal. now apply Qle_bool_Qeq.
Qed.

Lemma mapM_ok {A B : Type} (f : A -> result B) (g : A -> B) (l : list A) :
  (forall x, In x l -> f x = Ok (g x)) -> mapM f l = Ok (map g l).
Proof.
  induction l as [|x t IH]; intro H; simpl.
  - reflexivity.
  - rewrite (H x (or_introl eq_refl)).
    rewrite IH; [reflexivity|].
    intros z Hz. apply H. now right.
Qed.

Lemma getitem_in_range {A : Type} (l : list A) (i : Z) (d : A) :
  (0 <= i < Z.of_nat (List.length l))%Z ->
  getitem l i = Ok (nth (Z.to_nat i) l d).
Proof.
  intro Hi. unfold getitem.
  destruct (Z.ltb_spec i 0); [lia|].
  destruct (Z.leb_spec 0 i); [|lia].
  destruct (Z.ltb_spec i (Z.of_nat (List.length l))); [|lia].
  simpl.
  destruct (nth_error l (Z.to_nat i)) eqn:E.
  - now rewrite (nth_error_nth _ _ d E).
  - apply nth_error_None in E. lia.
Qed.

Lemma getitem_out_of_range {A : Type} (l : list A) (i : Z) :
  (Z.of_nat (List.length l) <= i)%Z -> getitem l i = Raise IndexError.
Proof.
  intro Hi. unfold getitem.
  destruct (Z.ltb_spec i 0); [lia|].
  destruct (Z.ltb_spec i (Z.of_nat (List.length l))); [lia|].
  now rewrite andb_false_r.
Qed.

Lemma take_in_range {A : Type} (l : list A) (idx : list Z) (d : A) :
  Forall (fun i => (0 <= i < Z.of_nat (List.length l))%Z) idx ->
  take l idx = Ok (map (fun i => nth (Z.to_nat i) l d) idx).
Proof.
  intro H. unfold take. apply mapM_ok.
  intros i Hi. apply getitem_in_range.
  rewrite Forall_forall in H. now apply H.
Qed.

(** ** Sorted arrays *)

Lemma Sorted_Qle_nth (a : list Q) :
  Sorted Qle a ->
  forall i j, (i <= j < List.length a)%nat -> nth i a 0 <= nth j a 0.
Proof.
  intro Hs.
  assert (Hss : StronglySorted Qle a).
  { apply Sorted_StronglySorted; [|exact Hs].
    intros x y z. apply Qle_trans. }
  clear Hs. induction Hss as [|x t Hss IH Hall]; intros i j Hij.
  - simpl in Hij. lia.
  - destruct i as [|i], j as [|j]; simpl in *.
    + apply Qle_refl.
    + rewrite Forall_forall in Hall. apply Hall. apply nth_In. lia.
    + lia.
    + apply IH. lia.
Qed.

(** ** The bisection of [searchsorted] *)

Section Bisect.
Variable goes_right : Q -> Q -> bool.
Variable a : list Q.
Variable v : Q.

Lemma half_lt (lo hi : nat) :
  (lo < hi)%nat -> (lo <= lo + (hi - lo) / 2 < hi)%nat.
Proof.
  intro H.
  assert ((hi - lo) / 2 < hi - lo)%nat by (apply Nat.div_lt; lia).
  lia.
Qed.

Lemma bisect_bounds (fuel lo hi : nat) :
  (lo <= hi)%nat ->
  (lo <= bisect goes_right a v fuel lo hi <= hi)%nat.
Proof.
  revert lo hi. induction fuel as [|fuel IH]; intros lo hi Hle; cbn [bisect].
  - lia.
  - destruct (Nat.ltb_spec lo hi) as [Hlt|Hge]; [|lia].
    pose proof (half_lt lo hi Hlt) as Hm.
    set (mid := (lo + (hi - lo) / 2)%nat) in *.
    destruct (goes_right _ v).
    + specialize (IH (S mid) hi). lia.
    + specialize (IH lo mid). lia.
Qed.

(** On an array where the elements that send the search to the right come
    first, the bisection returns the point where they end. *)
Hypothesis goes_right_prefix :
  forall i j, (i <= j < List.length a)%nat ->
    goes_right (nth j a 0) v = true -> goes_right (nth i a 0) v = true.

Lemma bisect_partition (fuel lo hi : nat) :
  (lo <= hi <= List.length a)%nat ->
  (hi - lo <= fuel)%nat ->
  (forall j, (j < lo)%nat -> goes_right (nth j a 0) v = true) ->
  (forall j, (hi <= j < List.length a)%nat ->
             goes_right (nth j a 0) v = false) ->
  let r := bisect goes_right a v fuel lo hi in
  (forall j, (j < r)%nat -> goes_right (nth j a 0) v = true) /\
  (forall j, (r <= j < List.length a)%nat ->
             goes_right (nth j a 0) v = false).
Proof.
  revert lo hi. induction fuel as [|fuel IH]; intros lo hi Hb Hf Hlo Hhi; cbn [bisect].
  - split; [exact Hlo|]. intros j Hj. apply Hhi. lia.
  - destruct (Nat.ltb_spec lo hi) as [Hlt|Hge].
    + pose proof (half_lt lo hi Hlt) as Hm.
      set (mid := (lo + (hi - lo) / 2)%nat) in *.
      destruct (goes_right (nth mid a 0) v) eqn:E.
      * apply IH; try lia; [|exact Hhi].
        intros j Hj. apply (goes_right_prefix j mid); [lia|exact E].
      * apply IH; try lia; [exact Hlo|].
        intros j Hj.
        destruct (goes_right (nth j a 0) v) eqn:Ej; [|reflexivity].
        rewrite <- E. symmetry.
        apply (goes_right_prefix mid j); [lia|exact Ej].
    + split; [exact Hlo|]. intros j Hj. apply Hhi. lia.
Qed.
End Bisect.

Lemma left_point_le (a : list Q) (v : Q) : (left_point a v <= List.length a)%nat.
Proof. unfold left_point. apply bisect_bounds. lia. Qed.

Lemma right_point_le (a : list Q) (v : Q) : (right_point a v <= List.length a)%nat.
Proof. unfold right_point. apply bisect_bounds. lia. Qed.

Lemma left_point_spec (a : list Q) (v : Q) :
  Sorted Qle a ->
  (forall j, (j < left_point a v)%nat -> nth j a 0 < v) /\
  (forall j, (left_point a v <= j < List.length a)%nat -> v <= nth j a 0).
Proof.
  intro Hs. unfold left_point.
  destruct (@bisect_partition Qlt_bool a v) with
    (fuel := List.length a) (lo := 0%nat) (hi := List.length a) as [H1 H2];
    try lia.
  - intros i j Hij Hj. apply Qlt_bool_iff. apply Qlt_bool_iff in Hj.
    apply Qle_lt_trans with (y := nth j a 0); [|exact Hj].
    now apply Sorted_Qle_nth.
  - split.
    + intros j Hj. apply Qlt_bool_iff. now apply H1.
    + intros j Hj. specialize (H2 j Hj). unfold Qlt_bool in H2.
      apply negb_false_iff in H2. now apply Qle_bool_iff.
Qed.

Lemma right_point_spec (a : list Q) (v : Q) :
  Sorted Qle a ->
  (forall j, (j < right_point a v)%nat -> nth j a 0 <= v) /\
  (forall j, (right_point a v <= j < List.length a)%nat -> v < nth j a 0).
Proof.
  intro Hs. unfold right_point.
  destruct (@bisect_partition Qle_bool a v) with
    (fuel := List.length a) (lo := 0%nat) (hi := List.length a) as [H1 H2];
    try lia.
  - intros i j Hij Hj. apply Qle_bool_iff. apply Qle_bool_iff in Hj.
    apply Qle_trans with (y := nth j a 0); [|exact Hj].
    now apply Sorted_Qle_nth.
  - split.
    + intros j Hj. apply Qle_bool_iff. now apply H1.
    + intros j Hj. apply Qle_bool_false_iff. now apply H2.
Qed.

(** ** Prefix sums *)

Lemma cumsumQ_from_length (l : list Q) :
  forall acc, List.length (cumsumQ_from acc l) = List.length l.
Proof. induction l as [|x t IH]; intro acc; simpl; [reflexivity|now rewrite IH]. Qed.

(** When the values satisfying [p] are exactly the first [r] ones, the
    prefix sum at [r] is their weight. *)
Lemma cumsum_partition (p : Q -> bool) (ar : list Q) :
  forall (sw : list Q) (acc : Q) (r : nat),
    List.length sw = List.length ar ->
    (r <= List.length ar)%nat ->
    (forall j, (j < r)%nat -> p (nth j ar 0) = true) ->
    (forall j, (r <= j < List.length ar)%nat -> p (nth j ar 0) = false) ->
    nth r (acc :: cumsumQ_from acc sw) 0 == acc + weight_where p (combine ar sw).
Proof.
  induction ar as [|x t IH]; intros sw acc r Hlen Hr Ht Hf.
  - destruct sw; [|discriminate]. simpl in Hr.
    assert (r = 0%nat) by lia. subst r. simpl. lra.
  - destruct sw as [|w ws]; [discriminate|]. simpl in Hlen, Hr.
    destruct r as [|r].
    + assert (Hx : p x = false) by (apply (Hf 0%nat); simpl; lia).
      assert (H0 : weight_where p (combine t ws) == 0).
      { specialize (IH ws 0 0%nat).
        simpl in IH. rewrite Qplus_0_l in IH. symmetry. apply IH; try lia.
        intros j Hj. apply (Hf (S j)). simpl. lia. }
      simpl. rewrite Hx, H0. lra.
    + assert (Hx : p x = true) by (apply (Ht 0%nat); lia).
      change (nth (S r) (acc :: cumsumQ_from acc (w :: ws)) 0)
        with (nth r ((acc + w) :: cumsumQ_from (acc + w) ws) 0).
      rewrite (IH ws (acc + w) r); try lia.
      * simpl. rewrite Hx. lra.
      * intros j Hj. apply (Ht (S j)). lia.
      * intros j Hj. apply (Hf (S j)). simpl. lia.
Qed.

Lemma weight_within_split (e v : Q) (pts : list (Q * Q)) :
  0 <= e ->
  weight_where (within e v) pts ==
  weight_where (fun x => Qle_bool x (v + e)) pts -
  weight_where (fun x => Qlt_bool x (v - e)) pts.
Proof.
  intro He. induction pts as [|[x w] t IH]; simpl.
  - lra.
  - rewrite IH. unfold within.
    destruct (Qle_bool (v - e) x) eqn:E1, (Qle_bool x (v + e)) eqn:E2,
             (Qlt_bool x (v - e)) eqn:E3; simpl; try lra;
      try apply Qle_bool_iff in E1; try apply Qle_bool_false_iff in E1;
      try apply Qle_bool_iff in E2; try apply Qle_bool_false_iff in E2;
      try apply Qlt_bool_iff in E3; try lra.
    unfold Qlt_bool in E3. apply negb_false_iff in E3.
    apply Qle_bool_iff in E3. lra.
Qed.

Lemma combine_map_same {A B C : Type} (f : A -> B) (g : A -> C) (l : list A) :
  combine (map f l) (map g l) = map (fun x => (f x, g x)) l.
Proof. induction l; simpl; [reflexivity|now f_equal]. Qed.

(** ** [_get_is_core] *)

Lemma _neighbor_weight_eq (self : t) (ar sw : list Q) :
  List.length sw = List.length ar ->
  _neighbor_weight self ar sw = Ok (map (window_weight self ar sw) ar).
Proof.
  intro Hlen. unfold _neighbor_weight.
  assert (Hcl : List.length (0 :: cumsumQ sw) = S (List.length ar)).
  { simpl. unfold cumsumQ. now rewrite cumsumQ_from_length, Hlen. }
  rewrite (@take_in_range _ (0 :: cumsumQ sw) _ 0).
  2:{ apply Forall_forall. intros i Hi. apply in_map_iff in Hi.
      destruct Hi as [v [<- _]]. unfold searchsorted_right. rewrite Hcl.
      pose proof (right_point_le ar (v + eps self)). unfold right_point in *. lia. }
  cbn [bind].
  rewrite (@take_in_range _ (0 :: cumsumQ sw) _ 0).
  2:{ apply Forall_forall. intros i Hi. apply in_map_iff in Hi.
      destruct Hi as [v [<- _]]. unfold searchsorted_left. rewrite Hcl.
      pose proof (left_point_le ar (v - eps self)). unfold left_point in *. lia. }
  cbn [bind]. f_equal.
  rewrite !map_map, combine_map_same, map_map.
  apply map_ext. intro v. cbn [fst snd].
  unfold window_weight, searchsorted_right, searchsorted_left, right_point, left_point.
  now rewrite !Nat2Z.id.
Qed.

Lemma window_weight_sorted (self : t) (ar sw : list Q) (v : Q) :
  Sorted Qle ar -> List.length sw = List.length ar -> 0 <= eps self ->
  window_weight self ar sw v == neighborhood_weight (eps self) ar sw v.
Proof.
  intros Hs Hlen He. unfold window_weight, neighborhood_weight, cumsumQ.
  rewrite (weight_within_split (eps self) v (combine ar sw) He).
  destruct (right_point_spec ar (v + eps self) Hs) as [R1 R2].
  destruct (left_point_spec ar (v - eps self) Hs) as [L1 L2].
  rewrite (@cumsum_partition (fun x => Qle_bool x (v + eps self)) ar sw 0
             (right_point ar (v + eps self)) Hlen (right_point_le _ _)).
  2:{ intros j Hj. apply Qle_bool_iff. now apply R1. }
  2:{ intros j Hj. apply Qle_bool_false_iff. now apply R2. }
  rewrite (@cumsum_partition (fun x => Qlt_bool x (v - eps self)) ar sw 0
             (left_point ar (v - eps self)) Hlen (left_point_le _ _)).
  2:{ intros j Hj. apply Qlt_bool_iff. now apply L1. }
  2:{ intros j Hj. unfold Qlt_bool. apply negb_false_iff.
      apply Qle_bool_iff. now apply L2. }
  lra.
Qed.

Lemma _get_is_core_eq (self : t) (ar sw : list Q) :
  List.length sw = List.length ar ->
  _get_is_core self ar sw =
  Ok (map (fun v => Qle_bool (min_samples self) (window_weight self ar sw v)) ar).
Proof.
  intro Hlen. unfold _get_is_core. rewrite (@_neighbor_weight_eq self ar sw Hlen).
  cbn [bind]. now rewrite map_map.
Qed.

(** ** [_assign_core_group_numbers] *)

Lemma cumsum_gaps_walk (e : Q) (rest : list Q) :
  forall (id : Z) (prev : Q),
    cumsumZ_from id
      (map (fun b : bool => if b then 1%Z else 0%Z)
         (map (fun cr => Qlt_bool e (Qabs (fst cr - snd cr)))
            (combine rest (removelast (prev :: rest))))) =
    walk e id prev rest.
Proof.
  induction rest as [|c rest IH]; intros id prev.
  - reflexivity.
  - change (removelast (prev :: c :: rest)) with (prev :: removelast (c :: rest)).
    cbn [combine map cumsumZ_from walk fst snd].
    unfold gap_exceeds. f_equal. apply IH.
Qed.

Lemma _assign_core_group_numbers_cons (self : t) (c0 : Q) (rest : list Q) :
  _assign_core_group_numbers self (c0 :: rest) =
  0%Z :: walk (eps self) 0 c0 rest.
Proof.
  unfold _assign_core_group_numbers, roll1, cumsumZ.
  cbn [combine map cumsumZ_from]. f_equal.
  apply cumsum_gaps_walk.
Qed.

Lemma walk_length (e : Q) (rest : list Q) :
  forall id prev, List.length (walk e id prev rest) = List.length rest.
Proof.
  induction rest as [|c rest IH]; intros id prev; simpl; [reflexivity|].
  now rewrite IH.
Qed.

Lemma walk_step (e : Q) (rest : list Q) :
  forall (id : Z) (prev : Q) (i : nat) (c c' : Q),
    nth_error (prev :: rest) i = Some c ->
    nth_error (prev :: rest) (S i) = Some c' ->
    exists k,
      nth_error (id :: walk e id prev rest) i = Some k /\
      nth_error (id :: walk e id prev rest) (S i) =
      Some (k + (if gap_exceeds e c c' then 1 else 0))%Z.
Proof.
  induction rest as [|r rest IH]; intros id prev i c c' Hc Hc'.
  - destruct i; discriminate.
  - destruct i as [|i].
    + simpl in Hc, Hc'. injection Hc as <-. injection Hc' as <-.
      exists id. split; reflexivity.
    + cbn [walk]. apply (IH _ r i c c'); assumption.
Qed.

(** A walk takes every value between its first and its last id. *)
Lemma walk_contiguous (e : Q) (rest : list Q) :
  forall (id : Z) (prev : Q) (k : Z),
    In k (id :: walk e id prev rest) <->
    (id <= k <= last (id :: walk e id prev rest) 0)%Z.
Proof.
  induction rest as [|c rest IH]; intros id prev k.
  - simpl. lia.
  - cbn [walk].
    set (id' := (id + (if gap_exceeds e prev c then 1 else 0))%Z).
    assert (Hid : (id <= id' <= id + 1)%Z).
    { unfold id'. destruct (gap_exceeds e prev c); lia. }
    change (last (id :: id' :: walk e id' c rest) 0%Z)
      with (last (id' :: walk e id' c rest) 0%Z).
    pose proof (IH id' c k) as Hk.
    pose proof (proj1 (IH id' c id') (or_introl eq_refl)) as Hl.
    split.
    + intros [<-|Hin]; [lia|]. apply Hk in Hin. lia.
    + intro Hr. destruct (Z.eq_dec k id) as [->|Hne]; [now left|].
      right. apply Hk. lia.
Qed.

(** ** Masks *)

Lemma combine_map_l {A B : Type} (f : A -> B) (l : list A) :
  combine (map f l) l = map (fun x => (f x, x)) l.
Proof. induction l; simpl; [reflexivity|now f_equal]. Qed.

Lemma select_map {A B : Type} (c : A -> bool) (f : A -> B) (l : list A) :
  select (map c l) (map f l) = map f (filter c l).
Proof.
  induction l as [|x t IH]; simpl; [reflexivity|].
  destruct (c x); simpl; now rewrite IH.
Qed.

Lemma select_map_self {A : Type} (c : A -> bool) (l : list A) :
  select (map c l) l = filter c l.
Proof.
  induction l as [|x t IH]; simpl; [reflexivity|].
  destruct (c x); simpl; now rewrite IH.
Qed.

Lemma count_true_map {A : Type} (c : A -> bool) (l : list A) :
  count_true (map c l) = List.length (filter c l).
Proof.
  unfold count_true. induction l as [|x t IH]; simpl; [reflexivity|].
  destruct (c x); simpl; now rewrite IH.
Qed.

Lemma scatter_map {A B : Type} (c : A -> bool) (d g : A -> B) (l : list A) :
  scatter (map c l) (map d l) (map g (filter c l)) =
  map (fun x => if c x then g x else d x) l.
Proof.
  induction l as [|x t IH]; simpl; [reflexivity|].
  destruct (c x); simpl; now rewrite IH.
Qed.

Lemma compress_map {A B : Type} (c : A -> bool) (f : A -> B) (l : list A) :
  compress (map c l) (map f l) = Ok (map f (filter c l)).
Proof.
  unfold compress. rewrite !length_map, Nat.eqb_refl. now rewrite select_map.
Qed.

Lemma compress_map_self {A : Type} (c : A -> bool) (l : list A) :
  compress (map c l) l = Ok (filter c l).
Proof.
  unfold compress. rewrite !length_map, Nat.eqb_refl. now rewrite select_map_self.
Qed.

Lemma putmask_map {A B : Type} (c : A -> bool) (d g : A -> B) (l : list A) :
  putmask (map c l) (map d l) (map g (filter c l)) =
  Ok (map (fun x => if c x then g x else d x) l).
Proof.
  unfold putmask. rewrite !length_map, Nat.eqb_refl. cbn [negb].
  rewrite count_true_map, Nat.eqb_refl. now rewrite scatter_map.
Qed.

(** ** [_get_non_core_labels] *)

Lemma _bound_on_map (arr : list Z) (max_len : Z) :
  _bound_on arr max_len = map (clamp max_len) arr.
Proof. unfold _bound_on. rewrite map_map. reflexivity. Qed.

Lemma clamp_range (n i : Z) : (0 < n)%Z -> (0 <= clamp n i < n)%Z.
Proof.
  intro Hn. unfold clamp.
  destruct (Z.ltb_spec i 0); destruct (Z.leb_spec n 0); try lia;
    destruct (Z.leb_spec n i); lia.
Qed.

Lemma nearest_candidate_range (cores : list Q) (x : Q) :
  cores <> [] ->
  (0 <= nearest_candidate cores x < Z.of_nat (List.length cores))%Z.
Proof.
  intro Hne.
  assert (0 < Z.of_nat (List.length cores))%Z.
  { destruct cores; [congruence|simpl; lia]. }
  unfold nearest_candidate, right_candidate, left_candidate.
  destruct (Qlt_bool _ _); now apply clamp_range.
Qed.

Lemma _get_non_core_labels_eq (self : t) (non_cores cores : list Q)
  (core_nums : list Z) :
  List.length core_nums = List.length cores ->
  _get_non_core_labels self non_cores cores core_nums =
  Ok (map (non_core_label self cores core_nums) non_cores).
Proof.
  intro Hlen. unfold _get_non_core_labels.
  destruct cores as [|c0 rest] eqn:Hc.
  - reflexivity.
  - rewrite <- Hc in *. 
    assert (Hne : cores <> []) by (rewrite Hc; discriminate).
    assert (Hn : (0 < Z.of_nat (List.length cores))%Z).
    { rewrite Hc. simpl. lia. }
    replace (List.length cores =? 0)%nat with false
      by (symmetry; apply Nat.eqb_neq; lia).
    rewrite !_bound_on_map, !map_map.
    rewrite (take_in_range cores _ 0).
    2:{ apply Forall_forall. intros i Hi. apply in_map_iff in Hi.
        destruct Hi as [x [<- _]]. now apply clamp_range. }
    cbn [bind].
    rewrite (take_in_range cores _ 0).
    2:{ apply Forall_forall. intros i Hi. apply in_map_iff in Hi.
        destruct Hi as [x [<- _]]. now apply clamp_range. }
    cbn [bind].
    repeat first [rewrite map_map | rewrite combine_map_same
                 | rewrite combine_map_l].
    cbn [fst snd].
    rewrite compress_map. cbn [bind].
    rewrite (take_in_range core_nums _ (-1)%Z).
    2:{ apply Forall_forall. intros i Hi. apply in_map_iff in Hi.
        destruct Hi as [x [<- _]]. rewrite Hlen. unfold col.
        destruct (_ =? 0)%Z; now apply clamp_range. }
    cbn [bind]. rewrite map_map.
    rewrite putmask_map. f_equal. apply map_ext. intro x.
    unfold non_core_label. rewrite Hc. rewrite <- Hc.
    unfold nearest_candidate, dist_to, right_candidate, left_candidate, col.
    destruct (Qlt_bool _ _); reflexivity.
Qed.

Lemma Qabs_cases (a : Q) :
  (0 <= a /\ Qabs a == a) \/ (a <= 0 /\ Qabs a == - a).
Proof.
  destruct (Qlt_le_dec a 0) as [H|H].
  - right. split; [lra|]. apply Qabs_neg. lra.
  - left. split; [exact H|]. now apply Qabs_pos.
Qed.

Ltac qabs a :=
  let H1 := fresh "Habs" in
  let H2 := fresh "Habs" in
  destruct (Qabs_cases a) as [[H1 H2]|[H1 H2]].

(** Where the two candidates lie, by the insertion point of [x]. *)
Lemma candidates_cases (cores : list Q) (x : Q) :
  cores <> [] ->
  let r := left_point cores x in
  let n := List.length cores in
  (r = 0%nat /\ left_candidate cores x = 0%Z /\ right_candidate cores x = 0%Z) \/
  (r = n /\ left_candidate cores x = Z.of_nat (n - 1) /\
   right_candidate cores x = Z.of_nat (n - 1)) \/
  ((0 < r < n)%nat /\ left_candidate cores x = Z.of_nat (r - 1) /\
   right_candidate cores x = Z.of_nat r).
Proof.
  intros Hne r n.
  assert (Hn : (0 < n)%nat).
  { unfold n. destruct cores; [congruence|simpl; lia]. }
  pose proof (left_point_le cores x) as Hr. fold r n in Hr.
  unfold left_candidate, right_candidate, searchsorted_left, clamp.
  fold (left_point cores x). fold r n.
  destruct (Nat.eq_dec r 0) as [H0|H0]; [left|right].
  - rewrite H0. simpl Z.of_nat. cbn [Z.sub Z.add Z.opp Z.ltb Z.compare].
    repeat split.
    + destruct (Z.leb_spec (Z.of_nat n) 0); lia.
    + destruct (Z.leb_spec (Z.of_nat n) 0); lia.
  - destruct (Nat.eq_dec r n) as [Hrn|Hrn]; [left|right].
    + rewrite Hrn. repeat split.
      * destruct (Z.ltb_spec (Z.of_nat n - 1) 0); [lia|].
        destruct (Z.leb_spec (Z.of_nat n) (Z.of_nat n - 1)); lia.
      * destruct (Z.ltb_spec (Z.of_nat n) 0); [lia|].
        destruct (Z.leb_spec (Z.of_nat n) (Z.of_nat n)); lia.
    + repeat split; try lia.
      * destruct (Z.ltb_spec (Z.of_nat r - 1) 0); [lia|].
        destruct (Z.leb_spec (Z.of_nat n) (Z.of_nat r - 1)); lia.
      * destruct (Z.ltb_spec (Z.of_nat r) 0); [lia|].
        destruct (Z.leb_spec (Z.of_nat n) (Z.of_nat r)); lia.
Qed.

(** Among sorted core values, the candidate the method keeps is as near to
    [x] as any core value. *)
Lemma nearest_candidate_min (cores : list Q) (x c : Q) :
  Sorted Qle cores -> In c cores ->
  dist_to cores x (nearest_candidate cores x) <= Qabs (c - x).
Proof.
  intros Hs Hin.
  assert (Hne : cores <> []) by (intro E; rewrite E in Hin; exact Hin).
  destruct (In_nth cores c 0 Hin) as [k [Hk Hck]].
  destruct (left_point_spec cores x Hs) as [Hlt Hge].
  pose proof (Sorted_Qle_nth cores Hs) as Hord.
  unfold nearest_candidate, dist_to.
  destruct (candidates_cases cores x Hne) as [[Hr [HL HR]]|[[Hr [HL HR]]|[Hr [HL HR]]]];
    rewrite HL, HR, ?Nat2Z.id.
  - change (Z.to_nat 0) with 0%nat.
    assert (H1 : x <= nth 0 cores 0) by (apply Hge; lia).
    assert (H2 : nth 0 cores 0 <= c) by (rewrite <- Hck; apply Hord; lia).
    destruct (Qlt_bool _ _); change (Z.to_nat 0) with 0%nat;
      qabs (nth 0 cores 0 - x); qabs (c - x); lra.
  - set (m := (List.length cores - 1)%nat) in *.
    assert (H1 : nth m cores 0 < x) by (apply Hlt; lia).
    assert (H2 : c <= nth m cores 0) by (rewrite <- Hck; apply Hord; lia).
    destruct (Qlt_bool _ _); rewrite ?Nat2Z.id;
      qabs (nth m cores 0 - x); qabs (c - x); lra.
  - set (r := left_point cores x) in *.
    assert (H1 : nth (r - 1) cores 0 < x) by (apply Hlt; lia).
    assert (H2 : x <= nth r cores 0) by (apply Hge; lia).
    assert (H3 : c <= nth (r - 1) cores 0 \/ nth r cores 0 <= c).
    { rewrite <- Hck. destruct (Nat.lt_ge_cases k r).
      - left. apply Hord. lia.
      - right. apply Hord. lia. }
    destruct (Qlt_bool (Qabs (nth r cores 0 - x))
                       (Qabs (nth (r - 1) cores 0 - x))) eqn:E.
    + apply Qlt_bool_iff in E. rewrite ?Nat2Z.id.
      qabs (nth r cores 0 - x); qabs (nth (r - 1) cores 0 - x); qabs (c - x);
        destruct H3; lra.
    + unfold Qlt_bool in E. apply negb_false_iff in E. apply Qle_bool_iff in E.
      rewrite ?Nat2Z.id.
      qabs (nth r cores 0 - x); qabs (nth (r - 1) cores 0 - x); qabs (c - x);
        destruct H3; lra.
Qed.

(** ** [argsort] *)

Lemma arange_from_length (n : nat) : forall s, List.length (arange_from s n) = n.
Proof. induction n as [|n IH]; intro s; simpl; [reflexivity|now rewrite IH]. Qed.

Lemma arange_from_In (n : nat) :
  forall s i, In i (arange_from s n) <-> (s <= i < s + Z.of_nat n)%Z.
Proof.
  induction n as [|n IH]; intros s i.
  - simpl. lia.
  - cbn [arange_from In]. rewrite IH. lia.
Qed.

Lemma arange_from_sorted (n : nat) : forall s, StronglySorted Z.le (arange_from s n).
Proof.
  induction n as [|n IH]; intro s; simpl; constructor.
  - apply IH.
  - apply Forall_forall. intros i Hi. apply arange_from_In in Hi. lia.
Qed.

Lemma map_nth_arange {A B : Type} (f : A -> B) (d : A) (l : list A) :
  forall s,
    map (fun i => f (nth (Z.to_nat (i - s)) l d)) (arange_from s (List.length l))
    = map f l.
Proof.
  induction l as [|x t IH]; intro s; simpl.
  - reflexivity.
  - replace (Z.to_nat (s - s)) with 0%nat by lia. f_equal.
    rewrite <- (IH (s + 1)%Z). apply map_ext_in.
    intros i Hi. apply arange_from_In in Hi.
    replace (Z.to_nat (i - s)) with (S (Z.to_nat (i - (s + 1)))) by lia.
    reflexivity.
Qed.

Lemma map_nth_arange0 {A B : Type} (f : A -> B) (d : A) (l : list A) :
  map (fun i => f (nth (Z.to_nat i) l d)) (arange_from 0 (List.length l)) = map f l.
Proof.
  rewrite <- (map_nth_arange f d l 0%Z). apply map_ext.
  intro i. now rewrite Z.sub_0_r.
Qed.

(** Each pair of [combine l (arange l)] holds an element and its index. *)
Lemma combine_arange_In {A : Type} (d : A) (l : list A) :
  forall s k i, In (k, i) (combine l (arange_from s (List.length l))) ->
    (s <= i < s + Z.of_nat (List.length l))%Z /\ nth (Z.to_nat (i - s)) l d = k.
Proof.
  induction l as [|x t IH]; intros s k i Hin.
  - destruct Hin.
  - cbn [List.length arange_from combine In] in Hin. destruct Hin as [Heq|Hin].
    + injection Heq as <- <-. split; [simpl; lia|].
      now replace (Z.to_nat (s - s)) with 0%nat by lia.
    + apply IH in Hin. destruct Hin as [Hr Hn]. split; [simpl; lia|].
      replace (Z.to_nat (i - s)) with (S (Z.to_nat (i - (s + 1)))) by lia.
      exact Hn.
Qed.

Lemma map_fst_combine {A B : Type} (l : list A) :
  forall l' : list B, List.length l = List.length l' -> map fst (combine l l') = l.
Proof.
  induction l as [|x t IH]; intros [|y t'] H; simpl in *; try discriminate;
    [reflexivity|]. f_equal. apply IH. lia.
Qed.

Lemma map_snd_combine {A B : Type} (l : list A) :
  forall l' : list B, List.length l = List.length l' -> map snd (combine l l') = l'.
Proof.
  induction l as [|x t IH]; intros [|y t'] H; simpl in *; try discriminate;
    [reflexivity|]. f_equal. apply IH. lia.
Qed.

Section ArgsortFacts.
Context {K : Type}.
Variable leb : K -> K -> bool.

Lemma insert_key_perm (x : K * Z) (l : list (K * Z)) :
  Permutation (insert_key leb x l) (x :: l).
Proof.
  induction l as [|y t IH]; simpl.
  - apply Permutation_refl.
  - destruct (leb (fst x) (fst y)).
    + apply Permutation_refl.
    + apply perm_trans with (y :: x :: t).
      * now apply perm_skip.
      * apply perm_swap.
Qed.

Lemma sort_keys_perm (l : list (K * Z)) : Permutation (sort_keys leb l) l.
Proof.
  induction l as [|x t IH]; simpl.
  - apply perm_nil.
  - apply perm_trans with (x :: sort_keys leb t).
    + apply insert_key_perm.
    + now apply perm_skip.
Qed.

Lemma argsort_perm (l : list K) :
  Permutation (argsort leb l) (arange_from 0 (List.length l)).
Proof.
  unfold argsort.
  apply perm_trans with (map snd (combine l (arange_from 0 (List.length l)))).
  - apply Permutation_map. apply sort_keys_perm.
  - rewrite map_snd_combine by now rewrite arange_from_length.
    apply Permutation_refl.
Qed.

Lemma argsort_length (l : list K) : List.length (argsort leb l) = List.length l.
Proof.
  rewrite (Permutation_length (argsort_perm l)). apply arange_from_length.
Qed.

Lemma argsort_range (l : list K) :
  Forall (fun i => (0 <= i < Z.of_nat (List.length l))%Z) (argsort leb l).
Proof.
  apply Forall_forall. intros i Hi.
  apply (Permutation_in _ (argsort_perm l)) in Hi.
  apply arange_from_In in Hi. lia.
Qed.

(** Indexing by the result of [argsort] gives the keys in sorted order. *)
Lemma take_argsort_keys (d : K) (l : list K) :
  map (fun i => nth (Z.to_nat i) l d) (argsort leb l) =
  map fst (sort_keys leb (combine l (arange_from 0 (List.length l)))).
Proof.
  unfold argsort. rewrite map_map. apply map_ext_in.
  intros [k i] Hin. cbn [fst snd].
  apply (Permutation_in _ (sort_keys_perm _)) in Hin.
  apply (combine_arange_In d) in Hin. destruct Hin as [_ Hn].
  now rewrite Z.sub_0_r in Hn.
Qed.

Lemma take_argsort_perm (d : K) (l : list K) :
  Permutation (map (fun i => nth (Z.to_nat i) l d) (argsort leb l)) l.
Proof.
  rewrite take_argsort_keys.
  apply perm_trans with (map fst (combine l (arange_from 0 (List.length l)))).
  - apply Permutation_map. apply sort_keys_perm.
  - rewrite map_fst_combine by now rewrite arange_from_length.
    apply Permutation_refl.
Qed.

Hypothesis leb_total : forall x y, leb x y = true \/ leb y x = true.

Lemma insert_key_sorted (x : K * Z) (l : list (K * Z)) :
  Sorted (key_le leb) l -> Sorted (key_le leb) (insert_key leb x l).
Proof.
  induction l as [|y t IH]; intro Hs; simpl.
  - repeat constructor.
  - destruct (leb (fst x) (fst y)) eqn:E.
    + constructor; [exact Hs|]. constructor. exact E.
    + inversion Hs as [|? ? Hst Hhd]; subst.
      constructor; [now apply IH|].
      assert (Hyx : key_le leb y x).
      { unfold key_le. destruct (leb_total (fst x) (fst y)); congruence. }
      destruct t as [|z t']; simpl.
      * constructor. exact Hyx.
      * destruct (leb (fst x) (fst z)); constructor; [exact Hyx|].
        now inversion Hhd.
Qed.

Lemma sort_keys_sorted (l : list (K * Z)) :
  Sorted (key_le leb) (sort_keys leb l).
Proof.
  induction l as [|x t IH]; simpl; [constructor|].
  now apply insert_key_sorted.
Qed.
End ArgsortFacts.

Lemma Qle_bool_total (x y : Q) : Qle_bool x y = true \/ Qle_bool y x = true.
Proof.
  destruct (Qlt_le_dec x y) as [H|H].
  - left. apply Qle_bool_iff. lra.
  - right. now apply Qle_bool_iff.
Qed.

Lemma Zleb_total (x y : Z) : (x <=? y)%Z = true \/ (y <=? x)%Z = true.
Proof. rewrite !Z.leb_le. lia. Qed.

Lemma Sorted_map_fst {K : Type} (leb : K -> K -> bool) (R : K -> K -> Prop)
  (l : list (K * Z)) :
  (forall x y, leb x y = true -> R x y) ->
  Sorted (key_le leb) l -> Sorted R (map fst l).
Proof.
  intros HR Hs. induction Hs as [|p t Hs IH Hhd]; simpl; constructor.
  - exact IH.
  - destruct Hhd; simpl; constructor. now apply HR.
Qed.

Lemma sorted_values_sorted (ar : list Q) : Sorted Qle (sorted_values ar).
Proof.
  unfold sorted_values. rewrite take_argsort_keys.
  apply (Sorted_map_fst Qle_bool).
  - intros x y. apply Qle_bool_iff.
  - apply sort_keys_sorted. exact Qle_bool_total.
Qed.

Lemma sorted_values_perm (ar : list Q) : Permutation (sorted_values ar) ar.
Proof. apply take_argsort_perm. Qed.

(** Two sorted lists of integers with the same elements are equal. *)
Lemma sorted_perm_eq (l : list Z) :
  forall l', StronglySorted Z.le l -> StronglySorted Z.le l' ->
             Permutation l l' -> l = l'.
Proof.
  induction l as [|x t IH]; intros l' Hs Hs' Hp.
  - apply Permutation_nil in Hp. now subst.
  - destruct l' as [|y t'].
    + apply Permutation_sym, Permutation_nil in Hp. discriminate.
    + inversion Hs as [|? ? Hst Hall]; subst.
      inversion Hs' as [|? ? Hst' Hall']; subst.
      assert (x = y).
      { rewrite Forall_forall in Hall, Hall'.
        assert (Hx : In x (y :: t')) by (apply (Permutation_in _ Hp); now left).
        assert (Hy : In y (x :: t))
          by (apply (Permutation_in _ (Permutation_sym Hp)); now left).
        destruct Hx as [->|Hx]; [reflexivity|].
        destruct Hy as [->|Hy]; [reflexivity|].
        specialize (Hall y Hy). specialize (Hall' x Hx). lia. }
      subst y. f_equal. apply IH; try assumption.
      now apply Permutation_cons_inv with x.
Qed.

(** [argsort] of a permutation of the indices is its inverse: the double
    [argsort] of [fit]. *)
Lemma argsort_inverse (s : list Z) :
  Permutation s (arange_from 0 (List.length s)) ->
  map (fun u => nth (Z.to_nat u) s 0%Z) (argsort Z.leb s) =
  arange_from 0 (List.length s).
Proof.
  intro Hp. rewrite take_argsort_keys.
  apply sorted_perm_eq.
  - apply Sorted_StronglySorted; [intros x y z; apply Z.le_trans|].
    apply (Sorted_map_fst Z.leb).
    + intros x y. apply Z.leb_le.
    + apply sort_keys_sorted. exact Zleb_total.
  - apply arange_from_sorted.
  - apply perm_trans with s; [|exact Hp].
    apply perm_trans with (map fst (combine s (arange_from 0 (List.length s)))).
    + apply Permutation_map. apply sort_keys_perm.
    + rewrite map_fst_combine by now rewrite arange_from_length.
      apply Permutation_refl.
Qed.

(** ** The group numbers in sorted order *)

Lemma scatter_length {A : Type} (mask : list bool) :
  forall l vals : list A, List.length (scatter mask l vals) = List.length l.
Proof.
  induction mask as [|b m IH]; intros l vals; [reflexivity|].
  destruct l as [|x t]; [reflexivity|]. simpl.
  destruct b; [destruct vals|]; simpl; now rewrite IH.
Qed.

Lemma putmask_ok {A : Type} (mask : list bool) (l vals : list A) :
  List.length mask = List.length l ->
  List.length vals = count_true mask ->
  putmask mask l vals = Ok (scatter mask l vals).
Proof.
  intros H1 H2. unfold putmask.
  rewrite H1, H2, !Nat.eqb_refl. reflexivity.
Qed.

Lemma _assign_core_group_numbers_length (self : t) (cores : list Q) :
  List.length (_assign_core_group_numbers self cores) = List.length cores.
Proof.
  destruct cores as [|c0 rest]; [reflexivity|].
  rewrite _assign_core_group_numbers_cons. simpl. now rewrite walk_length.
Qed.

(** With as many weights as values, lines 108 to 116 raise nothing. *)
Lemma group_numbers_ok (self : t) (ar sw : list Q) :
  List.length sw = List.length ar ->
  group_numbers self ar sw =
  Ok (sorted_flags self ar sw, sorted_labels self ar sw).
Proof.
  intro Hlen. unfold group_numbers, sorted_labels, sorted_flags, sorted_cores.
  rewrite (_get_is_core_eq self ar sw Hlen). cbn [bind].
  fold (core_value self ar sw).
  rewrite compress_map_self. cbn [bind].
  rewrite map_map, compress_map_self. cbn [bind].
  rewrite _get_non_core_labels_eq by apply _assign_core_group_numbers_length.
  cbn [bind].
  rewrite putmask_ok.
  2:{ now rewrite !length_map. }
  2:{ rewrite _assign_core_group_numbers_length. now rewrite count_true_map. }
  cbn [bind].
  rewrite putmask_ok.
  2:{ now rewrite scatter_length, !length_map. }
  2:{ rewrite count_true_map. apply length_map. }
  cbn [bind]. now rewrite !map_map.
Qed.

Lemma sorted_labels_length (self : t) (ar sw : list Q) :
  List.length (sorted_labels self ar sw) = List.length ar.
Proof.
  unfold sorted_labels. rewrite !scatter_length. unfold sorted_flags.
  now rewrite !length_map.
Qed.

(** ** [fit] *)

Lemma mapM_raise {A B : Type} (f : A -> result B) (e : exn) (l : list A) (x : A) :
  In x l -> f x = Raise e ->
  (forall y e', f y = Raise e' -> e' = e) ->
  mapM f l = Raise e.
Proof.
  intros Hin Hx Honly. induction l as [|y t IH]; [destruct Hin|].
  simpl. destruct (f y) as [b|e'] eqn:Ey.
  - destruct Hin as [->|Hin]; [congruence|].
    now rewrite (IH Hin).
  - f_equal. now apply (Honly y).
Qed.

Lemma getitem_raises_IndexError {A : Type} (l : list A) (i : Z) (e : exn) :
  getitem l i = Raise e -> e = IndexError.
Proof.
  unfold getitem.
  destruct (_ && _)%bool; [destruct (nth_error _ _)|]; congruence.
Qed.

Lemma sorted_values_length (ar : list Q) :
  List.length (sorted_values ar) = List.length ar.
Proof. unfold sorted_values. now rewrite length_map, argsort_length. Qed.

Lemma sorted_weights_length (ar w : list Q) :
  List.length (sorted_weights ar w) = List.length ar.
Proof. unfold sorted_weights. now rewrite length_map, argsort_length. Qed.

Lemma undo_sorted_range (ar : list Q) :
  Forall (fun i => (0 <= i < Z.of_nat (List.length ar))%Z) (undo_sorted ar).
Proof.
  unfold undo_sorted.
  pose proof (argsort_range Z.leb (argsort Qle_bool ar)) as H.
  now rewrite argsort_length in H.
Qed.

Lemma fit_ok (X : ndarray) (w : option (list Q)) (self : t) :
  accepted X ->
  (List.length (data X) <= List.length (weights_of (data X) w))%nat ->
  fit X None w self = (Ok tt, fitted self (data X) (weights_of (data X) w)).
Proof.
  intros Hacc Hlen.
  unfold fit, mbind, assert_, lift, get_self, set_core_sample_indices_,
    set_labels_, ret, flatten.
  rewrite Hacc. cbv beta iota zeta.
  fold (weights_of (data X) w).
  rewrite (take_in_range (data X) _ 0) by apply argsort_range.
  rewrite (take_in_range (weights_of (data X) w) _ 0).
  2:{ eapply Forall_impl; [|apply (argsort_range Qle_bool (data X))].
      cbv beta. intros i Hi. lia. }
  fold (sorted_values (data X)).
  fold (sorted_weights (data X) (weights_of (data X) w)).
  rewrite group_numbers_ok
    by now rewrite sorted_values_length, sorted_weights_length.
  cbn [fst snd].
  rewrite (take_in_range (sorted_labels _ _ _) _ (-1)%Z).
  2:{ rewrite sorted_labels_length, sorted_values_length.
      apply undo_sorted_range. }
  rewrite (take_in_range (sorted_flags _ _ _) _ false).
  2:{ unfold sorted_flags. rewrite length_map, sorted_values_length.
      apply undo_sorted_range. }
  reflexivity.
Qed.

Lemma fit_short_weights (X : ndarray) (w : list Q) (self : t) :
  accepted X ->
  (List.length w < List.length (data X))%nat ->
  fit X None (Some w) self = (Raise IndexError, self).
Proof.
  intros Hacc Hlen.
  unfold fit, mbind, assert_, lift, get_self, flatten.
  rewrite Hacc. cbv beta iota zeta.
  rewrite (take_in_range (data X) _ 0) by apply argsort_range.
  replace (take w (argsort Qle_bool (data X))) with (@Raise (list Q) IndexError);
    [reflexivity|].
  symmetry. unfold take.
  apply mapM_raise with (x := Z.of_nat (List.length w)).
  - apply (Permutation_in _ (Permutation_sym (argsort_perm Qle_bool (data X)))).
    apply arange_from_In. lia.
  - apply getitem_out_of_range. lia.
  - intros y e'. apply getitem_raises_IndexError.
Qed.

Lemma fit_not_accepted (X : ndarray) (y w : option (list Q)) (self : t) :
  (shape_is_1d X = Ok false ->
   fit X y w self = (Raise AssertionError, self)) /\
  (forall e, shape_is_1d X = Raise e -> fit X y w self = (Raise e, self)).
Proof.
  split; [intro H|intros e H];
    unfold fit, mbind, assert_, lift; now rewrite H.
Qed.

Lemma shape_is_1d_cases (X : ndarray) :
  shape_is_1d X =
  match shape X with
  | [] => Raise IndexError
  | [_] => Ok true
  | _ :: _ :: _ => Ok (last (shape X) 0 =? 1)%Z
  end.
Proof.
  unfold shape_is_1d. destruct (shape X) as [|d0 [|d1 rest]]; try reflexivity.
  replace (List.length (d0 :: d1 :: rest) =? 1)%nat with false by reflexivity.
  unfold getitem. set (l := d0 :: d1 :: rest).
  assert (Hl : (2 <= List.length l)%nat) by (unfold l; simpl; lia).
  destruct (Z.ltb_spec (-1) 0); [|lia].
  destruct (Z.leb_spec 0 (-1 + Z.of_nat (List.length l))); [|lia].
  destruct (Z.ltb_spec (-1 + Z.of_nat (List.length l)) (Z.of_nat (List.length l)));
    [|lia].
  cbn [andb bind].
  replace (Z.to_nat (-1 + Z.of_nat (List.length l))) with (List.length l - 1)%nat
    by lia.
  rewrite nth_error_nth' with (d := 0%Z) by lia.
  cbn [bind]. f_equal. f_equal. f_equal.
  clearbody l. clear -Hl.
  induction l as [|a [|b t] IH]; try (simpl in Hl; lia).
  - destruct t as [|c t]; [reflexivity|].
    change (last (a :: b :: c :: t) 0%Z) with (last (b :: c :: t) 0%Z).
    rewrite <- IH by (simpl; lia).
    simpl. now rewrite ?Nat.sub_0_r.
Qed.

(** *** The shape check (C4) *)

Lemma accepted_iff_shape_ok (X : ndarray) : accepted X <-> shape_ok X.
Proof.
  unfold accepted, shape_ok. rewrite shape_is_1d_cases.
  destruct (shape X) as [|d0 [|d1 rest]].
  - split; [discriminate|]. intros [H|[H _]]; [discriminate|congruence].
  - split; [now left|reflexivity].
  - split.
    + intro H. right. split; [discriminate|].
      injection H as H. now apply Z.eqb_eq.
    + intros [H|[_ H]]; [simpl in H; lia|].
      f_equal. now apply Z.eqb_eq.
Qed.

(** A 2-by-3-by-1 array is neither flat nor n-by-1, and [fit] accepts it. *)
Lemma fit_accepts_trailing_unit_axis :
  let X := mk_ndarray [2; 3; 1]%Z [0; 1; 2; 3; 4; 5] in
  ~ (is_flat_sequence X \/ is_column X) /\
  fst (fit X None None (mk (1 # 2) 1 None None None)) = Ok tt.
Proof.
  split; [|reflexivity].
  intros [[n H]|[n H]]; discriminate.
Qed.

(** C4, amended. [fit(X)] fails exactly when the shape of [X] has not exactly
    one axis and does not end with an axis of length 1; it fails at the
    assertion (for a shape without axes, at the subscript inside it), the
    estimator is left as it was, and nothing else has been computed.  Flat
    and n-by-1 inputs are accepted, and so is every input whose last axis has
    length 1. *)
Theorem fit_fails_iff_shape_rejected (X : ndarray) (self : t) :
  (fst (fit X None None self) = Ok tt <-> shape_ok X) /\
  ((exists e, fst (fit X None None self) = Raise e) <-> ~ shape_ok X) /\
  (~ shape_ok X ->
   fit X None None self =
   (Raise (match shape X with [] => IndexError | _ => AssertionError end), self)) /\
  (is_flat_sequence X \/ is_column X -> shape_ok X).
Proof.
  assert (Hyes : shape_ok X -> fst (fit X None None self) = Ok tt).
  { intro H. apply accepted_iff_shape_ok in H.
    rewrite fit_ok; [reflexivity|exact H|].
    unfold weights_of, ones_like. now rewrite repeat_length. }
  assert (Hno : ~ shape_ok X ->
                fit X None None self =
                (Raise (match shape X with [] => IndexError | _ => AssertionError end),
                 self)).
  { intro H. rewrite <- accepted_iff_shape_ok in H. unfold accepted in H.
    destruct (fit_not_accepted X None None self) as [Hf He].
    rewrite shape_is_1d_cases in *.
    destruct (shape X) as [|d0 [|d1 rest]].
    - now apply He.
    - now elim H.
    - destruct (last (d0 :: d1 :: rest) 0 =? 1)%Z; [now elim H|now apply Hf]. }
  assert (Hdec : shape_ok X \/ ~ shape_ok X).
  { rewrite <- accepted_iff_shape_ok. unfold accepted.
    destruct (shape_is_1d X) as [[|]|e]; [now left|right|right]; congruence. }
  split; [|split; [|split]].
  - split; [|exact Hyes]. intro H.
    destruct Hdec as [Hs|Hs]; [exact Hs|].
    rewrite (Hno Hs) in H. discriminate.
  - split.
    + intros [e He] Hs. rewrite (Hyes Hs) in He. discriminate.
    + intro Hs. rewrite (Hno Hs). eexists. reflexivity.
  - exact Hno.
  - intros [[n H]|[n H]]; unfold shape_ok; rewrite H.
    + now left.
    + right. split; [discriminate|reflexivity].
Qed.

Lemma fit_fails_iff_shape_rejected_witness :
  fit (mk_ndarray [2; 3]%Z [0; 1; 2; 3; 4; 5]) None None
      (mk (1 # 2) 1 (Some [0%Z]) None (Some [0%Z])) =
  (Raise AssertionError, mk (1 # 2) 1 (Some [0%Z]) None (Some [0%Z])).
Proof.
  apply (proj1 (proj2 (proj2
           (fit_fails_iff_shape_rejected
              (mk_ndarray [2; 3]%Z [0; 1; 2; 3; 4; 5])
              (mk (1 # 2) 1 (Some [0%Z]) None (Some [0%Z])))))).
  unfold shape_ok. simpl. intros [H|[_ H]]; discriminate.
Defined.

(** *** Weights of another length (C5) *)

(** One value with two weights: [fit] returns, it raises nothing. *)
Lemma fit_accepts_longer_weights :
  List.length [1; 1] <> List.length (data (flat [0])) /\
  fit (flat [0]) None (Some [1; 1]) (mk (1 # 2) 1 None None None) =
  (Ok tt, mk (1 # 2) 1 (Some [0%Z]) None (Some [0%Z])).
Proof. split; [discriminate|reflexivity]. Qed.

Lemma sorted_weights_firstn (ar w : list Q) :
  sorted_weights ar (firstn (List.length ar) w) = sorted_weights ar w.
Proof.
  unfold sorted_weights. apply map_ext_in. intros i Hi.
  pose proof (argsort_range Qle_bool ar) as Hr.
  rewrite Forall_forall in Hr. specialize (Hr i Hi).
  rewrite nth_firstn.
  destruct (Nat.ltb_spec (Z.to_nat i) (List.length ar)); [reflexivity|lia].
Qed.

(** C5, amended. With fewer weights than values [fit] raises an index error,
    from the subscript that sorts the weights, and leaves the estimator as
    it was.  With more weights than values it raises nothing: it returns
    what it returns for the first [len(X)] weights. *)
Theorem fit_weights_of_other_length (X : ndarray) (w : list Q) (self : t) :
  accepted X ->
  ((List.length w < List.length (data X))%nat ->
   fit X None (Some w) self = (Raise IndexError, self)) /\
  ((List.length (data X) < List.length w)%nat ->
   fst (fit X None (Some w) self) = Ok tt /\
   fit X None (Some w) self =
   fit X None (Some (firstn (List.length (data X)) w)) self).
Proof.
  intro Hacc. split.
  - now apply fit_short_weights.
  - intro Hlen.
    rewrite (fit_ok X (Some w) self Hacc) by (unfold weights_of; lia).
    rewrite (fit_ok X (Some (firstn _ w)) self Hacc)
      by (unfold weights_of; rewrite length_firstn; lia).
    split; [reflexivity|].
    unfold fitted, fit_flags, fit_labels, weights_of.
    now rewrite sorted_weights_firstn.
Qed.

Lemma fit_weights_of_other_length_witness :
  fit (flat [0; 1]) None (Some [1]) (mk (1 # 2) 1 None None None) =
  (Raise IndexError, mk (1 # 2) 1 None None None).
Proof.
  apply (proj1 (fit_weights_of_other_length (flat [0; 1]) [1]
                  (mk (1 # 2) 1 None None None) eq_refl)).
  simpl. lia.
Defined.

(** *** A call that fails (C6) *)

(** C6. When [fit] raises, the estimator is as it was before the call, its
    [labels_] and [core_sample_indices_] included; when it returns, both have
    been set and the parameters are unchanged. *)
Theorem fit_failure_leaves_estimator (X : ndarray) (y w : option (list Q))
  (self : t) :
  match fit X y w self with
  | (Raise _, self') => self' = self
  | (Ok _, self') =>
      labels_ self' <> None /\ core_sample_indices_ self' <> None /\
      eps self' = eps self /\ min_samples self' = min_samples self /\
      components_ self' = components_ self
  end.
Proof.
  unfold fit, mbind, assert_, lift, get_self, set_core_sample_indices_,
    set_labels_, ret.
  destruct (shape_is_1d X) as [[|]|e]; cbv beta iota zeta; try reflexivity.
  destruct y; cbv beta iota zeta; try reflexivity.
  destruct (take (flatten X) _); cbv beta iota zeta; try reflexivity.
  destruct (take _ _); cbv beta iota zeta; try reflexivity.
  destruct (group_numbers _ _ _); cbv beta iota zeta; try reflexivity.
  destruct (take _ _); cbv beta iota zeta; try reflexivity.
  destruct (take _ _); cbv beta iota zeta; try reflexivity.
  cbn. repeat split; discriminate.
Qed.

(** A failing call on an estimator that holds the result of an earlier one. *)
Example fit_failure_keeps_earlier_result :
  let self := mk (1 # 2) 1 (Some [0; 1]%Z) None (Some [0; 0]%Z) in
  fit (flat [0; 1; 2]) None (Some [1]) self = (Raise IndexError, self) /\
  fit (mk_ndarray [1; 3]%Z [0; 1; 2]) None None self = (Raise AssertionError, self).
Proof. split; reflexivity. Qed.

(** *** The weighted scenario (C8) *)

(** C8. [X = [0, 1, 2]] with weights [[5, 5, 5]], [eps = 1] and
    [min_samples = 6]: the neighbourhood weights are 10, 15 and 10, the three
    points are core, [core_sample_indices_] is [[0, 1, 2]] and the labels
    are all 0. *)
Theorem weighted_scenario :
  let self := mk 1 6 None None None in
  _neighbor_weight self [0; 1; 2] [5; 5; 5] = Ok [10; 15; 10] /\
  neighborhood_weight 1 [0; 1; 2] [5; 5; 5] 1 == 15 /\
  neighborhood_weight 1 [0; 1; 2] [5; 5; 5] 0 == 10 /\
  neighborhood_weight 1 [0; 1; 2] [5; 5; 5] 2 == 10 /\
  _get_is_core self [0; 1; 2] [5; 5; 5] = Ok [true; true; true] /\
  fit (flat [0; 1; 2]) None (Some [5; 5; 5]) self =
  (Ok tt, mk 1 6 (Some [0; 1; 2]%Z) None (Some [0; 0; 0]%Z)).
Proof.
  cbv zeta. repeat split; vm_compute; reflexivity.
Qed.

(** *** Construction (C10) *)

Lemma ascii_eqb_nat (c d : ascii) :
  (c =? d)%char = (nat_of_ascii c =? nat_of_ascii d)%nat.
Proof.
  destruct (Ascii.eqb_spec c d) as [->|Hne].
  - now rewrite Nat.eqb_refl.
  - symmetry. apply Nat.eqb_neq. intro H. apply Hne.
    rewrite <- (ascii_nat_embedding c), <- (ascii_nat_embedding d). now rewrite H.
Qed.

Lemma nat_of_lower_ascii (c : ascii) :
  nat_of_ascii (lower_ascii c) =
  if is_upper c then (nat_of_ascii c + 32)%nat else nat_of_ascii c.
Proof.
  unfold lower_ascii, is_upper.
  destruct ((65 <=? nat_of_ascii c) && (nat_of_ascii c <=? 90))%nat eqn:E;
    [|reflexivity].
  apply andb_true_iff in E. destruct E as [E1 E2].
  apply Nat.leb_le in E1, E2.
  apply nat_ascii_embedding. lia.
Qed.

Lemma same_letter_lower (c d : ascii) :
  same_letter c d = (lower_ascii c =? lower_ascii d)%char.
Proof.
  rewrite (ascii_eqb_nat (lower_ascii c)), !nat_of_lower_ascii.
  unfold same_letter. rewrite ascii_eqb_nat. unfold is_upper.
  destruct (Nat.leb_spec 65 (nat_of_ascii c)), (Nat.leb_spec (nat_of_ascii c) 90),
    (Nat.leb_spec 65 (nat_of_ascii d)), (Nat.leb_spec (nat_of_ascii d) 90);
    cbn [andb orb];
    repeat match goal with
           | |- context [(?a =? ?b)%nat] => destruct (Nat.eqb_spec a b)
           end; cbn [andb orb]; try reflexivity; lia.
Qed.

Lemma case_variant_lower (s : string) :
  forall t, case_variant s t = (lower s =? lower t)%string.
Proof.
  induction s as [|c s IH]; intros [|d t]; try reflexivity.
  cbn [case_variant lower String.eqb].
  now rewrite same_letter_lower, IH.
Qed.

(** C10. The constructor looks at the metric only: whatever [eps] and
    [min_samples] are, it returns the estimator, holding them as given, when
    the metric is "euclidean" up to the case of its letters, and raises
    otherwise, that is, exactly when the lower-cased metric differs from
    "euclidean". *)
Theorem init_validates_metric_only (e m : Q) (metric : string) :
  (__init__ e m metric = Ok (mk e m None None None) <->
   lower metric = "euclidean"%string) /\
  (__init__ e m metric = Raise ValueError <->
   lower metric <> "euclidean"%string) /\
  (case_variant metric "euclidean" = true <->
   lower metric = "euclidean"%string).
Proof.
  unfold __init__.
  rewrite case_variant_lower. change (lower "euclidean") with "euclidean"%string.
  destruct (String.eqb_spec (lower metric) "euclidean") as [H|H]; cbn [negb].
  - repeat split; try congruence; try reflexivity.
  - repeat split; try congruence; try reflexivity; try discriminate.
Qed.

Example init_examples :
  __init__ 0 0 "EuClIdEaN" = Ok (mk 0 0 None None None) /\
  __init__ (-1) (-3 # 2) "euclidean" = Ok (mk (-1) (-3 # 2) None None None) /\
  __init__ (1 # 2) 5 "manhattan" = Raise ValueError.
Proof. repeat split. Qed.

(** ** Equal values, equal results *)

(** The arrays are compared up to the equality of rationals. *)
Lemma Forall2_Qeq_refl (l : list Q) : Forall2 Qeq l l.
Proof. induction l; constructor; [reflexivity|assumption]. Qed.

Lemma Forall2_Qeq_length (l l' : list Q) :
  Forall2 Qeq l l' -> List.length l = List.length l'.
Proof. induction 1; simpl; congruence. Qed.

Lemma Forall2_Qeq_nth (l l' : list Q) :
  Forall2 Qeq l l' -> forall i, nth i l 0 == nth i l' 0.
Proof.
  induction 1 as [|x y t t' Hxy Ht IH]; intro i.
  - destruct i; reflexivity.
  - destruct i; simpl; [exact Hxy|apply IH].
Qed.

Lemma bisect_Qeq (goes_right : Q -> Q -> bool) (a a' : list Q) (v v' : Q) :
  (forall x x' u u', x == x' -> u == u' -> goes_right x u = goes_right x' u') ->
  Forall2 Qeq a a' -> v == v' ->
  forall fuel lo hi,
    bisect goes_right a v fuel lo hi = bisect goes_right a' v' fuel lo hi.
Proof.
  intros Hg Ha Hv. induction fuel as [|fuel IH]; intros lo hi; cbn [bisect].
  - reflexivity.
  - destruct (lo <? hi)%nat; [|reflexivity].
    rewrite (Hg _ (nth (lo + (hi - lo) / 2) a' 0) v v')
      by (try apply Forall2_Qeq_nth; assumption).
    destruct (goes_right _ v'); apply IH.
Qed.

Lemma left_point_Qeq (a a' : list Q) (v v' : Q) :
  Forall2 Qeq a a' -> v == v' -> left_point a v = left_point a' v'.
Proof.
  intros Ha Hv. unfold left_point.
  rewrite <- (Forall2_Qeq_length a a' Ha).
  apply bisect_Qeq; try assumption.
  intros x x' u u' Hx Hu. now apply Qlt_bool_Qeq.
Qed.

Lemma gap_exceeds_Qeq (e prev prev' c c' : Q) :
  prev == prev' -> c == c' -> gap_exceeds e prev c = gap_exceeds e prev' c'.
Proof.
  intros Hp Hc. unfold gap_exceeds. apply Qlt_bool_Qeq; [reflexivity|].
  apply Qabs_wd. now rewrite Hp, Hc.
Qed.

Lemma walk_Qeq (e : Q) (rest rest' : list Q) :
  Forall2 Qeq rest rest' ->
  forall id prev prev', prev == prev' ->
    walk e id prev rest = walk e id prev' rest'.
Proof.
  induction 1 as [|c c' t t' Hc Ht IH]; intros id prev prev' Hp; cbn [walk].
  - reflexivity.
  - rewrite (gap_exceeds_Qeq e prev prev' c c' Hp Hc). f_equal. now apply IH.
Qed.

Lemma _assign_core_group_numbers_Qeq (self : t) (cores cores' : list Q) :
  Forall2 Qeq cores cores' ->
  _assign_core_group_numbers self cores = _assign_core_group_numbers self cores'.
Proof.
  intros [|c c' t t' Hc Ht]; [reflexivity|].
  rewrite !_assign_core_group_numbers_cons. f_equal. now apply walk_Qeq.
Qed.

Lemma dist_to_Qeq (cores cores' : list Q) (x x' : Q) (j : Z) :
  Forall2 Qeq cores cores' -> x == x' ->
  dist_to cores x j == dist_to cores' x' j.
Proof.
  intros Hc Hx. unfold dist_to. apply Qabs_wd.
  rewrite (Forall2_Qeq_nth cores cores' Hc (Z.to_nat j)), Hx. reflexivity.
Qed.

Lemma nearest_candidate_Qeq (cores cores' : list Q) (x x' : Q) :
  Forall2 Qeq cores cores' -> x == x' ->
  nearest_candidate cores x = nearest_candidate cores' x'.
Proof.
  intros Hc Hx.
  assert (HR : right_candidate cores x = right_candidate cores' x').
  { unfold right_candidate, searchsorted_left.
    fold (left_point cores x) (left_point cores' x').
    now rewrite (left_point_Qeq cores cores' x x' Hc Hx),
                (Forall2_Qeq_length cores cores' Hc). }
  assert (HL : left_candidate cores x = left_candidate cores' x').
  { unfold left_candidate, searchsorted_left.
    fold (left_point cores x) (left_point cores' x').
    now rewrite (left_point_Qeq cores cores' x x' Hc Hx),
                (Forall2_Qeq_length cores cores' Hc). }
  unfold nearest_candidate. rewrite HR, HL.
  rewrite (Qlt_bool_Qeq _ _ _ _
             (dist_to_Qeq cores cores' x x' (right_candidate cores' x') Hc Hx)
             (dist_to_Qeq cores cores' x x' (left_candidate cores' x') Hc Hx)).
  reflexivity.
Qed.

Lemma non_core_label_Qeq (self : t) (cores cores' : list Q) (nums : list Z)
  (x x' : Q) :
  Forall2 Qeq cores cores' -> x == x' ->
  non_core_label self cores nums x = non_core_label self cores' nums x'.
Proof.
  intros Hc Hx. unfold non_core_label.
  rewrite (nearest_candidate_Qeq cores cores' x x' Hc Hx).
  rewrite (Qle_bool_Qeq _ _ _ _
             (dist_to_Qeq cores cores' x x' (nearest_candidate cores' x') Hc Hx)
             (Qeq_refl (eps self))).
  destruct Hc; reflexivity.
Qed.

(** ** The weight of a neighbourhood does not depend on the order *)

Lemma weight_where_perm (p : Q -> bool) (pts pts' : list (Q * Q)) :
  Permutation pts pts' -> weight_where p pts == weight_where p pts'.
Proof.
  induction 1 as [|x l l' Hp IH|x y l|l l' l'' H1 IH1 H2 IH2]; simpl.
  - reflexivity.
  - now rewrite IH.
  - lra.
  - now rewrite IH1.
Qed.

Lemma weight_where_ext (p q : Q -> bool) (pts : list (Q * Q)) :
  (forall x, p x = q x) -> weight_where p pts = weight_where q pts.
Proof.
  intro H. induction pts as [|xw t IH]; simpl; [reflexivity|].
  now rewrite H, IH.
Qed.

Lemma within_Qeq (e v v' x : Q) : v == v' -> within e v x = within e v' x.
Proof.
  intro H. unfold within. f_equal; apply Qle_bool_Qeq; rewrite ?H; reflexivity.
Qed.

Lemma core_of_Qeq (self : t) (pts : list (Q * Q)) (v v' : Q) :
  v == v' -> core_of self pts v = core_of self pts v'.
Proof.
  intro H. unfold core_of.
  rewrite (weight_where_ext (within (eps self) v) (within (eps self) v') pts).
  - reflexivity.
  - intro x. now apply within_Qeq.
Qed.

Lemma core_of_perm (self : t) (pts pts' : list (Q * Q)) (v : Q) :
  Permutation pts pts' -> core_of self pts v = core_of self pts' v.
Proof.
  intro H. unfold core_of. apply Qle_bool_Qeq; [reflexivity|].
  now apply weight_where_perm.
Qed.

Lemma core_value_sorted (self : t) (ar sw : list Q) (v : Q) :
  Sorted Qle ar -> List.length sw = List.length ar -> 0 <= eps self ->
  core_value self ar sw v = core_of self (combine ar sw) v.
Proof.
  intros Hs Hlen He. unfold core_value, core_of.
  apply Qle_bool_Qeq; [reflexivity|].
  now apply window_weight_sorted.
Qed.

(** ** The label of a value *)

Lemma Sorted_Qle_filter (p : Q -> bool) (l : list Q) :
  Sorted Qle l -> Sorted Qle (filter p l).
Proof.
  intro Hs. apply StronglySorted_Sorted.
  assert (Hss : StronglySorted Qle l).
  { apply Sorted_StronglySorted; [|exact Hs]. intros x y z. apply Qle_trans. }
  clear Hs. induction Hss as [|x t Hss IH Hall]; simpl; [constructor|].
  destruct (p x); [|exact IH].
  constructor; [exact IH|].
  rewrite Forall_forall in *. intros y Hy. apply Hall.
  apply filter_In in Hy. tauto.
Qed.

Lemma group_numbers_step (self : t) (cores : list Q) (i : nat) :
  (S i < List.length cores)%nat ->
  nth (S i) (_assign_core_group_numbers self cores) (-1)%Z =
  (nth i (_assign_core_group_numbers self cores) (-1) +
   (if gap_exceeds (eps self) (nth i cores 0%Q) (nth (S i) cores 0%Q)
    then 1 else 0))%Z.
Proof.
  intro Hi. destruct cores as [|c0 rest]; [simpl in Hi; lia|].
  rewrite _assign_core_group_numbers_cons.
  destruct (walk_step (eps self) rest 0%Z c0 i
              (nth i (c0 :: rest) 0) (nth (S i) (c0 :: rest) 0))
    as [k [H1 H2]].
  - apply nth_error_nth'. lia.
  - apply nth_error_nth'. exact Hi.
  - rewrite (nth_error_nth _ _ _ H1), (nth_error_nth _ _ _ H2). reflexivity.
Qed.

(** Along sorted core values, and for [eps >= 0], the id does not change
    between two equal values. *)
Lemma group_numbers_constant_on_equal (self : t) (cores : list Q) :
  Sorted Qle cores -> 0 <= eps self ->
  forall d i, (i + d < List.length cores)%nat ->
    nth i cores 0 == nth (i + d) cores 0 ->
    nth i (_assign_core_group_numbers self cores) (-1)%Z =
    nth (i + d) (_assign_core_group_numbers self cores) (-1)%Z.
Proof.
  intros Hs He. pose proof (Sorted_Qle_nth cores Hs) as Hord.
  induction d as [|d IH]; intros i Hi Heq.
  - now rewrite Nat.add_0_r.
  - replace (i + S d)%nat with (S (i + d)) in * by lia.
    assert (H1 : nth i cores 0 <= nth (i + d) cores 0) by (apply Hord; lia).
    assert (H2 : nth (i + d) cores 0 <= nth (S (i + d)) cores 0)
      by (apply Hord; lia).
    rewrite group_numbers_step by exact Hi.
    rewrite <- IH by (try lia; lra).
    replace (gap_exceeds (eps self) (nth (i + d) cores 0) (nth (S (i + d)) cores 0))
      with false; [lia|].
    symmetry. unfold gap_exceeds, Qlt_bool. apply negb_false_iff.
    apply Qle_bool_iff.
    qabs (nth (S (i + d)) cores 0 - nth (i + d) cores 0); lra.
Qed.

Lemma group_numbers_by_value (self : t) (cores : list Q) :
  Sorted Qle cores -> 0 <= eps self ->
  _assign_core_group_numbers self cores = map (core_id self cores) cores.
Proof.
  intros Hs He.
  apply nth_ext with (d := (-1)%Z) (d' := core_id self cores 0).
  - now rewrite length_map, _assign_core_group_numbers_length.
  - intros k Hk. rewrite _assign_core_group_numbers_length in Hk.
    rewrite map_nth. unfold core_id.
    set (v := nth k cores 0). set (k0 := left_point cores v).
    destruct (left_point_spec cores v Hs) as [Hlt Hge]. fold k0 in Hlt, Hge.
    assert (Hk0 : (k0 <= k)%nat).
    { destruct (Nat.le_gt_cases k0 k) as [H|H]; [exact H|].
      specialize (Hlt k H). fold v in Hlt. lra. }
    assert (H1 : v <= nth k0 cores 0) by (apply Hge; lia).
    assert (H2 : nth k0 cores 0 <= v)
      by (apply (Sorted_Qle_nth cores Hs); lia).
    replace k with (k0 + (k - k0))%nat at 1 by lia.
    symmetry. apply group_numbers_constant_on_equal; try assumption; try lia.
    replace (k0 + (k - k0))%nat with k by lia. fold v. lra.
Qed.

(** In a sorted array with [eps >= 0], the group numbers are the labels of
    the values. *)
Lemma sorted_labels_by_value (self : t) (ar sw : list Q) :
  Sorted Qle ar -> 0 <= eps self ->
  sorted_labels self ar sw = map (value_label self ar sw) ar.
Proof.
  intros Hs He. unfold sorted_labels, sorted_flags.
  rewrite (group_numbers_by_value self (sorted_cores self ar sw))
    by (try apply Sorted_Qle_filter; assumption).
  rewrite !map_map. unfold sorted_cores at 2.
  rewrite (scatter_map (core_value self ar sw) (fun _ => (-1)%Z)).
  rewrite (scatter_map (fun x => negb (core_value self ar sw x))).
  apply map_ext. intro x. unfold value_label.
  rewrite <- (group_numbers_by_value self (sorted_cores self ar sw))
    by (try apply Sorted_Qle_filter; assumption).
  destruct (core_value self ar sw x); reflexivity.
Qed.

Lemma right_point_Qeq (a a' : list Q) (v v' : Q) :
  Forall2 Qeq a a' -> v == v' -> right_point a v = right_point a' v'.
Proof.
  intros Ha Hv. unfold right_point.
  rewrite <- (Forall2_Qeq_length a a' Ha).
  apply bisect_Qeq; try assumption.
  intros x x' u u' Hx Hu. now apply Qle_bool_Qeq.
Qed.

Lemma core_value_Qeq (self : t) (ar sw : list Q) (v v' : Q) :
  v == v' -> core_value self ar sw v = core_value self ar sw v'.
Proof.
  intro H. unfold core_value, window_weight.
  rewrite (right_point_Qeq ar ar (v + eps self) (v' + eps self))
    by (try apply Forall2_Qeq_refl; now rewrite H).
  rewrite (left_point_Qeq ar ar (v - eps self) (v' - eps self))
    by (try apply Forall2_Qeq_refl; now rewrite H).
  reflexivity.
Qed.

Lemma value_label_Qeq (self : t) (ar sw : list Q) (v v' : Q) :
  v == v' -> value_label self ar sw v = value_label self ar sw v'.
Proof.
  intro H. unfold value_label.
  rewrite (core_value_Qeq self ar sw v v' H).
  destruct (core_value self ar sw v').
  - unfold core_id.
    now rewrite (left_point_Qeq _ _ v v' (Forall2_Qeq_refl _) H).
  - apply non_core_label_Qeq; [apply Forall2_Qeq_refl|exact H].
Qed.

(** ** Back to the order of the input *)

(** Undoing the sort on an array computed value by value from the sorted
    values gives the array computed from the input values. *)
Lemma unsort_map {B : Type} (h : Q -> B) (d : B) (ar : list Q) :
  map (fun u => nth (Z.to_nat u) (map h (sorted_values ar)) d) (undo_sorted ar)
  = map h ar.
Proof.
  unfold sorted_values, undo_sorted.
  set (s := argsort Qle_bool ar).
  rewrite map_map.
  set (g := fun i : Z => h (nth (Z.to_nat i) ar 0)).
  transitivity (map g (map (fun u => nth (Z.to_nat u) s 0%Z) (argsort Z.leb s))).
  - rewrite map_map. apply map_ext_in. intros u Hu.
    pose proof (argsort_range Z.leb s) as Hr.
    rewrite Forall_forall in Hr. specialize (Hr u Hu).
    rewrite (nth_indep (map g s) d (g 0%Z)) by (rewrite length_map; lia).
    apply map_nth.
  - rewrite argsort_inverse.
    + unfold s. rewrite argsort_length. unfold g. apply map_nth_arange0.
    + unfold s at 2. rewrite argsort_length. apply argsort_perm.
Qed.

Lemma fit_flags_by_value (self : t) (ar w : list Q) :
  fit_flags self ar w =
  map (core_value self (sorted_values ar) (sorted_weights ar w)) ar.
Proof. unfold fit_flags, sorted_flags. apply unsort_map. Qed.

Lemma fit_labels_by_value (self : t) (ar w : list Q) :
  0 <= eps self ->
  fit_labels self ar w =
  map (value_label self (sorted_values ar) (sorted_weights ar w)) ar.
Proof.
  intro He. unfold fit_labels.
  rewrite sorted_labels_by_value by (try apply sorted_values_sorted; exact He).
  apply unsort_map.
Qed.

Lemma where_from_In (mask : list bool) :
  forall s i,
    In i (where_from s mask) <->
    exists k, i = (s + Z.of_nat k)%Z /\ nth_error mask k = Some true.
Proof.
  induction mask as [|b m IH]; intros s i.
  - simpl. split; [intros []|intros [k [_ H]]; destruct k; discriminate].
  - assert (Hrec : In i (where_from (s + 1) m) <->
                   exists k, i = (s + Z.of_nat (S k))%Z /\ nth_error m k = Some true).
    { rewrite IH. split; intros [k [H1 H2]]; exists k; split; try assumption; lia. }
    cbn [where_from]. destruct b; cbn [In]; rewrite Hrec; split.
    + intros [<-|[k [H1 H2]]].
      * exists 0%nat. split; [lia|reflexivity].
      * exists (S k). split; assumption.
    + intros [[|k] [H1 H2]].
      * left. lia.
      * right. exists k. split; assumption.
    + intros [k [H1 H2]]. exists (S k). split; assumption.
    + intros [[|k] [H1 H2]]; [discriminate|].
      exists k. split; assumption.
Qed.

Lemma where_In (mask : list bool) (k : nat) :
  In (Z.of_nat k) (where_ mask) <-> nth_error mask k = Some true.
Proof.
  unfold where_. rewrite where_from_In. split.
  - intros [k' [H1 H2]]. replace k with k' by lia. exact H2.
  - intro H. exists k. split; [lia|exact H].
Qed.

(** ** Equal values get one label (C9) *)

(** C9. Two positions of the input that hold equal values get the same label
    and are both core or both not, whatever their places in the input; and
    in whatever order the sort leaves equal values (for every sorted
    arrangement of the values with their weights) equal values have the same
    flag and the same group number. *)
Theorem equal_values_same_label (X : ndarray) (w : option (list Q)) (self : t) :
  accepted X ->
  List.length (weights_of (data X) w) = List.length (data X) ->
  0 <= eps self ->
  (exists labels core_indices,
     fit X None w self =
     (Ok tt, mk (eps self) (min_samples self) (Some core_indices)
                (components_ self) (Some labels)) /\
     List.length labels = List.length (data X) /\
     forall i j xi xj,
       nth_error (data X) i = Some xi ->
       nth_error (data X) j = Some xj ->
       xi == xj ->
       nth_error labels i = nth_error labels j /\
       (In (Z.of_nat i) core_indices <-> In (Z.of_nat j) core_indices)) /\
  (forall ar sw,
     Sorted Qle ar -> List.length sw = List.length ar ->
     exists is_core group_nums,
       group_numbers self ar sw = Ok (is_core, group_nums) /\
       forall a b va vb,
         nth_error ar a = Some va ->
         nth_error ar b = Some vb ->
         va == vb ->
         nth_error is_core a = nth_error is_core b /\
         nth_error group_nums a = nth_error group_nums b).
Proof.
  intros Hacc Hlen He. split.
  - exists (fit_labels self (data X) (weights_of (data X) w)),
           (where_ (fit_flags self (data X) (weights_of (data X) w))).
    split; [apply fit_ok; [exact Hacc|lia]|].
    rewrite fit_labels_by_value by exact He. rewrite fit_flags_by_value.
    split; [apply length_map|].
    intros i j xi xj Hi Hj Heq.
    rewrite !where_In, !nth_error_map, Hi, Hj. cbn [option_map].
    rewrite (value_label_Qeq self _ _ xi xj Heq).
    rewrite (core_value_Qeq self _ _ xi xj Heq).
    split; reflexivity.
  - intros ar sw Hs Hl.
    exists (sorted_flags self ar sw), (sorted_labels self ar sw).
    split; [now apply group_numbers_ok|].
    rewrite sorted_labels_by_value by assumption. unfold sorted_flags.
    intros a b va vb Ha Hb Heq.
    rewrite !nth_error_map, Ha, Hb. cbn [option_map].
    rewrite (value_label_Qeq self _ _ va vb Heq).
    rewrite (core_value_Qeq self _ _ va vb Heq).
    split; reflexivity.
Qed.

Lemma equal_values_same_label_witness :
  exists labels core_indices,
    fit (flat [3; 0; 3; 0; 1]) None None (mk 1 2 None None None) =
    (Ok tt, mk 1 2 (Some core_indices) None (Some labels)) /\
    List.length labels = 5%nat /\
    nth_error labels 0 = nth_error labels 2.
Proof.
  destruct (proj1 (equal_values_same_label (flat [3; 0; 3; 0; 1]) None
                     (mk 1 2 None None None) eq_refl eq_refl
                     ltac:(unfold Qle; simpl; lia)))
    as [labels [ci [H1 [H2 H3]]]].
  exists labels, ci. split; [exact H1|]. split; [exact H2|].
  exact (proj1 (H3 0%nat 2%nat 3 3 eq_refl eq_refl (Qeq_refl 3))).
Defined.

(** ** Sorted arrangements of the same values *)

Lemma filter_length_perm {A : Type} (p : A -> bool) (l l' : list A) :
  Permutation l l' -> List.length (filter p l) = List.length (filter p l').
Proof.
  induction 1 as [|x l l' Hp IH|x y l|l l' l'' H1 IH1 H2 IH2]; simpl.
  - reflexivity.
  - destruct (p x); simpl; now rewrite IH.
  - destruct (p x), (p y); reflexivity.
  - congruence.
Qed.

Lemma filter_length_prefix (p : Q -> bool) (l : list Q) :
  forall k, (k < List.length l)%nat ->
    (forall j, (j <= k)%nat -> p (nth j l 0) = true) ->
    (k < List.length (filter p l))%nat.
Proof.
  induction l as [|x t IH]; intros k Hk Hp; [simpl in Hk; lia|].
  assert (Hx : p x = true) by (apply (Hp 0%nat); lia).
  simpl. rewrite Hx. simpl.
  destruct k as [|k]; [lia|].
  apply -> Nat.succ_lt_mono. apply IH; [simpl in Hk; lia|].
  intros j Hj. apply (Hp (S j)). lia.
Qed.

Lemma filter_length_suffix (p : Q -> bool) (l : list Q) :
  forall k,
    (forall j, (k <= j < List.length l)%nat -> p (nth j l 0) = false) ->
    (List.length (filter p l) <= k)%nat.
Proof.
  induction l as [|x t IH]; intros k Hp; [simpl; lia|].
  destruct k as [|k].
  - assert (Hx : p x = false) by (apply (Hp 0%nat); simpl; lia).
    simpl. rewrite Hx.
    apply (IH 0%nat). intros j Hj. apply (Hp (S j)). simpl. lia.
  - simpl. assert (List.length (filter p t) <= k)%nat.
    { apply IH. intros j Hj. apply (Hp (S j)). simpl. lia. }
    destruct (p x); simpl; lia.
Qed.

(** Two sorted arrangements of the same values agree position by
    position. *)
Lemma sorted_perm_nth (l l' : list Q) :
  Sorted Qle l -> Sorted Qle l' -> Permutation l l' ->
  forall k, (k < List.length l)%nat -> nth k l 0 <= nth k l' 0.
Proof.
  intros Hs Hs' Hp k Hk.
  apply Qnot_lt_le. intro Hlt.
  set (v := nth k l' 0) in *.
  pose proof (Permutation_length Hp) as Hlen.
  assert (H1 : (k < List.length (filter (fun x => Qle_bool x v) l'))%nat).
  { apply filter_length_prefix; [lia|].
    intros j Hj. apply Qle_bool_iff. apply (Sorted_Qle_nth l' Hs'). lia. }
  assert (H2 : (List.length (filter (fun x => Qle_bool x v) l) <= k)%nat).
  { apply filter_length_suffix. intros j Hj. apply Qle_bool_false_iff.
    apply Qlt_le_trans with (nth k l 0); [exact Hlt|].
    apply (Sorted_Qle_nth l Hs). lia. }
  rewrite (filter_length_perm _ l l' Hp) in H2. lia.
Qed.

Lemma Forall2_Qeq_from_nth (l : list Q) :
  forall l', List.length l = List.length l' ->
    (forall k, (k < List.length l)%nat -> nth k l 0 == nth k l' 0) ->
    Forall2 Qeq l l'.
Proof.
  induction l as [|x t IH]; intros [|y t'] Hlen Hn; try discriminate.
  - constructor.
  - constructor.
    + apply (Hn 0%nat). simpl. lia.
    + apply IH; [simpl in Hlen; lia|].
      intros k Hk. apply (Hn (S k)). simpl. lia.
Qed.

Lemma sorted_perm_Qeq (l l' : list Q) :
  Sorted Qle l -> Sorted Qle l' -> Permutation l l' -> Forall2 Qeq l l'.
Proof.
  intros Hs Hs' Hp. pose proof (Permutation_length Hp) as Hlen.
  apply Forall2_Qeq_from_nth; [exact Hlen|].
  intros k Hk. apply Qle_antisym.
  - now apply sorted_perm_nth.
  - apply sorted_perm_nth; try assumption; [now apply Permutation_sym|lia].
Qed.

Lemma filter_Forall2_Qeq (c c' : Q -> bool) (l l' : list Q) :
  (forall x x', x == x' -> c x = c' x') ->
  Forall2 Qeq l l' -> Forall2 Qeq (filter c l) (filter c' l').
Proof.
  intros Hc. induction 1 as [|x y t t' Hxy Ht IH]; simpl; [constructor|].
  rewrite (Hc x y Hxy). destruct (c' y); [constructor|]; assumption.
Qed.

(** ** The points, by index *)




(** ** Arrangements of the same points *)

(** Two sorted arrangements of the same weighted points give every value the
    same flag and the same label. *)
Lemma value_label_arrangement (self : t) (ar sw ar' sw' : list Q) :
  Sorted Qle ar -> Sorted Qle ar' ->
  List.length sw = List.length ar -> List.length sw' = List.length ar' ->
  0 <= eps self ->
  Permutation (combine ar sw) (combine ar' sw') ->
  forall v,
    core_value self ar sw v = core_value self ar' sw' v /\
    value_label self ar sw v = value_label self ar' sw' v.
Proof.
  intros Hs Hs' Hl Hl' He Hp.
  assert (Hcv : forall v, core_value self ar sw v = core_value self ar' sw' v).
  { intro v. rewrite !core_value_sorted by assumption. now apply core_of_perm. }
  assert (Hpa : Permutation ar ar').
  { rewrite <- (map_fst_combine ar sw) by now symmetry.
    rewrite <- (map_fst_combine ar' sw') by now symmetry.
    now apply Permutation_map. }
  pose proof (sorted_perm_Qeq ar ar' Hs Hs' Hpa) as HF.
  assert (Hcores : Forall2 Qeq (sorted_cores self ar sw) (sorted_cores self ar' sw')).
  { apply filter_Forall2_Qeq; [|exact HF].
    intros x x' Hx. rewrite <- Hcv. now apply core_value_Qeq. }
  intro v. split; [apply Hcv|].
  unfold value_label. rewrite <- Hcv.
  rewrite <- (_assign_core_group_numbers_Qeq self _ _ Hcores).
  destruct (core_value self ar sw v).
  - unfold core_id.
    rewrite <- (_assign_core_group_numbers_Qeq self _ _ Hcores).
    now rewrite (left_point_Qeq _ _ v v Hcores (Qeq_refl v)).
  - apply non_core_label_Qeq; [exact Hcores|reflexivity].
Qed.

Lemma map_Forall2_Qeq {B : Type} (f f' : Q -> B) (l l' : list Q) :
  (forall x y, x == y -> f x = f' y) ->
  Forall2 Qeq l l' -> map f l = map f' l'.
Proof.
  intro Hf. induction 1 as [|x y t t' Hxy Ht IH]; [reflexivity|].
  cbn [map]. now rewrite (Hf x y Hxy), IH.
Qed.

(** In sorted order the flags and group numbers do not depend on how the
    points of equal value are arranged. *)
Lemma group_numbers_arrangement (self : t) (ar sw ar' sw' : list Q) :
  Sorted Qle ar -> Sorted Qle ar' ->
  List.length sw = List.length ar -> List.length sw' = List.length ar' ->
  0 <= eps self ->
  Permutation (combine ar sw) (combine ar' sw') ->
  group_numbers self ar sw = group_numbers self ar' sw'.
Proof.
  intros Hs Hs' Hl Hl' He Hp.
  pose proof (value_label_arrangement self ar sw ar' sw' Hs Hs' Hl Hl' He Hp) as Hv.
  assert (HF : Forall2 Qeq ar ar').
  { apply sorted_perm_Qeq; try assumption.
    rewrite <- (map_fst_combine ar sw) by now symmetry.
    rewrite <- (map_fst_combine ar' sw') by now symmetry.
    now apply Permutation_map. }
  rewrite !group_numbers_ok by assumption.
  rewrite !sorted_labels_by_value by assumption. unfold sorted_flags.
  f_equal. f_equal; apply map_Forall2_Qeq; try exact HF; intros x y Hxy.
  - rewrite (core_value_Qeq self ar sw x y Hxy). apply Hv.
  - rewrite (value_label_Qeq self ar sw x y Hxy). apply Hv.
Qed.

Lemma nth_map_in_range {A B : Type} (g : A -> B) (l : list A) (d : B) (d' : A)
  (u : nat) :
  (u < List.length l)%nat -> nth u (map g l) d = g (nth u l d').
Proof.
  intro H. rewrite (nth_indep (map g l) d (g d')) by now rewrite length_map.
  apply map_nth.
Qed.


(** Outside the domain of the specification: with a negative [eps] every
    gap exceeds it, and two equal core values get two ids. *)
Example negative_eps_splits_equal_values :
  fit (flat [0; 0]) None None (mk (-1 # 2) (-5) None None None) =
  (Ok tt, mk (-1 # 2) (-5) (Some [0; 1]%Z) None (Some [0; 1]%Z)).
Proof. reflexivity. Qed.

(** * Further properties of the methods *)

(** ** [_bound_on] *)

Lemma clamp_max_min (n i : Z) :
  (0 < n)%Z -> clamp n i = Z.max 0 (Z.min i (n - 1)).
Proof.
  intro Hn. unfold clamp.
  destruct (Z.ltb_spec i 0).
  - destruct (Z.leb_spec n 0); lia.
  - destruct (Z.leb_spec n i); lia.
Qed.

(** X1. [_bound_on] keeps the length of the array.  For a positive
    [max_len] it brings every index into [[0, max_len - 1]]: an index is
    replaced by the nearest one of that range, so an index of the range is
    left alone.  For [max_len <= 0] there is no such range and every index
    becomes [max_len - 1], a negative number. *)
Theorem bound_on_range (arr : list Z) (max_len : Z) :
  List.length (_bound_on arr max_len) = List.length arr /\
  ((0 < max_len)%Z ->
   Forall (fun i => (0 <= i < max_len)%Z) (_bound_on arr max_len) /\
   _bound_on arr max_len = map (fun i => Z.max 0 (Z.min i (max_len - 1))) arr /\
   (Forall (fun i => (0 <= i < max_len)%Z) arr -> _bound_on arr max_len = arr) /\
   _bound_on (_bound_on arr max_len) max_len = _bound_on arr max_len) /\
  ((max_len <= 0)%Z ->
   _bound_on arr max_len = map (fun _ => (max_len - 1)%Z) arr).
Proof.
  rewrite !_bound_on_map. split; [apply length_map|]. split.
  - intro Hn. split; [|split; [|split]].
    + apply Forall_forall. intros i Hi. apply in_map_iff in Hi.
      destruct Hi as [j [<- _]]. now apply clamp_range.
    + apply map_ext. intro i. now apply clamp_max_min.
    + intro Hall. rewrite <- (map_id arr) at 2. apply map_ext_in.
      intros i Hi. rewrite Forall_forall in Hall. specialize (Hall i Hi).
      rewrite clamp_max_min by exact Hn. lia.
    + rewrite map_map. apply map_ext. intro i.
      rewrite !clamp_max_min by exact Hn. lia.
  - intro Hn. apply map_ext. intro i. unfold clamp.
    destruct (Z.ltb_spec i 0).
    + destruct (Z.leb_spec max_len 0); lia.
    + destruct (Z.leb_spec max_len i); lia.
Qed.

Lemma bound_on_range_witness :
  _bound_on [-1; 0; 2; 5]%Z 3 = [0; 0; 2; 2]%Z /\
  Forall (fun i => (0 <= i < 3)%Z) (_bound_on [-1; 0; 2; 5]%Z 3).
Proof.
  split; [reflexivity|].
  exact (proj1 (proj1 (proj2 (bound_on_range [-1; 0; 2; 5]%Z 3)) eq_refl)).
Defined.

(** ** The stored arrays *)

Lemma scatter_Forall {A : Type} (P : A -> Prop) (mask : list bool) :
  forall l vals : list A,
    Forall P l -> Forall P vals -> Forall P (scatter mask l vals).
Proof.
  induction mask as [|b m IH]; intros l vals Hl Hv; [exact Hl|].
  destruct l as [|x t]; [exact Hl|].
  inversion Hl as [|? ? Hx Ht]; subst. cbn [scatter].
  destruct b.
  - destruct vals as [|v vs].
    + constructor; [exact Hx|]. now apply IH.
    + inversion Hv; subst. constructor; [assumption|]. now apply IH.
  - constructor; [exact Hx|]. now apply IH.
Qed.

Lemma walk_bounds (e : Q) (rest : list Q) :
  forall id prev k,
    In k (walk e id prev rest) ->
    (id <= k <= id + Z.of_nat (List.length rest))%Z.
Proof.
  induction rest as [|c rest IH]; intros id prev k Hin; [destruct Hin|].
  cbn [walk] in Hin. cbn [List.length].
  set (id' := (id + (if gap_exceeds e prev c then 1 else 0))%Z) in *.
  assert (id <= id' <= id + 1)%Z by (unfold id'; destruct (gap_exceeds e prev c); lia).
  destruct Hin as [<-|Hin]; [lia|].
  apply IH in Hin. lia.
Qed.

(** The ids are between 0 and the number of core points. *)
Lemma group_numbers_bounds (self : t) (cores : list Q) (k : Z) :
  In k (_assign_core_group_numbers self cores) ->
  (0 <= k < Z.of_nat (List.length cores))%Z.
Proof.
  destruct cores as [|c0 rest]; [intros []|].
  rewrite _assign_core_group_numbers_cons. intros [<-|Hin].
  - simpl. lia.
  - apply walk_bounds in Hin. cbn [List.length]. lia.
Qed.

Lemma non_core_label_bounds (self : t) (cores : list Q) (x : Q) :
  let l := non_core_label self cores (_assign_core_group_numbers self cores) x in
  (-1 <= l < Z.of_nat (List.length cores))%Z.
Proof.
  unfold non_core_label. destruct cores as [|c0 rest] eqn:E; [simpl; lia|].
  rewrite <- E. assert (Hn : (0 < Z.of_nat (List.length cores))%Z)
    by (rewrite E; simpl; lia).
  destruct (Qle_bool _ _); [|lia].
  destruct (nth_in_or_default (Z.to_nat (nearest_candidate cores x))
              (_assign_core_group_numbers self cores) (-1)%Z) as [Hin|Hd].
  - apply group_numbers_bounds in Hin. lia.
  - rewrite Hd. lia.
Qed.

Lemma sorted_labels_bounds (self : t) (ar sw : list Q) :
  Forall (fun l => (-1 <= l < Z.of_nat (List.length (sorted_cores self ar sw)))%Z)
         (sorted_labels self ar sw).
Proof.
  unfold sorted_labels. apply scatter_Forall; [apply scatter_Forall|].
  - apply Forall_forall. intros l Hl. apply in_map_iff in Hl.
    destruct Hl as [_ [<- _]]. lia.
  - apply Forall_forall. intros l Hl. apply group_numbers_bounds in Hl. lia.
  - apply Forall_forall. intros l Hl. apply in_map_iff in Hl.
    destruct Hl as [x [<- _]]. apply non_core_label_bounds.
Qed.

Lemma where_from_length (mask : list bool) :
  forall s, List.length (where_from s mask) = count_true mask.
Proof.
  unfold count_true. induction mask as [|b m IH]; intro s; [reflexivity|].
  cbn [where_from filter]. destruct b; cbn [List.length]; now rewrite IH.
Qed.

Lemma where_from_ascending (mask : list bool) :
  forall s, StronglySorted Z.lt (where_from s mask) /\
            Forall (fun i => (s <= i < s + Z.of_nat (List.length mask))%Z)
                   (where_from s mask).
Proof.
  induction mask as [|b m IH]; intro s; [split; constructor|].
  destruct (IH (s + 1)%Z) as [H1 H2]. cbn [where_from List.length].
  assert (H3 : Forall (fun i => (s <= i < s + Z.of_nat (S (List.length m)))%Z)
                      (where_from (s + 1) m)).
  { eapply Forall_impl; [|exact H2]. cbv beta. intros i Hi. lia. }
  destruct b; split; try assumption.
  - constructor; [exact H1|].
    eapply Forall_impl; [|exact H2]. cbv beta. intros i Hi. lia.
  - constructor; [lia|exact H3].
Qed.

Lemma core_count (self : t) (ar w : list Q) :
  List.length (where_ (fit_flags self ar w)) =
  List.length (sorted_cores self (sorted_values ar) (sorted_weights ar w)).
Proof.
  unfold where_. rewrite where_from_length, fit_flags_by_value, count_true_map.
  unfold sorted_cores. apply filter_length_perm.
  apply Permutation_sym, sorted_values_perm.
Qed.

(** X2. What [fit] stores for an accepted input with at least as many
    weights as values, whatever [eps] and [min_samples] are: one label for
    each input value, every label being -1 or at least 0 and less than the
    number of core points; and the core indices in strictly ascending order,
    each an index of the input. *)
Theorem fit_stored_arrays (X : ndarray) (w : option (list Q)) (self : t) :
  accepted X ->
  (List.length (data X) <= List.length (weights_of (data X) w))%nat ->
  exists labels core_indices,
    fit X None w self =
    (Ok tt, mk (eps self) (min_samples self) (Some core_indices)
               (components_ self) (Some labels)) /\
    List.length labels = List.length (data X) /\
    Forall (fun l => (-1 <= l < Z.of_nat (List.length core_indices))%Z) labels /\
    StronglySorted Z.lt core_indices /\
    Forall (fun i => (0 <= i < Z.of_nat (List.length (data X)))%Z) core_indices.
Proof.
  intros Hacc Hlen.
  exists (fit_labels self (data X) (weights_of (data X) w)),
         (where_ (fit_flags self (data X) (weights_of (data X) w))).
  split; [now apply fit_ok|].
  split.
  { unfold fit_labels, undo_sorted. now rewrite length_map, !argsort_length. }
  split.
  { rewrite core_count. unfold fit_labels.
    apply Forall_forall. intros l Hl. apply in_map_iff in Hl.
    destruct Hl as [u [<- _]].
    pose proof (sorted_labels_bounds self (sorted_values (data X))
                  (sorted_weights (data X) (weights_of (data X) w))) as Hb.
    rewrite Forall_forall in Hb.
    destruct (nth_in_or_default (Z.to_nat u)
                (sorted_labels self (sorted_values (data X))
                   (sorted_weights (data X) (weights_of (data X) w))) (-1)%Z)
      as [Hin|Hd].
    - now apply Hb.
    - rewrite Hd. lia. }
  destruct (where_from_ascending
              (fit_flags self (data X) (weights_of (data X) w)) 0%Z) as [H1 H2].
  split; [exact H1|].
  eapply Forall_impl; [|exact H2]. cbv beta. intros i Hi.
  unfold fit_flags, undo_sorted in Hi.
  rewrite length_map, !argsort_length in Hi. lia.
Qed.

Lemma fit_stored_arrays_witness :
  exists labels core_indices,
    fit (flat [3; 0; 3; 0; 1; 9]) None None (mk 1 2 None None None) =
    (Ok tt, mk 1 2 (Some core_indices) None (Some labels)) /\
    List.length labels = 6%nat.
Proof.
  destruct (fit_stored_arrays (flat [3; 0; 3; 0; 1; 9]) None
              (mk 1 2 None None None) eq_refl)
    as [labels [ci [H1 [H2 _]]]].
  - simpl. lia.
  - exists labels, ci. split; [exact H1|exact H2].
Defined.

(** ** Core points and their clusters *)

Lemma left_point_of_member (cores : list Q) (v : Q) :
  Sorted Qle cores -> In v cores ->
  (left_point cores v < List.length cores)%nat /\
  nth (left_point cores v) cores 0 == v.
Proof.
  intros Hs Hin. destruct (In_nth cores v 0 Hin) as [k [Hk Hv]].
  destruct (left_point_spec cores v Hs) as [Hlt Hge].
  assert (Hle : (left_point cores v <= k)%nat).
  { destruct (Nat.le_gt_cases (left_point cores v) k) as [H|H]; [exact H|].
    specialize (Hlt k H). rewrite Hv in Hlt. lra. }
  split; [lia|].
  apply Qle_antisym.
  - rewrite <- Hv at 2. apply (Sorted_Qle_nth cores Hs). lia.
  - apply Hge. lia.
Qed.

Lemma left_point_monotone (cores : list Q) (u v : Q) :
  Sorted Qle cores -> In v cores -> u <= v ->
  (left_point cores u <= left_point cores v)%nat.
Proof.
  intros Hs Hin Huv.
  destruct (left_point_of_member cores v Hs Hin) as [Hb Hv].
  destruct (left_point_spec cores u Hs) as [Hlt _].
  destruct (Nat.le_gt_cases (left_point cores u) (left_point cores v)) as [H|H];
    [exact H|].
  specialize (Hlt _ H). lra.
Qed.

Lemma group_numbers_monotone (self : t) (cores : list Q) :
  forall d i, (i + d < List.length cores)%nat ->
    (nth i (_assign_core_group_numbers self cores) (-1) <=
     nth (i + d) (_assign_core_group_numbers self cores) (-1))%Z.
Proof.
  induction d as [|d IH]; intros i Hi.
  - rewrite Nat.add_0_r. lia.
  - replace (i + S d)%nat with (S (i + d)) in * by lia.
    rewrite group_numbers_step by exact Hi.
    specialize (IH i ltac:(lia)).
    destruct (gap_exceeds _ _ _); lia.
Qed.

(** Along sorted core values the id does not change between two values that
    are within [eps] of each other. *)
Lemma group_numbers_constant_within_eps (self : t) (cores : list Q) :
  Sorted Qle cores ->
  forall d i, (i + d < List.length cores)%nat ->
    nth (i + d) cores 0 - nth i cores 0 <= eps self ->
    nth i (_assign_core_group_numbers self cores) (-1)%Z =
    nth (i + d) (_assign_core_group_numbers self cores) (-1)%Z.
Proof.
  intros Hs. pose proof (Sorted_Qle_nth cores Hs) as Hord.
  induction d as [|d IH]; intros i Hi Hd.
  - now rewrite Nat.add_0_r.
  - replace (i + S d)%nat with (S (i + d)) in * by lia.
    assert (H1 : nth i cores 0 <= nth (i + d) cores 0) by (apply Hord; lia).
    assert (H2 : nth (i + d) cores 0 <= nth (S (i + d)) cores 0)
      by (apply Hord; lia).
    rewrite group_numbers_step by exact Hi.
    rewrite <- IH by (try lia; lra).
    replace (gap_exceeds (eps self) (nth (i + d) cores 0) (nth (S (i + d)) cores 0))
      with false; [lia|].
    symmetry. unfold gap_exceeds, Qlt_bool. apply negb_false_iff.
    apply Qle_bool_iff.
    qabs (nth (S (i + d)) cores 0 - nth (i + d) cores 0); lra.
Qed.

(** The id of a core value, for sorted core values. *)
Lemma core_id_properties (self : t) (cores : list Q) (u v : Q) :
  Sorted Qle cores -> In u cores -> In v cores -> u <= v ->
  (0 <= core_id self cores u)%Z /\
  (core_id self cores u <= core_id self cores v)%Z /\
  (v - u <= eps self -> core_id self cores u = core_id self cores v).
Proof.
  intros Hs Hu Hv Huv. unfold core_id.
  destruct (left_point_of_member cores u Hs Hu) as [Hbu Heu].
  destruct (left_point_of_member cores v Hs Hv) as [Hbv Hev].
  pose proof (left_point_monotone cores u v Hs Hv Huv) as Hm.
  set (a := left_point cores u) in *. set (b := left_point cores v) in *.
  split; [|split].
  - assert (Hin : In (nth a (_assign_core_group_numbers self cores) (-1)%Z)
                     (_assign_core_group_numbers self cores)).
    { apply nth_In. now rewrite _assign_core_group_numbers_length. }
    apply group_numbers_bounds in Hin. lia.
  - replace b with (a + (b - a))%nat by lia.
    apply group_numbers_monotone. lia.
  - intro Hd. replace b with (a + (b - a))%nat by lia.
    apply group_numbers_constant_within_eps; [exact Hs|lia|].
    replace (a + (b - a))%nat with b by lia. lra.
Qed.

Lemma In_sorted_cores (self : t) (ar w : list Q) (v : Q) :
  In v ar ->
  core_value self (sorted_values ar) (sorted_weights ar w) v = true ->
  In v (sorted_cores self (sorted_values ar) (sorted_weights ar w)).
Proof.
  intros Hin Hc. unfold sorted_cores. apply filter_In. split; [|exact Hc].
  apply (Permutation_in _ (Permutation_sym (sorted_values_perm ar))). exact Hin.
Qed.

Lemma sorted_cores_In (self : t) (ar w : list Q) (c : Q) :
  In c (sorted_cores self (sorted_values ar) (sorted_weights ar w)) ->
  exists j, nth_error ar j = Some c /\
            core_value self (sorted_values ar) (sorted_weights ar w) c = true.
Proof.
  unfold sorted_cores. intro Hin. apply filter_In in Hin. destruct Hin as [Hin Hc].
  apply (Permutation_in _ (sorted_values_perm ar)) in Hin.
  apply In_nth_error in Hin. destruct Hin as [j Hj]. now exists j.
Qed.

Lemma sorted_cores_sorted (self : t) (ar w : list Q) :
  Sorted Qle (sorted_cores self (sorted_values ar) (sorted_weights ar w)).
Proof. apply Sorted_Qle_filter, sorted_values_sorted. Qed.

(** X3. For [eps >= 0]: a core point is never noise, its label is at least
    0; the labels of the core points go up with their values, so a cluster
    is a run of consecutive core points of the sorted input; and two core
    points within [eps] of each other have the same label. *)
Theorem core_points_clusters (X : ndarray) (w : option (list Q)) (self : t) :
  accepted X ->
  (List.length (data X) <= List.length (weights_of (data X) w))%nat ->
  0 <= eps self ->
  exists labels core_indices,
    fit X None w self =
    (Ok tt, mk (eps self) (min_samples self) (Some core_indices)
               (components_ self) (Some labels)) /\
    forall i j xi xj,
      nth_error (data X) i = Some xi ->
      nth_error (data X) j = Some xj ->
      In (Z.of_nat i) core_indices ->
      In (Z.of_nat j) core_indices ->
      exists li lj,
        nth_error labels i = Some li /\
        nth_error labels j = Some lj /\
        (0 <= li)%Z /\
        (xi <= xj -> (li <= lj)%Z) /\
        (Qabs (xj - xi) <= eps self -> li = lj).
Proof.
  intros Hacc Hlen He.
  set (ar := data X) in *. set (ws := weights_of ar w) in *.
  exists (fit_labels self ar ws), (where_ (fit_flags self ar ws)).
  split; [now apply fit_ok|].
  rewrite fit_labels_by_value by exact He. rewrite fit_flags_by_value.
  intros i j xi xj Hi Hj Hci Hcj.
  rewrite where_In, nth_error_map in Hci, Hcj.
  rewrite Hi in Hci. rewrite Hj in Hcj. cbn [option_map] in Hci, Hcj.
  injection Hci as Hci. injection Hcj as Hcj.
  rewrite !nth_error_map, Hi, Hj. cbn [option_map].
  eexists. eexists. split; [reflexivity|]. split; [reflexivity|].
  unfold value_label. rewrite Hci, Hcj.
  set (cores := sorted_cores self (sorted_values ar) (sorted_weights ar ws)).
  pose proof (sorted_cores_sorted self ar ws) as Hs. fold cores in Hs.
  assert (Hini : In xi cores)
    by (apply In_sorted_cores; [eapply nth_error_In; exact Hi|exact Hci]).
  assert (Hinj : In xj cores)
    by (apply In_sorted_cores; [eapply nth_error_In; exact Hj|exact Hcj]).
  split; [|split].
  - apply (core_id_properties self cores xi xi Hs Hini Hini (Qle_refl xi)).
  - intro Hle. apply (core_id_properties self cores xi xj Hs Hini Hinj Hle).
  - intro Hd. destruct (Qlt_le_dec xj xi) as [Hlt|Hle].
    + symmetry.
      apply (core_id_properties self cores xj xi Hs Hinj Hini); [lra|].
      qabs (xj - xi); lra.
    + apply (core_id_properties self cores xi xj Hs Hini Hinj Hle).
      qabs (xj - xi); lra.
Qed.

Lemma core_points_clusters_witness :
  exists labels core_indices,
    fit (flat [5; 0; 6; 1; 9]) None None (mk 1 2 None None None) =
    (Ok tt, mk 1 2 (Some core_indices) None (Some labels)).
Proof.
  destruct (core_points_clusters (flat [5; 0; 6; 1; 9]) None
              (mk 1 2 None None None) eq_refl)
    as [labels [ci [H1 _]]].
  - simpl. lia.
  - unfold Qle; simpl; lia.
  - exists labels, ci. exact H1.
Defined.

(** ** Points that are not core *)

(** The label of a value [x] that is not core, among sorted core values. *)
Lemma non_core_label_cases (self : t) (cores : list Q) (x : Q) :
  Sorted Qle cores -> 0 <= eps self ->
  let l := non_core_label self cores (_assign_core_group_numbers self cores) x in
  (l = (-1)%Z <-> forall c, In c cores -> eps self < Qabs (c - x)) /\
  (l <> (-1)%Z ->
   exists c, In c cores /\ Qabs (c - x) <= eps self /\
             l = core_id self cores c /\
             forall c', In c' cores -> Qabs (c - x) <= Qabs (c' - x)).
Proof.
  intros Hs He. cbv zeta.
  destruct cores as [|c0 rest] eqn:E.
  - simpl. split; [split; [intros _ c []|reflexivity]|congruence].
  - rewrite <- E in *. assert (Hne : cores <> []) by (rewrite E; discriminate).
    unfold non_core_label. rewrite E. rewrite <- E.
    pose proof (nearest_candidate_range cores x Hne) as Hr.
    set (j := Z.to_nat (nearest_candidate cores x)).
    assert (Hj : (j < List.length cores)%nat) by (unfold j; lia).
    set (c := nth j cores 0).
    assert (Hc : In c cores) by (apply nth_In; exact Hj).
    assert (Hd : dist_to cores x (nearest_candidate cores x) = Qabs (c - x))
      by reflexivity.
    assert (Hmin : forall c', In c' cores -> Qabs (c - x) <= Qabs (c' - x)).
    { intros c' Hc'. rewrite <- Hd. now apply nearest_candidate_min. }
    assert (Hid : nth j (_assign_core_group_numbers self cores) (-1)%Z =
                  core_id self cores c).
    { rewrite (group_numbers_by_value self cores Hs He) at 1.
      now apply nth_map_in_range. }
    rewrite Hd, Hid.
    destruct (Qle_bool (Qabs (c - x)) (eps self)) eqn:Eb.
    + apply Qle_bool_iff in Eb.
      assert (Hpos : (0 <= core_id self cores c)%Z)
        by apply (core_id_properties self cores c c Hs Hc Hc (Qle_refl c)).
      split.
      * split; [lia|]. intro H. specialize (H c Hc). lra.
      * intros _. exists c. repeat split; assumption.
    + apply Qle_bool_false_iff in Eb. split; [|congruence].
      split; [|reflexivity]. intros _ c' Hc'. specialize (Hmin c' Hc'). lra.
Qed.

(** ** What [fit] reads of the estimator *)

Lemma group_numbers_params (s1 s2 : t) (ar sw : list Q) :
  eps s1 = eps s2 -> min_samples s1 = min_samples s2 ->
  group_numbers s1 ar sw = group_numbers s2 ar sw.
Proof.
  destruct s1, s2. cbn [eps min_samples]. intros -> ->. reflexivity.
Qed.

(** The two ways a call of [fit] ends. *)
Lemma fit_outcome (X : ndarray) (y w : option (list Q)) (self : t) :
  (exists e, fit X y w self = (Raise e, self)) \/
  (exists core_indices labels,
     fit X y w self =
     (Ok tt, mk (eps self) (min_samples self) (Some core_indices)
                (components_ self) (Some labels))).
Proof.
  unfold fit, mbind, assert_, lift, get_self, set_core_sample_indices_,
    set_labels_, ret.
  destruct (shape_is_1d X) as [[|]|e]; cbv beta iota zeta;
    try (left; eexists; reflexivity).
  destruct y; cbv beta iota zeta; try (left; eexists; reflexivity).
  destruct (take (flatten X) _); cbv beta iota zeta;
    try (left; eexists; reflexivity).
  destruct (take _ _); cbv beta iota zeta; try (left; eexists; reflexivity).
  destruct (group_numbers _ _ _); cbv beta iota zeta;
    try (left; eexists; reflexivity).
  destruct (take _ _); cbv beta iota zeta; try (left; eexists; reflexivity).
  destruct (take _ _); cbv beta iota zeta; try (left; eexists; reflexivity).
  right. eexists. eexists. reflexivity.
Qed.

Lemma fit_params (X : ndarray) (y w : option (list Q)) (s1 s2 : t) :
  eps s1 = eps s2 -> min_samples s1 = min_samples s2 ->
  components_ s1 = components_ s2 ->
  fst (fit X y w s1) = fst (fit X y w s2) /\
  (forall r, fst (fit X y w s1) = Ok r ->
             snd (fit X y w s1) = snd (fit X y w s2)).
Proof.
  intros He Hm Hc.
  unfold fit, mbind, assert_, lift, get_self, set_core_sample_indices_,
    set_labels_, ret.
  destruct (shape_is_1d X) as [[|]|e]; cbv beta iota zeta;
    try (split; [reflexivity|discriminate]).
  destruct y; cbv beta iota zeta; try (split; [reflexivity|discriminate]).
  destruct (take (flatten X) _); cbv beta iota zeta;
    try (split; [reflexivity|discriminate]).
  destruct (take _ _); cbv beta iota zeta;
    try (split; [reflexivity|discriminate]).
  rewrite (group_numbers_params s1 s2 _ _ He Hm).
  destruct (group_numbers _ _ _); cbv beta iota zeta;
    try (split; [reflexivity|discriminate]).
  destruct (take _ _); cbv beta iota zeta;
    try (split; [reflexivity|discriminate]).
  destruct (take _ _); cbv beta iota zeta;
    try (split; [reflexivity|discriminate]).
  cbn. split; [reflexivity|]. intros _ _. now rewrite He, Hm, Hc.
Qed.

(** X5. [fit] reads [eps] and [min_samples] of the estimator and nothing of
    what an earlier call stored: two estimators with the same parameters end
    the same call in the same way and, when it returns, in the same state.
    So a second call with the same arguments changes nothing. *)
Theorem fit_ignores_stored_results (X : ndarray) (y w : option (list Q))
  (self : t) :
  (forall ci l,
     let other := mk (eps self) (min_samples self) ci (components_ self) l in
     fst (fit X y w other) = fst (fit X y w self) /\
     (forall r, fst (fit X y w self) = Ok r ->
                snd (fit X y w other) = snd (fit X y w self))) /\
  fit X y w (snd (fit X y w self)) = fit X y w self.
Proof.
  split.
  - intros ci l other.
    destruct (fit_params X y w other self eq_refl eq_refl eq_refl) as [H1 H2].
    split; [exact H1|]. intros r Hr. apply (H2 r). now rewrite H1.
  - destruct (fit_outcome X y w self) as [[e H]|[ci [l H]]].
    + now rewrite H.
    + rewrite H. cbn [snd].
      destruct (fit_params X y w
                  (mk (eps self) (min_samples self) (Some ci)
                      (components_ self) (Some l))
                  self eq_refl eq_refl eq_refl) as [H1 H2].
      rewrite H in H1, H2. cbn [fst snd] in H1, H2.
      specialize (H2 tt H1).
      destruct (fit X y w (mk (eps self) (min_samples self) (Some ci)
                              (components_ self) (Some l))) as [r s'].
      cbn [fst snd] in H1, H2. now subst.
Qed.

Lemma fit_ignores_stored_results_witness :
  fit (flat [0; 1; 5]) None None
      (snd (fit (flat [0; 1; 5]) None None (mk 1 2 (Some [7%Z]) None None))) =
  fit (flat [0; 1; 5]) None None (mk 1 2 (Some [7%Z]) None None).
Proof.
  exact (proj2 (fit_ignores_stored_results (flat [0; 1; 5]) None None
                  (mk 1 2 (Some [7%Z]) None None))).
Defined.

(** ** [fit_predict] *)

(** X6. [fit_predict] ends as [fit] does: when [fit] raises, it raises the
    same exception and the estimator is unchanged; when [fit] returns, it
    returns the labels that [fit] has just stored, never the [None] of an
    estimator that was not fitted, and leaves the estimator as [fit] does. *)
Theorem fit_predict_returns_stored_labels (X : ndarray)
  (y w : option (list Q)) (self : t) :
  (forall e s, fit X y w self = (Raise e, s) ->
               fit_predict X y w self = (Raise e, self)) /\
  (forall s, fit X y w self = (Ok tt, s) ->
             exists labels,
               labels_ s = Some labels /\
               fit_predict X y w self = (Ok (Some labels), s)) /\
  (accepted X ->
   (List.length (data X) <= List.length (weights_of (data X) w))%nat ->
   exists labels,
     fit_predict X None w self =
     (Ok (Some labels), snd (fit X None w self)) /\
     List.length labels = List.length (data X)).
Proof.
  split; [|split].
  - intros e s H. unfold fit_predict, mbind. rewrite H.
    destruct (fit_outcome X y w self) as [[e' H']|[ci [l H']]];
      rewrite H in H'; congruence.
  - intros s H. unfold fit_predict, mbind, get_self, ret. rewrite H.
    destruct (fit_outcome X y w self) as [[e' H']|[ci [l H']]];
      rewrite H in H'; [discriminate|].
    injection H' as ->. exists l. split; reflexivity.
  - intros Hacc Hlen. unfold fit_predict, mbind, get_self, ret.
    rewrite (fit_ok X w self Hacc Hlen). cbn [snd fitted labels_].
    eexists. split; [reflexivity|].
    unfold fit_labels, undo_sorted. now rewrite length_map, !argsort_length.
Qed.

Lemma fit_predict_returns_stored_labels_witness :
  fit_predict (flat [0; 1; 5]) None None (mk 1 2 None None None) =
  (Ok (Some [0; 0; -1]%Z), mk 1 2 (Some [0; 1]%Z) None (Some [0; 0; -1]%Z)) /\
  fit_predict (flat [0; 1]) None (Some [1]) (mk 1 2 None None None) =
  (Raise IndexError, mk 1 2 None None None).
Proof.
  split; [reflexivity|].
  exact (proj1 (fit_predict_returns_stored_labels (flat [0; 1]) None (Some [1])
                  (mk 1 2 None None None))
           IndexError (mk 1 2 None None None) eq_refl).
Defined.

(** ** Inputs at the edge *)

(** X7. An input without values: [fit] returns and stores no label and no
    core index, for every estimator and whatever weights are given. *)
Theorem fit_empty_input (X : ndarray) (w : option (list Q)) (self : t) :
  accepted X -> data X = [] ->
  fit X None w self =
  (Ok tt, mk (eps self) (min_samples self) (Some []) (components_ self) (Some [])).
Proof.
  intros Hacc Hd. rewrite (fit_ok X w self Hacc) by (rewrite Hd; simpl; lia).
  rewrite Hd. reflexivity.
Qed.

Lemma fit_empty_input_witness :
  fit (mk_ndarray [0; 1]%Z []) None (Some [3; 4]) (mk (1 # 2) 5 None None None) =
  (Ok tt, mk (1 # 2) 5 (Some []) None (Some [])).
Proof.
  exact (fit_empty_input (mk_ndarray [0; 1]%Z []) (Some [3; 4])
           (mk (1 # 2) 5 None None None) eq_refl eq_refl).
Defined.

(** ** Weights that are not negative *)



(** ** The parameter [y] *)

(** X11. The message of the second assertion calls [y] ignored, but [fit]
    rejects it: with any [y] other than [None], [fit] and [fit_predict]
    raise, whatever the weights are, and leave the estimator as it was; the
    exception is the one of the assertions unless the shape has no axis,
    where the subscript of the first assertion raises before. *)
Theorem fit_rejects_y (X : ndarray) (y0 : list Q) (w : option (list Q))
  (self : t) :
  fit X (Some y0) w self =
  (Raise (match shape X with [] => IndexError | _ => AssertionError end), self) /\
  fit_predict X (Some y0) w self =
  (Raise (match shape X with [] => IndexError | _ => AssertionError end), self).
Proof.
  assert (H : fit X (Some y0) w self =
              (Raise (match shape X with [] => IndexError | _ => AssertionError end),
               self)).
  { unfold fit, mbind, assert_, lift. rewrite shape_is_1d_cases.
    destruct (shape X) as [|d0 [|d1 rest]]; try reflexivity.
    destruct (last (d0 :: d1 :: rest) 0 =? 1)%Z; reflexivity. }
  split; [exact H|].
  unfold fit_predict, mbind. now rewrite H.
Qed.

(** ** The ids in use *)

(** Every label other than -1 is the id of a core value. *)
Lemma value_label_is_core_id (self : t) (ar w : list Q) (v : Q) :
  0 <= eps self -> In v ar ->
  let sv := sorted_values ar in
  let sw := sorted_weights ar w in
  value_label self sv sw v <> (-1)%Z ->
  exists c, In c (sorted_cores self sv sw) /\
            value_label self sv sw v = core_id self (sorted_cores self sv sw) c.
Proof.
  intros He Hin sv sw Hl. unfold value_label in *.
  destruct (core_value self sv sw v) eqn:Ec.
  - exists v. split; [now apply In_sorted_cores|reflexivity].
  - destruct (non_core_label_cases self (sorted_cores self sv sw) v
                (sorted_cores_sorted self ar w) He) as [_ Hb].
    destruct (Hb Hl) as [c [Hc [_ [Hid _]]]]. now exists c.
Qed.

(** X12. For [eps >= 0] the labels in use have no holes: below every label
    that some point has, every id down to 0 is the label of some core
    point. *)
Theorem labels_without_holes (X : ndarray) (w : option (list Q)) (self : t) :
  accepted X ->
  (List.length (data X) <= List.length (weights_of (data X) w))%nat ->
  0 <= eps self ->
  exists labels core_indices,
    fit X None w self =
    (Ok tt, mk (eps self) (min_samples self) (Some core_indices)
               (components_ self) (Some labels)) /\
    forall l k,
      In l labels -> (0 <= k <= l)%Z ->
      exists j, In (Z.of_nat j) core_indices /\ nth_error labels j = Some k.
Proof.
  intros Hacc Hlen He.
  set (ar := data X) in *. set (ws := weights_of ar w) in *.
  exists (fit_labels self ar ws), (where_ (fit_flags self ar ws)).
  split; [now apply fit_ok|].
  rewrite fit_labels_by_value by exact He. rewrite fit_flags_by_value.
  set (sv := sorted_values ar). set (sw := sorted_weights ar ws).
  set (cores := sorted_cores self sv sw).
  pose proof (sorted_cores_sorted self ar ws) as Hs. fold sv sw cores in Hs.
  intros l k Hl Hk. apply in_map_iff in Hl. destruct Hl as [v [Hv Hin]].
  destruct (value_label_is_core_id self ar ws v He Hin) as [c [Hc Hid]].
  { fold sv sw. lia. }
  fold sv sw cores in Hc, Hid.
  assert (Hlin : In l (_assign_core_group_numbers self cores)).
  { rewrite (group_numbers_by_value self cores Hs He).
    rewrite <- Hv, Hid. now apply in_map. }
  assert (Hkin : In k (_assign_core_group_numbers self cores)).
  { destruct cores as [|c0 rest] eqn:E; [destruct Hc|].
    rewrite _assign_core_group_numbers_cons in *.
    apply walk_contiguous. apply walk_contiguous in Hlin. lia. }
  rewrite (group_numbers_by_value self cores Hs He) in Hkin.
  apply in_map_iff in Hkin. destruct Hkin as [c' [Hk' Hc']].
  pose proof Hc' as Hc''. apply sorted_cores_In in Hc''.
  destruct Hc'' as [j [Hj Hcj]]. fold sv sw in Hcj.
  exists j. split.
  - rewrite where_In, nth_error_map, Hj. cbn [option_map]. now rewrite Hcj.
  - rewrite nth_error_map, Hj. cbn [option_map]. f_equal.
    unfold value_label. rewrite Hcj. exact Hk'.
Qed.

Lemma labels_without_holes_witness :
  exists labels core_indices,
    fit (flat [9; 0; 5; 1; 6; 10]) None None (mk 1 2 None None None) =
    (Ok tt, mk 1 2 (Some core_indices) None (Some labels)).
Proof.
  destruct (labels_without_holes (flat [9; 0; 5; 1; 6; 10]) None
              (mk 1 2 None None None) eq_refl)
    as [labels [ci [H1 _]]].
  - simpl. lia.
  - unfold Qle; simpl; lia.
  - exists labels, ci. exact H1.
Defined.

(** ** The parameters and the core points *)



(** * Properties of the methods in binary64 *)

(** ** The order of the floats *)

Lemma sf_rank_class (f : spec_float) :
  (-2 <= fst (sf_rank f) <= 3)%Z /\
  (fst (sf_rank f) = 3%Z <-> f = S754_nan) /\
  (fst (sf_rank f) = 3%Z -> snd (sf_rank f) = (0, 0)%Z).
Proof.
  destruct f as [s|s| |s m e]; try destruct s; cbn;
    repeat split; try lia; try congruence; try discriminate.
Qed.

Lemma SFltb_rank (f1 f2 : spec_float) :
  SFltb f1 f2 = true <->
  lex_lt (sf_rank f1) (sf_rank f2) /\ f2 <> S754_nan.
Proof.
  unfold SFltb, SFcompare, lex_lt.
  destruct f1 as [s1|s1| |s1 m1 e1], f2 as [s2|s2| |s2 m2 e2];
    try destruct s1; try destruct s2; cbn;
    try (split; [discriminate|intros [Hl _]; lia]);
    try (split; [intros _; split; [lia|discriminate]|reflexivity]);
    try (split; [discriminate|intros [_ Hl]; congruence]).
  all: change (PosDef.Pos.compare_cont Eq m1 m2) with (Pos.compare m1 m2).
  all: destruct (Z.compare_spec e1 e2); destruct (Pos.compare_spec m1 m2); cbn.
  all: try (split; [discriminate|intros [Hl _]; lia]).
  all: split; [intros _; split; [lia|discriminate]|reflexivity].
Qed.

Lemma is_nan_rank (x : float) :
  PrimFloat.is_nan x = true <-> fst (rank x) = 3%Z.
Proof.
  unfold PrimFloat.is_nan, rank. rewrite FloatAxioms.eqb_spec.
  unfold SFeqb, SFcompare.
  destruct (Prim2SF x) as [s|s| |s m e]; try destruct s; cbn;
    try (split; [discriminate|lia]); try (split; reflexivity).
  - rewrite Z.compare_refl. rewrite Pos.compare_cont_refl. cbn.
    split; [discriminate|lia].
  - rewrite Z.compare_refl. rewrite Pos.compare_cont_refl. cbn.
    split; [discriminate|lia].
Qed.

(** numpy's order is the order of the ranks. *)
Lemma np_lt_rank (x y : float) :
  Binary64.np_lt x y = true <-> lex_lt (rank x) (rank y).
Proof.
  unfold Binary64.np_lt. rewrite orb_true_iff, andb_true_iff, negb_true_iff.
  rewrite ltb_spec, SFltb_rank. fold (rank x) (rank y).
  rewrite (is_nan_rank y).
  pose proof (sf_rank_class (Prim2SF x)) as [Hx1 [Hx2 Hx3]].
  pose proof (sf_rank_class (Prim2SF y)) as [Hy1 [Hy2 Hy3]].
  fold (rank x) in Hx1, Hx2, Hx3. fold (rank y) in Hy1, Hy2, Hy3.
  destruct (PrimFloat.is_nan x) eqn:Ex.
  - apply is_nan_rank in Ex. specialize (Hx3 Ex). unfold lex_lt.
    split.
    + intros [[H _]|[_ H]]; [exact H|discriminate].
    + intro H. exfalso. rewrite Hx3 in H. cbn in H.
      destruct H as [H|[H1 H2]]; [lia|].
      assert (Hy : fst (rank y) = 3%Z) by congruence.
      specialize (Hy3 Hy). rewrite Hy3 in H2. cbn in H2. lia.
  - assert (Hn : fst (rank x) <> 3%Z).
    { intro H. apply is_nan_rank in H. congruence. }
    split.
    + intros [[H _]|[H _]]; [exact H|]. unfold lex_lt. left. lia.
    + intro H.
      destruct (Z.eq_dec (fst (rank y)) 3) as [Hy|Hy].
      * right. split; [exact Hy|reflexivity].
      * left. split; [exact H|]. intro E. apply Hy. now apply Hy2.
Qed.

Lemma np_le_rank (x y : float) :
  Binary64.np_le x y = true <-> ~ lex_lt (rank y) (rank x).
Proof.
  unfold Binary64.np_le. rewrite negb_true_iff, <- np_lt_rank.
  destruct (Binary64.np_lt y x); split; congruence.
Qed.

Lemma lex_lt_trans (a b c : Z * (Z * Z)) :
  lex_lt a b -> lex_lt b c -> lex_lt a c.
Proof. unfold lex_lt. destruct a as [? [? ?]], b as [? [? ?]], c as [? [? ?]]. cbn. lia. Qed.

Lemma lex_le_lt_trans (a b c : Z * (Z * Z)) :
  ~ lex_lt b a -> lex_lt b c -> lex_lt a c.
Proof. unfold lex_lt. destruct a as [? [? ?]], b as [? [? ?]], c as [? [? ?]]. cbn. lia. Qed.

Lemma lex_lt_le_trans (a b c : Z * (Z * Z)) :
  lex_lt a b -> ~ lex_lt c b -> lex_lt a c.
Proof. unfold lex_lt. destruct a as [? [? ?]], b as [? [? ?]], c as [? [? ?]]. cbn. lia. Qed.

Lemma lex_le_trans (a b c : Z * (Z * Z)) :
  ~ lex_lt b a -> ~ lex_lt c b -> ~ lex_lt c a.
Proof. unfold lex_lt. destruct a as [? [? ?]], b as [? [? ?]], c as [? [? ?]]. cbn. lia. Qed.

Lemma lex_lt_total (a b : Z * (Z * Z)) : ~ lex_lt b a \/ ~ lex_lt a b.
Proof. unfold lex_lt. destruct a as [? [? ?]], b as [? [? ?]]. cbn. lia. Qed.

Lemma lex_lt_irrefl (a : Z * (Z * Z)) : ~ lex_lt a a.
Proof. unfold lex_lt. destruct a as [? [? ?]]. cbn. lia. Qed.

Lemma np_le_refl (x : float) : Binary64.np_le x x = true.
Proof. apply np_le_rank, lex_lt_irrefl. Qed.

Lemma np_le_trans (x y z : float) :
  Binary64.np_le x y = true -> Binary64.np_le y z = true ->
  Binary64.np_le x z = true.
Proof. rewrite !np_le_rank. apply lex_le_trans. Qed.

Lemma np_le_total (x y : float) :
  Binary64.np_le x y = true \/ Binary64.np_le y x = true.
Proof. rewrite !np_le_rank. apply lex_lt_total. Qed.

Lemma np_le_lt_trans (x y z : float) :
  Binary64.np_le x y = true -> Binary64.np_lt y z = true ->
  Binary64.np_lt x z = true.
Proof. rewrite np_le_rank, !np_lt_rank. apply lex_le_lt_trans. Qed.

Lemma np_lt_le_trans (x y z : float) :
  Binary64.np_lt x y = true -> Binary64.np_le y z = true ->
  Binary64.np_lt x z = true.
Proof. rewrite np_le_rank, !np_lt_rank. apply lex_lt_le_trans. Qed.

Lemma np_lt_false_le (x y : float) :
  Binary64.np_lt x y = false <-> Binary64.np_le y x = true.
Proof. unfold Binary64.np_le. now rewrite negb_true_iff. Qed.

Lemma np_le_false_lt (x y : float) :
  Binary64.np_le x y = false <-> Binary64.np_lt y x = true.
Proof. unfold Binary64.np_le. now rewrite negb_false_iff. Qed.

(** ** [_assign_core_group_numbers] in binary64 (C2) *)

Lemma cumsum_gaps_walk64 (e : float) (rest : list float) :
  forall (id : Z) (prev : float),
    cumsumZ_from id
      (map (fun b : bool => if b then 1%Z else 0%Z)
         (map (fun cr => PrimFloat.ltb e
                           (PrimFloat.abs (PrimFloat.sub (fst cr) (snd cr))))
            (combine rest (removelast (prev :: rest))))) =
    walk64 e id prev rest.
Proof.
  induction rest as [|c rest IH]; intros id prev.
  - reflexivity.
  - change (removelast (prev :: c :: rest)) with (prev :: removelast (c :: rest)).
    cbn [combine map cumsumZ_from walk64 fst snd].
    unfold gap_exceeds64. f_equal. apply IH.
Qed.

Lemma b64_assign_cons (self : Binary64.t) (c0 : float) (rest : list float) :
  Binary64._assign_core_group_numbers self (c0 :: rest) =
  0%Z :: walk64 (Binary64.eps self) 0 c0 rest.
Proof.
  unfold Binary64._assign_core_group_numbers, Binary64.roll1, cumsumZ.
  cbn [combine map cumsumZ_from]. f_equal.
  apply cumsum_gaps_walk64.
Qed.

Lemma walk64_length (e : float) (rest : list float) :
  forall id prev, List.length (walk64 e id prev rest) = List.length rest.
Proof.
  induction rest as [|c rest IH]; intros id prev; simpl; [reflexivity|].
  now rewrite IH.
Qed.

Lemma walk64_step (e : float) (rest : list float) :
  forall (id : Z) (prev : float) (i : nat) (c c' : float),
    nth_error (prev :: rest) i = Some c ->
    nth_error (prev :: rest) (S i) = Some c' ->
    exists k,
      nth_error (id :: walk64 e id prev rest) i = Some k /\
      nth_error (id :: walk64 e id prev rest) (S i) =
      Some (k + (if gap_exceeds64 e c c' then 1 else 0))%Z.
Proof.
  induction rest as [|r rest IH]; intros id prev i c c' Hc Hc'.
  - destruct i; discriminate.
  - destruct i as [|i].
    + simpl in Hc, Hc'. injection Hc as <-. injection Hc' as <-.
      exists id. split; reflexivity.
    + cbn [walk64]. apply (IH _ r i c c'); assumption.
Qed.

Lemma walk64_contiguous (e : float) (rest : list float) :
  forall (id : Z) (prev : float) (k : Z),
    In k (id :: walk64 e id prev rest) <->
    (id <= k <= last (id :: walk64 e id prev rest) 0)%Z.
Proof.
  induction rest as [|c rest IH]; intros id prev k.
  - simpl. lia.
  - cbn [walk64].
    set (id' := (id + (if gap_exceeds64 e prev c then 1 else 0))%Z).
    assert (Hid : (id <= id' <= id + 1)%Z).
    { unfold id'. destruct (gap_exceeds64 e prev c); lia. }
    change (last (id :: id' :: walk64 e id' c rest) 0%Z)
      with (last (id' :: walk64 e id' c rest) 0%Z).
    pose proof (IH id' c k) as Hk.
    pose proof (proj1 (IH id' c id') (or_introl eq_refl)) as Hl.
    split.
    + intros [<-|Hin]; [lia|]. apply Hk in Hin. lia.
    + intro Hr. destruct (Z.eq_dec k id) as [->|Hne]; [now left|].
      right. apply Hk. lia.
Qed.

#[local] Set Warnings "-inexact-float".

(** Exact and rounded gaps differ.  The gap of the doubles -0.1 and 0.4
    exceeds [eps = 0.5], by 2^-55, but the subtraction rounds it to 0.5 and
    the id does not go up. *)
Lemma gap_above_eps_rounded_down :
  Binary64._assign_core_group_numbers (Binary64.mk 0.5 1) [-0.1; 0.4]%float
  = [0; 0]%Z /\
  Q_of_float 0.5 < Qabs (Q_of_float 0.4 - Q_of_float (-0.1)).
Proof. split; vm_compute; reflexivity. Qed.

(** C2, amended. The ids of the core points, in ascending order of value,
    start at 0, go up by exactly one where the difference to the preceding
    core point, as the binary64 subtraction rounds it, exceeds [eps] in
    absolute value, and stay the same elsewhere, so they take every value
    from 0 to the last id; no core points give no ids. *)
Theorem b64_core_group_numbers_contiguous (self : Binary64.t)
  (cores : list float) :
  let ids := Binary64._assign_core_group_numbers self cores in
  List.length ids = List.length cores /\
  Binary64._assign_core_group_numbers self [] = [] /\
  hd_error ids = option_map (fun _ => 0%Z) (hd_error cores) /\
  (forall i c c',
      nth_error cores i = Some c ->
      nth_error cores (S i) = Some c' ->
      exists k,
        nth_error ids i = Some k /\
        nth_error ids (S i) =
        Some (if PrimFloat.ltb (Binary64.eps self)
                   (PrimFloat.abs (PrimFloat.sub c' c))
              then (k + 1)%Z else k)) /\
  (forall k, In k ids <-> (0 <= k <= last ids 0)%Z /\ cores <> []).
Proof.
  destruct cores as [|c0 rest].
  - cbn. split; [reflexivity|]. split; [reflexivity|]. split; [reflexivity|].
    split.
    + intros i c c' H. destruct i; discriminate.
    + intro k. split; [intros []|intros [_ H]; now apply H].
  - cbv zeta. rewrite b64_assign_cons.
    split; [simpl; now rewrite walk64_length|].
    split; [reflexivity|].
    split; [reflexivity|].
    split.
    + intros i c c' Hc Hc'.
      destruct (walk64_step (Binary64.eps self) rest 0%Z c0 i c c' Hc Hc')
        as [k [H1 H2]].
      exists k. split; [exact H1|]. rewrite H2. unfold gap_exceeds64.
      destruct (PrimFloat.ltb _ _); f_equal; lia.
    + intro k. rewrite walk64_contiguous. split.
      * intro H. split; [exact H|discriminate].
      * intros [H _]. exact H.
Qed.

Lemma b64_core_group_numbers_contiguous_witness :
  Binary64._assign_core_group_numbers (Binary64.mk 1 2) [0; 1; 5; 6; 9]%float =
  [0; 0; 1; 1; 2]%Z /\
  exists k,
    nth_error (Binary64._assign_core_group_numbers (Binary64.mk 1 2)
                 [0; 1; 5; 6; 9]%float) 1 = Some k /\
    nth_error (Binary64._assign_core_group_numbers (Binary64.mk 1 2)
                 [0; 1; 5; 6; 9]%float) 2 =
    Some (if PrimFloat.ltb 1 (PrimFloat.abs (PrimFloat.sub 5 1))
          then (k + 1)%Z else k).
Proof.
  split; [reflexivity|].
  exact (proj1 (proj2 (proj2 (proj2
           (b64_core_group_numbers_contiguous (Binary64.mk 1 2)
              [0; 1; 5; 6; 9]%float))))
         1%nat 1%float 5%float eq_refl eq_refl).
Defined.

(** ** The bisection on floats *)

Lemma b64_bisect_bounds (goes_right : float -> float -> bool) (a : list float)
  (v : float) (fuel : nat) :
  forall lo hi, (lo <= hi)%nat ->
    (lo <= Binary64.bisect goes_right a v fuel lo hi <= hi)%nat.
Proof.
  induction fuel as [|fuel IH]; intros lo hi Hle; cbn [Binary64.bisect].
  - lia.
  - destruct (Nat.ltb_spec lo hi) as [Hlt|Hge]; [|lia].
    pose proof (half_lt lo hi Hlt) as Hm.
    set (mid := (lo + (hi - lo) / 2)%nat) in *.
    destruct (goes_right _ v).
    + specialize (IH (S mid) hi). lia.
    + specialize (IH lo mid). lia.
Qed.

Lemma b64_bisect_partition (goes_right : float -> float -> bool)
  (a : list float) (v : float) :
  (forall i j, (i <= j < List.length a)%nat ->
     goes_right (nth j a PrimFloat.zero) v = true ->
     goes_right (nth i a PrimFloat.zero) v = true) ->
  forall fuel lo hi,
    (lo <= hi <= List.length a)%nat ->
    (hi - lo <= fuel)%nat ->
    (forall j, (j < lo)%nat -> goes_right (nth j a PrimFloat.zero) v = true) ->
    (forall j, (hi <= j < List.length a)%nat ->
               goes_right (nth j a PrimFloat.zero) v = false) ->
    let r := Binary64.bisect goes_right a v fuel lo hi in
    (forall j, (j < r)%nat -> goes_right (nth j a PrimFloat.zero) v = true) /\
    (forall j, (r <= j < List.length a)%nat ->
               goes_right (nth j a PrimFloat.zero) v = false).
Proof.
  intros Hprefix.
  induction fuel as [|fuel IH]; intros lo hi Hb Hf Hlo Hhi;
    cbn [Binary64.bisect].
  - split; [exact Hlo|]. intros j Hj. apply Hhi. lia.
  - destruct (Nat.ltb_spec lo hi) as [Hlt|Hge].
    + pose proof (half_lt lo hi Hlt) as Hm.
      set (mid := (lo + (hi - lo) / 2)%nat) in *.
      destruct (goes_right (nth mid a PrimFloat.zero) v) eqn:E.
      * apply IH; try lia; [|exact Hhi].
        intros j Hj. apply (Hprefix j mid); [lia|exact E].
      * apply IH; try lia; [exact Hlo|].
        intros j Hj.
        destruct (goes_right (nth j a PrimFloat.zero) v) eqn:Ej; [|reflexivity].
        rewrite <- E. symmetry. apply (Hprefix mid j); [lia|exact Ej].
    + split; [exact Hlo|]. intros j Hj. apply Hhi. lia.
Qed.

Lemma sorted64_nth (a : list float) :
  sorted64 a ->
  forall i j, (i <= j < List.length a)%nat ->
    Binary64.np_le (nth i a PrimFloat.zero) (nth j a PrimFloat.zero) = true.
Proof.
  intro Hs.
  assert (Hss : StronglySorted (fun x y => Binary64.np_le x y = true) a).
  { apply Sorted_StronglySorted; [|exact Hs].
    intros x y z. apply np_le_trans. }
  clear Hs. induction Hss as [|x t Hss IH Hall]; intros i j Hij.
  - simpl in Hij. lia.
  - destruct i as [|i], j as [|j]; simpl in *.
    + apply np_le_refl.
    + rewrite Forall_forall in Hall. apply Hall. apply nth_In. lia.
    + lia.
    + apply IH. lia.
Qed.

Lemma left_point64_le (a : list float) (v : float) :
  (left_point64 a v <= List.length a)%nat.
Proof. unfold left_point64. apply b64_bisect_bounds. lia. Qed.

Lemma right_point64_le (a : list float) (v : float) :
  (right_point64 a v <= List.length a)%nat.
Proof. unfold right_point64. apply b64_bisect_bounds. lia. Qed.

Lemma left_point64_spec (a : list float) (v : float) :
  sorted64 a ->
  (forall j, (j < left_point64 a v)%nat ->
             Binary64.np_lt (nth j a PrimFloat.zero) v = true) /\
  (forall j, (left_point64 a v <= j < List.length a)%nat ->
             Binary64.np_lt (nth j a PrimFloat.zero) v = false).
Proof.
  intro Hs. unfold left_point64.
  apply b64_bisect_partition; try lia.
  intros i j Hij Hj.
  apply np_le_lt_trans with (nth j a PrimFloat.zero); [|exact Hj].
  now apply sorted64_nth.
Qed.





(** ** The rounded prefix sums *)

Lemma b64_cumsum_from_length (l : list float) :
  forall acc, List.length (Binary64.cumsum_from acc l) = List.length l.
Proof. induction l as [|x t IH]; intro acc; simpl; [reflexivity|now rewrite IH]. Qed.

Lemma b64_cumsum_length (l : list float) :
  List.length (Binary64.cumsum l) = List.length l.
Proof. destruct l; simpl; [reflexivity|now rewrite b64_cumsum_from_length]. Qed.



(** ** [_get_is_core] in binary64 (C1) *)

Lemma b64_neighbor_weight_eq (self : Binary64.t) (ar sw : list float) :
  List.length sw = List.length ar ->
  Binary64._neighbor_weight self ar sw = Ok (map (window_weight64 self ar sw) ar).
Proof.
  intro Hlen. unfold Binary64._neighbor_weight.
  assert (Hcl : List.length (PrimFloat.zero :: Binary64.cumsum sw) =
                S (List.length ar)).
  { simpl. now rewrite b64_cumsum_length, Hlen. }
  rewrite (@take_in_range _ (PrimFloat.zero :: Binary64.cumsum sw) _ PrimFloat.zero).
  2:{ apply Forall_forall. intros i Hi. apply in_map_iff in Hi.
      destruct Hi as [v [<- _]]. unfold Binary64.searchsorted_right. rewrite Hcl.
      pose proof (right_point64_le ar (PrimFloat.add v (Binary64.eps self))).
      unfold right_point64 in *. lia. }
  cbn [bind].
  rewrite (@take_in_range _ (PrimFloat.zero :: Binary64.cumsum sw) _ PrimFloat.zero).
  2:{ apply Forall_forall. intros i Hi. apply in_map_iff in Hi.
      destruct Hi as [v [<- _]]. unfold Binary64.searchsorted_left. rewrite Hcl.
      pose proof (left_point64_le ar (PrimFloat.sub v (Binary64.eps self))).
      unfold left_point64 in *. lia. }
  cbn [bind]. f_equal.
  rewrite !map_map, combine_map_same, map_map.
  apply map_ext. intro v. cbn [fst snd].
  unfold window_weight64, Binary64.searchsorted_right,
    Binary64.searchsorted_left, right_point64, left_point64.
  now rewrite !Nat2Z.id.
Qed.

Lemma b64_get_is_core_eq (self : Binary64.t) (ar sw : list float) :
  List.length sw = List.length ar ->
  Binary64._get_is_core self ar sw = Ok (map (core_value64 self ar sw) ar).
Proof.
  intro Hlen. unfold Binary64._get_is_core.
  rewrite (b64_neighbor_weight_eq self ar sw Hlen).
  cbn [bind]. now rewrite map_map.
Qed.






(** ** Comparisons of floats, by rank *)








(** ** [_get_non_core_labels] in binary64 (C3) *)

Lemma b64_get_non_core_labels_eq (self : Binary64.t)
  (non_cores cores : list float) (core_nums : list Z) :
  List.length core_nums = List.length cores ->
  Binary64._get_non_core_labels self non_cores cores core_nums =
  Ok (map (non_core_label64 self cores core_nums) non_cores).
Proof.
  intro Hlen. unfold Binary64._get_non_core_labels.
  destruct cores as [|c0 rest] eqn:Hc.
  - reflexivity.
  - rewrite <- Hc in *.
    assert (Hne : cores <> []) by (rewrite Hc; discriminate).
    assert (Hn : (0 < Z.of_nat (List.length cores))%Z).
    { rewrite Hc. simpl. lia. }
    replace (List.length cores =? 0)%nat with false
      by (symmetry; apply Nat.eqb_neq; lia).
    rewrite !_bound_on_map, !map_map.
    rewrite (take_in_range cores _ PrimFloat.zero).
    2:{ apply Forall_forall. intros i Hi. apply in_map_iff in Hi.
        destruct Hi as [x [<- _]]. now apply clamp_range. }
    cbn [bind].
    rewrite (take_in_range cores _ PrimFloat.zero).
    2:{ apply Forall_forall. intros i Hi. apply in_map_iff in Hi.
        destruct Hi as [x [<- _]]. now apply clamp_range. }
    cbn [bind].
    repeat first [rewrite map_map | rewrite combine_map_same
                 | rewrite combine_map_l].
    cbn [fst snd].
    rewrite compress_map. cbn [bind].
    rewrite (take_in_range core_nums _ (-1)%Z).
    2:{ apply Forall_forall. intros i Hi. apply in_map_iff in Hi.
        destruct Hi as [x [<- _]]. rewrite Hlen. unfold col.
        destruct (_ =? 0)%Z; now apply clamp_range. }
    cbn [bind]. rewrite map_map.
    rewrite putmask_map. f_equal. apply map_ext. intro x.
    unfold non_core_label64. rewrite Hc. rewrite <- Hc.
    reflexivity.
Qed.





(** ** [fit] in binary64 *)

Lemma b64_assign_length (self : Binary64.t) (cores : list float) :
  List.length (Binary64._assign_core_group_numbers self cores) =
  List.length cores.
Proof.
  destruct cores as [|c0 rest]; [reflexivity|].
  rewrite b64_assign_cons. simpl. now rewrite walk64_length.
Qed.

(** With as many weights as values, lines 108 to 116 raise nothing. *)
Lemma b64_group_numbers_ok (self : Binary64.t) (ar sw : list float) :
  List.length sw = List.length ar ->
  Binary64.group_numbers self ar sw =
  Ok (sorted_flags64 self ar sw, sorted_labels64 self ar sw).
Proof.
  intro Hlen.
  unfold Binary64.group_numbers, sorted_labels64, sorted_flags64,
    sorted_cores64.
  rewrite (b64_get_is_core_eq self ar sw Hlen). cbn [bind].
  rewrite compress_map_self. cbn [bind].
  rewrite map_map, compress_map_self. cbn [bind].
  rewrite b64_get_non_core_labels_eq by apply b64_assign_length.
  cbn [bind].
  rewrite putmask_ok.
  2:{ now rewrite !length_map. }
  2:{ rewrite b64_assign_length. now rewrite count_true_map. }
  cbn [bind].
  rewrite putmask_ok.
  2:{ now rewrite scatter_length, !length_map. }
  2:{ rewrite count_true_map. apply length_map. }
  cbn [bind]. now rewrite !map_map.
Qed.

Lemma sorted_labels64_length (self : Binary64.t) (ar sw : list float) :
  List.length (sorted_labels64 self ar sw) = List.length ar.
Proof.
  unfold sorted_labels64. rewrite !scatter_length. unfold sorted_flags64.
  now rewrite !length_map.
Qed.

Lemma sorted_values64_length (ar : list float) :
  List.length (sorted_values64 ar) = List.length ar.
Proof. unfold sorted_values64. now rewrite length_map, argsort_length. Qed.

Lemma sorted_weights64_length (ar w : list float) :
  List.length (sorted_weights64 ar w) = List.length ar.
Proof. unfold sorted_weights64. now rewrite length_map, argsort_length. Qed.

Lemma undo_sorted64_range (ar : list float) :
  Forall (fun i => (0 <= i < Z.of_nat (List.length ar))%Z) (undo_sorted64 ar).
Proof.
  unfold undo_sorted64.
  pose proof (argsort_range Z.leb (argsort Binary64.np_le ar)) as H.
  now rewrite argsort_length in H.
Qed.

Lemma sorted_values64_sorted (ar : list float) : sorted64 (sorted_values64 ar).
Proof.
  unfold sorted_values64, sorted64. rewrite take_argsort_keys.
  apply (Sorted_map_fst Binary64.np_le).
  - intros x y H. exact H.
  - apply sort_keys_sorted. exact np_le_total.
Qed.

Lemma sorted_values64_perm (ar : list float) :
  Permutation (sorted_values64 ar) ar.
Proof. apply take_argsort_perm. Qed.

(** With as many weights as values, lines 97 to 121 raise nothing. *)
Lemma b64_fit_arrays_ok (self : Binary64.t) (ar w : list float) :
  List.length w = List.length ar ->
  Binary64.fit_arrays self ar (Some w) =
  Ok (where_ (fit_flags64 self ar w), fit_labels64 self ar w).
Proof.
  intro Hlen. unfold Binary64.fit_arrays.
  rewrite (take_in_range ar _ PrimFloat.zero) by apply argsort_range.
  cbn [bind].
  rewrite (take_in_range w _ PrimFloat.zero).
  2:{ rewrite Hlen. apply argsort_range. }
  cbn [bind].
  fold (sorted_values64 ar). fold (sorted_weights64 ar w).
  rewrite b64_group_numbers_ok
    by now rewrite sorted_values64_length, sorted_weights64_length.
  cbn [bind fst snd].
  rewrite (take_in_range (sorted_labels64 _ _ _) _ (-1)%Z).
  2:{ rewrite sorted_labels64_length, sorted_values64_length.
      apply undo_sorted64_range. }
  cbn [bind].
  rewrite (take_in_range (sorted_flags64 _ _ _) _ false).
  2:{ unfold sorted_flags64. rewrite length_map, sorted_values64_length.
      apply undo_sorted64_range. }
  reflexivity.
Qed.

(** ** The label of a value, in binary64 *)

(** The rounded difference of a float and itself is zero or NaN. *)
Lemma abs_sub_self (c : float) :
  Prim2SF (PrimFloat.abs (PrimFloat.sub c c)) = S754_zero false \/
  Prim2SF (PrimFloat.abs (PrimFloat.sub c c)) = S754_nan.
Proof.
  rewrite abs_spec, sub_spec. unfold SF64sub, SFsub.
  destruct (Prim2SF c) as [s|s| |s m e].
  - left. destruct s; reflexivity.
  - right. destruct s; reflexivity.
  - right. reflexivity.
  - left. rewrite Z.sub_diag. reflexivity.
Qed.

Lemma gap_of_equal_values (e c : float) :
  PrimFloat.ltb e PrimFloat.zero = false -> gap_exceeds64 e c c = false.
Proof.
  intro He. unfold gap_exceeds64.
  rewrite ltb_spec in *.
  change (Prim2SF PrimFloat.zero) with (S754_zero false) in He.
  destruct (abs_sub_self c) as [H|H]; rewrite H; [exact He|].
  unfold SFltb, SFcompare. now destruct (Prim2SF e).
Qed.

Lemma sorted64_filter (p : float -> bool) (l : list float) :
  sorted64 l -> sorted64 (filter p l).
Proof.
  unfold sorted64. intro Hs. apply StronglySorted_Sorted.
  assert (Hss : StronglySorted (fun x y => Binary64.np_le x y = true) l).
  { apply Sorted_StronglySorted; [|exact Hs]. intros x y z. apply np_le_trans. }
  clear Hs. induction Hss as [|x t Hss IH Hall]; simpl; [constructor|].
  destruct (p x); [|exact IH].
  constructor; [exact IH|].
  rewrite Forall_forall in *. intros y Hy. apply Hall.
  apply filter_In in Hy. tauto.
Qed.

Lemma separated_incl (l l' : list float) :
  (forall x, In x l -> In x l') -> separated l' -> separated l.
Proof. intros Hin Hs x y Hx Hy. apply Hs; now apply Hin. Qed.

Lemma b64_group_numbers_step (self : Binary64.t) (cores : list float) (i : nat) :
  (S i < List.length cores)%nat ->
  nth (S i) (Binary64._assign_core_group_numbers self cores) (-1)%Z =
  (nth i (Binary64._assign_core_group_numbers self cores) (-1) +
   (if gap_exceeds64 (Binary64.eps self) (nth i cores PrimFloat.zero)
         (nth (S i) cores PrimFloat.zero)
    then 1 else 0))%Z.
Proof.
  intro Hi. destruct cores as [|c0 rest]; [simpl in Hi; lia|].
  rewrite b64_assign_cons.
  destruct (walk64_step (Binary64.eps self) rest 0%Z c0 i
              (nth i (c0 :: rest) PrimFloat.zero)
              (nth (S i) (c0 :: rest) PrimFloat.zero))
    as [k [H1 H2]].
  - apply nth_error_nth'. lia.
  - apply nth_error_nth'. exact Hi.
  - rewrite (nth_error_nth _ _ _ H1), (nth_error_nth _ _ _ H2). reflexivity.
Qed.

(** Along sorted core values that the order separates, and for an [eps]
    that is not negative, the id does not change between two equal
    values. *)
Lemma b64_group_numbers_constant_on_equal (self : Binary64.t)
  (cores : list float) :
  sorted64 cores -> separated cores ->
  PrimFloat.ltb (Binary64.eps self) PrimFloat.zero = false ->
  forall d i, (i + d < List.length cores)%nat ->
    nth i cores PrimFloat.zero = nth (i + d) cores PrimFloat.zero ->
    nth i (Binary64._assign_core_group_numbers self cores) (-1)%Z =
    nth (i + d) (Binary64._assign_core_group_numbers self cores) (-1)%Z.
Proof.
  intros Hs Hsep He. pose proof (sorted64_nth cores Hs) as Hord.
  induction d as [|d IH]; intros i Hi Heq.
  - now rewrite Nat.add_0_r.
  - replace (i + S d)%nat with (S (i + d)) in * by lia.
    assert (H1 : Binary64.np_le (nth i cores PrimFloat.zero)
                   (nth (i + d) cores PrimFloat.zero) = true)
      by (apply Hord; lia).
    assert (H2 : Binary64.np_le (nth (i + d) cores PrimFloat.zero)
                   (nth (S (i + d)) cores PrimFloat.zero) = true)
      by (apply Hord; lia).
    rewrite <- Heq in H2.
    assert (Hmid : nth i cores PrimFloat.zero =
                   nth (i + d) cores PrimFloat.zero).
    { apply Hsep; try assumption; apply nth_In; lia. }
    rewrite b64_group_numbers_step by exact Hi.
    rewrite <- IH by (try lia; exact Hmid).
    rewrite <- Heq, <- Hmid.
    rewrite gap_of_equal_values by exact He. lia.
Qed.

Lemma b64_group_numbers_by_value (self : Binary64.t) (cores : list float) :
  sorted64 cores -> separated cores ->
  PrimFloat.ltb (Binary64.eps self) PrimFloat.zero = false ->
  Binary64._assign_core_group_numbers self cores =
  map (core_id64 self cores) cores.
Proof.
  intros Hs Hsep He.
  apply nth_ext with (d := (-1)%Z) (d' := core_id64 self cores PrimFloat.zero).
  - now rewrite length_map, b64_assign_length.
  - intros k Hk. rewrite b64_assign_length in Hk.
    rewrite map_nth. unfold core_id64.
    set (v := nth k cores PrimFloat.zero). set (k0 := left_point64 cores v).
    destruct (left_point64_spec cores v Hs) as [Hlt Hge]. fold k0 in Hlt, Hge.
    assert (Hk0 : (k0 <= k)%nat).
    { destruct (Nat.le_gt_cases k0 k) as [H|H]; [exact H|].
      specialize (Hlt k H). fold v in Hlt.
      apply np_lt_rank in Hlt. now apply lex_lt_irrefl in Hlt. }
    assert (H1 : Binary64.np_le v (nth k0 cores PrimFloat.zero) = true).
    { apply np_lt_false_le. apply Hge. lia. }
    assert (H2 : Binary64.np_le (nth k0 cores PrimFloat.zero) v = true)
      by (apply (sorted64_nth cores Hs); lia).
    replace k with (k0 + (k - k0))%nat at 1 by lia.
    symmetry. apply b64_group_numbers_constant_on_equal; try assumption; try lia.
    replace (k0 + (k - k0))%nat with k by lia. fold v.
    apply Hsep; try assumption; apply nth_In; lia.
Qed.

(** In a sorted array whose values the order separates, and for an [eps]
    that is not negative, the group numbers are the labels of the values. *)
Lemma sorted_labels64_by_value (self : Binary64.t) (ar sw : list float) :
  sorted64 ar -> separated ar ->
  PrimFloat.ltb (Binary64.eps self) PrimFloat.zero = false ->
  sorted_labels64 self ar sw = map (value_label64 self ar sw) ar.
Proof.
  intros Hs Hsep He.
  assert (Hc : Binary64._assign_core_group_numbers self
                 (sorted_cores64 self ar sw) =
               map (core_id64 self (sorted_cores64 self ar sw))
                   (sorted_cores64 self ar sw)).
  { apply b64_group_numbers_by_value; try assumption.
    - now apply sorted64_filter.
    - apply (separated_incl _ ar); [|exact Hsep].
      intros x Hx. apply filter_In in Hx. tauto. }
  unfold sorted_labels64, sorted_flags64.
  rewrite Hc.
  rewrite !map_map. unfold sorted_cores64 at 2.
  rewrite (scatter_map (core_value64 self ar sw) (fun _ => (-1)%Z)).
  rewrite (scatter_map (fun x => negb (core_value64 self ar sw x))).
  apply map_ext. intro x. unfold value_label64.
  rewrite <- Hc.
  destruct (core_value64 self ar sw x); reflexivity.
Qed.

(** Undoing the sort on an array computed value by value from the sorted
    values gives the array computed from the input values. *)
Lemma unsort_map64 {B : Type} (h : float -> B) (d : B) (ar : list float) :
  map (fun u => nth (Z.to_nat u) (map h (sorted_values64 ar)) d)
      (undo_sorted64 ar)
  = map h ar.
Proof.
  unfold sorted_values64, undo_sorted64.
  set (s := argsort Binary64.np_le ar).
  rewrite map_map.
  set (g := fun i : Z => h (nth (Z.to_nat i) ar PrimFloat.zero)).
  transitivity (map g (map (fun u => nth (Z.to_nat u) s 0%Z) (argsort Z.leb s))).
  - rewrite map_map. apply map_ext_in. intros u Hu.
    pose proof (argsort_range Z.leb s) as Hr.
    rewrite Forall_forall in Hr. specialize (Hr u Hu).
    rewrite (nth_indep (map g s) d (g 0%Z)) by (rewrite length_map; lia).
    apply map_nth.
  - rewrite argsort_inverse.
    + unfold s. rewrite argsort_length. unfold g. apply map_nth_arange0.
    + unfold s at 2. rewrite argsort_length. apply argsort_perm.
Qed.

Lemma fit_flags64_by_value (self : Binary64.t) (ar w : list float) :
  fit_flags64 self ar w =
  map (core_value64 self (sorted_values64 ar) (sorted_weights64 ar w)) ar.
Proof. unfold fit_flags64, sorted_flags64. apply unsort_map64. Qed.

Lemma fit_labels64_by_value (self : Binary64.t) (ar w : list float) :
  separated ar ->
  PrimFloat.ltb (Binary64.eps self) PrimFloat.zero = false ->
  fit_labels64 self ar w =
  map (value_label64 self (sorted_values64 ar) (sorted_weights64 ar w)) ar.
Proof.
  intros Hsep He. unfold fit_labels64.
  rewrite sorted_labels64_by_value; try assumption.
  - apply unsort_map64.
  - apply sorted_values64_sorted.
  - apply (separated_incl _ ar); [|exact Hsep].
    intros x Hx. now apply (Permutation_in _ (sorted_values64_perm ar)).
Qed.

(** ** The points of the input and their order *)

Lemma points_by_index64 (ar w : list float) :
  List.length w = List.length ar ->
  map (fun i => (nth (Z.to_nat i) ar PrimFloat.zero,
                 nth (Z.to_nat i) w PrimFloat.zero))
      (arange_from 0 (List.length ar)) = combine ar w.
Proof.
  intro Hlen.
  rewrite <- (map_id (combine ar w)) at 1.
  rewrite <- (map_nth_arange0 (fun x => x) (PrimFloat.zero, PrimFloat.zero)
                (combine ar w)).
  rewrite length_combine, Hlen, Nat.min_id.
  apply map_ext. intro i. symmetry. apply combine_nth. now symmetry.
Qed.

Lemma permuted_points64 (ar w : list float) (p : list Z) :
  List.length w = List.length ar ->
  Permutation p (arange_from 0 (List.length ar)) ->
  Permutation (combine (permute64 p ar) (permute64 p w)) (combine ar w).
Proof.
  intros Hlen Hp. unfold permute64. rewrite combine_map_same.
  rewrite <- (points_by_index64 ar w Hlen). now apply Permutation_map.
Qed.

Lemma sorted_points64_perm (ar w : list float) :
  List.length w = List.length ar ->
  Permutation (combine (sorted_values64 ar) (sorted_weights64 ar w))
              (combine ar w).
Proof.
  intro Hlen. apply (permuted_points64 ar w _ Hlen). apply argsort_perm.
Qed.

Lemma sorted_points64_sorted (l : list float) :
  sorted64 l ->
  forall l' : list float, Sorted point_le (combine l l').
Proof.
  unfold sorted64. intro Hs.
  induction Hs as [|x t Hs IH Hhd]; intros l'; [constructor|].
  destruct l' as [|y t']; [constructor|].
  cbn [combine]. constructor; [apply IH|].
  destruct Hhd as [|z t Hxz]; [constructor|].
  destruct t' as [|y' t'']; constructor. exact Hxz.
Qed.

(** Two sorted arrangements of the same points are the same list when ties
    are copies. *)
Lemma sorted_points_unique (l : list (float * float)) :
  forall l', StronglySorted point_le l -> StronglySorted point_le l' ->
             Permutation l l' -> ties_are_copies l -> l = l'.
Proof.
  induction l as [|x t IH]; intros l' Hs Hs' Hp Ht.
  - apply Permutation_nil in Hp. now subst.
  - destruct l' as [|y t'].
    + apply Permutation_sym, Permutation_nil in Hp. discriminate.
    + inversion Hs as [|? ? Hst Hall]; subst.
      inversion Hs' as [|? ? Hst' Hall']; subst.
      assert (Hx : In x (y :: t')) by (apply (Permutation_in _ Hp); now left).
      assert (Hy : In y (x :: t))
        by (apply (Permutation_in _ (Permutation_sym Hp)); now left).
      assert (x = y).
      { rewrite Forall_forall in Hall, Hall'.
        destruct Hx as [->|Hx]; [reflexivity|].
        destruct Hy as [->|Hy']; [reflexivity|].
        apply Ht; [now left|now right| |].
        - now apply Hall.
        - now apply Hall'. }
      subst y. f_equal. apply IH; try assumption.
      * now apply Permutation_cons_inv with x.
      * intros a b Ha Hb. apply Ht; now right.
Qed.

Lemma point_le_trans (a b c : float * float) :
  point_le a b -> point_le b c -> point_le a c.
Proof. unfold point_le. apply np_le_trans. Qed.

Lemma In_combine_weight (ar w : list float) (x : float) :
  List.length w = List.length ar -> In x ar ->
  exists wx, In (x, wx) (combine ar w).
Proof.
  revert w. induction ar as [|a t IH]; intros w Hlen Hin; [destruct Hin|].
  destruct w as [|b w']; [discriminate|].
  destruct Hin as [->|Hin].
  - exists b. now left.
  - destruct (IH w') as [wx Hwx]; [simpl in Hlen; lia|exact Hin|].
    exists wx. now right.
Qed.

Lemma ties_are_copies_separated (ar w : list float) :
  List.length w = List.length ar ->
  ties_are_copies (combine ar w) -> separated ar.
Proof.
  intros Hlen Ht x y Hx Hy H1 H2.
  destruct (In_combine_weight ar w x Hlen Hx) as [wx Hwx].
  destruct (In_combine_weight ar w y Hlen Hy) as [wy Hwy].
  specialize (Ht (x, wx) (y, wy) Hwx Hwy H1 H2). congruence.
Qed.

Lemma ties_are_copies_perm (l l' : list (float * float)) :
  Permutation l l' -> ties_are_copies l -> ties_are_copies l'.
Proof.
  intros Hp Ht a b Ha Hb. apply Ht.
  - now apply (Permutation_in _ (Permutation_sym Hp)).
  - now apply (Permutation_in _ (Permutation_sym Hp)).
Qed.

(** When ties are copies, the sorted values and the sorted weights do not
    depend on the order of the input. *)
Lemma sorted_arrays_permuted (ar w : list float) (p : list Z) :
  List.length w = List.length ar ->
  Permutation p (arange_from 0 (List.length ar)) ->
  ties_are_copies (combine ar w) ->
  sorted_values64 (permute64 p ar) = sorted_values64 ar /\
  sorted_weights64 (permute64 p ar) (permute64 p w) = sorted_weights64 ar w.
Proof.
  intros Hlen Hp Ht.
  assert (Hlp : List.length (permute64 p w) = List.length (permute64 p ar))
    by (unfold permute64; now rewrite !length_map).
  assert (Heq : combine (sorted_values64 (permute64 p ar))
                        (sorted_weights64 (permute64 p ar) (permute64 p w)) =
                combine (sorted_values64 ar) (sorted_weights64 ar w)).
  { apply sorted_points_unique.
    - apply Sorted_StronglySorted; [exact point_le_trans|].
      apply sorted_points64_sorted, sorted_values64_sorted.
    - apply Sorted_StronglySorted; [exact point_le_trans|].
      apply sorted_points64_sorted, sorted_values64_sorted.
    - apply perm_trans with (combine (permute64 p ar) (permute64 p w)).
      + now apply sorted_points64_perm.
      + apply perm_trans with (combine ar w).
        * now apply permuted_points64.
        * apply Permutation_sym. now apply sorted_points64_perm.
    - apply (ties_are_copies_perm (combine ar w)); [|exact Ht].
      apply perm_trans with (combine (permute64 p ar) (permute64 p w)).
      + apply Permutation_sym. now apply permuted_points64.
      + apply Permutation_sym. now apply sorted_points64_perm. }
  split.
  - rewrite <- (map_fst_combine (sorted_values64 (permute64 p ar))
                  (sorted_weights64 (permute64 p ar) (permute64 p w)))
      by now rewrite sorted_values64_length, sorted_weights64_length.
    rewrite Heq. apply map_fst_combine.
    now rewrite sorted_values64_length, sorted_weights64_length.
  - rewrite <- (map_snd_combine (sorted_values64 (permute64 p ar))
                  (sorted_weights64 (permute64 p ar) (permute64 p w)))
      by now rewrite sorted_values64_length, sorted_weights64_length.
    rewrite Heq. apply map_snd_combine.
    now rewrite sorted_values64_length, sorted_weights64_length.
Qed.

Lemma fit_labels64_permuted (self : Binary64.t) (ar w : list float)
  (p : list Z) :
  List.length w = List.length ar ->
  Permutation p (arange_from 0 (List.length ar)) ->
  PrimFloat.ltb (Binary64.eps self) PrimFloat.zero = false ->
  ties_are_copies (combine ar w) ->
  fit_labels64 self (permute64 p ar) (permute64 p w) =
  map (fun i => nth (Z.to_nat i) (fit_labels64 self ar w) (-1)%Z) p /\
  fit_flags64 self (permute64 p ar) (permute64 p w) =
  map (fun i => nth (Z.to_nat i) (fit_flags64 self ar w) false) p.
Proof.
  intros Hlen Hp He Ht.
  pose proof (ties_are_copies_separated ar w Hlen Ht) as Hsep.
  assert (Hrange : forall i, In i p -> (Z.to_nat i < List.length ar)%nat).
  { intros i Hi. apply (Permutation_in _ Hp) in Hi.
    apply arange_from_In in Hi. lia. }
  assert (Hsep' : separated (permute64 p ar)).
  { apply (separated_incl _ ar); [|exact Hsep].
    intros x Hx. unfold permute64 in Hx. apply in_map_iff in Hx.
    destruct Hx as [i [<- Hi]]. apply nth_In. now apply Hrange. }
  destruct (sorted_arrays_permuted ar w p Hlen Hp Ht) as [Hv Hw].
  rewrite !fit_labels64_by_value by assumption.
  rewrite !fit_flags64_by_value.
  rewrite Hv, Hw.
  unfold permute64. rewrite !map_map. split.
  - apply map_ext_in. intros i Hi.
    now rewrite (nth_map_in_range _ ar (-1)%Z PrimFloat.zero)
      by now apply Hrange.
  - apply map_ext_in. intros i Hi.
    now rewrite (nth_map_in_range _ ar false PrimFloat.zero)
      by now apply Hrange.
Qed.

(** ** The order of the input (C7) *)

Lemma permuted_ones64 (ar : list float) (p : list Z) :
  Permutation p (arange_from 0 (List.length ar)) ->
  permute64 p (Binary64.ones_like ar) = Binary64.ones_like (permute64 p ar).
Proof.
  intro Hp. unfold Binary64.ones_like, permute64. rewrite length_map.
  assert (Hin : forall i, In i p ->
            nth (Z.to_nat i) (repeat PrimFloat.one (List.length ar))
                PrimFloat.zero = PrimFloat.one).
  { intros i Hi. apply (Permutation_in _ Hp) in Hi. apply arange_from_In in Hi.
    apply (repeat_spec (List.length ar)). apply nth_In.
    rewrite repeat_length. lia. }
  clear Hp. induction p as [|i p IH]; [reflexivity|].
  cbn [map List.length repeat]. rewrite Hin by now left.
  f_equal. apply IH. intros j Hj. apply Hin. now right.
Qed.

(** The order of the input matters on three points of value 5 with the
    weights 0.7, 0.2 and 0.1, [eps = 0.5] and [min_samples = 1]: summed in
    this order the weights round to less than 1 and no point is core;
    rearranged by the indices 2, 0, 1 they sum to 1 and every point is
    core. *)
Lemma weights_summed_in_input_order :
  Permutation [2; 0; 1]%Z (arange_from 0 3) /\
  Binary64.fit_arrays (Binary64.mk 0.5 1) [5; 5; 5]%float
    (Some [0.7; 0.2; 0.1]%float) = Ok ([], [-1; -1; -1]%Z) /\
  Binary64.fit_arrays (Binary64.mk 0.5 1)
    (permute64 [2; 0; 1]%Z [5; 5; 5]%float)
    (Some (permute64 [2; 0; 1]%Z [0.7; 0.2; 0.1]%float))
  = Ok ([0; 1; 2]%Z, [0; 0; 0]%Z).
Proof.
  split; [|split; vm_compute; reflexivity].
  cbn. apply (Permutation_cons_app [0; 1]%Z [] 2%Z). apply Permutation_refl.
Qed.

(** C7, amended. Let [eps] not be negative, and let the points of the input
    that numpy's order does not separate be copies of one another: the same
    float with the same weight, so that the sum of the weights of a
    neighbourhood does not depend on the order in which they are added.
    Then for every permutation [p] of the indices, the lines of [fit] on the
    input and its weights rearranged by [p] return, and so do they on the
    input as it is; the labels of the rearranged input, put back by the
    inverse of [p], are the labels of the input; a position [k] of the
    rearranged input is among the core indices exactly when the position
    [p[k]] of the input is; and without weights the rearranged input is
    treated as with the rearranged default weights.  Duplicate values of
    equal weight are covered, and so are duplicates under the default
    weights; the two zeros, 0.0 and -0.0, which the order does not separate,
    are not copies of one another. *)
Theorem b64_fit_order_invariant (self : Binary64.t) (ar w : list float)
  (p : list Z) :
  List.length w = List.length ar ->
  Permutation p (arange_from 0 (List.length ar)) ->
  PrimFloat.ltb (Binary64.eps self) PrimFloat.zero = false ->
  ties_are_copies (combine ar w) ->
  exists labels core_indices labels' core_indices',
    Binary64.fit_arrays self ar (Some w) = Ok (core_indices, labels) /\
    Binary64.fit_arrays self (permute64 p ar) (Some (permute64 p w)) =
    Ok (core_indices', labels') /\
    take labels' (argsort Z.leb p) = Ok labels /\
    take labels p = Ok labels' /\
    (forall k i, nth_error p k = Some i ->
       (In (Z.of_nat k) core_indices' <-> In i core_indices)) /\
    Binary64.fit_arrays self (permute64 p ar) None =
    Binary64.fit_arrays self (permute64 p ar)
      (Some (permute64 p (Binary64.ones_like ar))).
Proof.
  intros Hlen Hp He Ht.
  assert (Hlenp : List.length p = List.length ar).
  { rewrite (Permutation_length Hp). apply arange_from_length. }
  assert (Hrange : Forall (fun i => (0 <= i < Z.of_nat (List.length ar))%Z) p).
  { apply Forall_forall. intros i Hi. apply (Permutation_in _ Hp) in Hi.
    apply arange_from_In in Hi. lia. }
  destruct (fit_labels64_permuted self ar w p Hlen Hp He Ht) as [HL HF].
  exists (fit_labels64 self ar w), (where_ (fit_flags64 self ar w)),
         (fit_labels64 self (permute64 p ar) (permute64 p w)),
         (where_ (fit_flags64 self (permute64 p ar) (permute64 p w))).
  assert (Hll : List.length (fit_labels64 self ar w) = List.length ar).
  { unfold fit_labels64. rewrite length_map. unfold undo_sorted64.
    now rewrite !argsort_length. }
  split; [|split; [|split; [|split; [|split]]]].
  - now apply b64_fit_arrays_ok.
  - apply b64_fit_arrays_ok. unfold permute64. now rewrite !length_map.
  - rewrite HL.
    rewrite (take_in_range _ _ (-1)%Z).
    2:{ rewrite length_map. apply argsort_range. }
    f_equal.
    transitivity (map (fun i => nth (Z.to_nat i) (fit_labels64 self ar w) (-1)%Z)
                      (map (fun u => nth (Z.to_nat u) p 0%Z) (argsort Z.leb p))).
    + rewrite map_map. apply map_ext_in. intros u Hu.
      pose proof (argsort_range Z.leb p) as Hr.
      rewrite Forall_forall in Hr. specialize (Hr u Hu).
      apply (nth_map_in_range
               (fun i => nth (Z.to_nat i) (fit_labels64 self ar w) (-1)%Z)
               p (-1)%Z 0%Z).
      lia.
    + rewrite argsort_inverse by now rewrite Hlenp.
      rewrite Hlenp, <- Hll.
      rewrite (map_nth_arange0 (fun x => x) (-1)%Z (fit_labels64 self ar w)).
      apply map_id.
  - rewrite HL. apply take_in_range. now rewrite Hll.
  - intros k i Hk. rewrite HF.
    rewrite where_In, nth_error_map, Hk. cbn [option_map].
    rewrite Forall_forall in Hrange.
    specialize (Hrange i (nth_error_In _ _ Hk)).
    replace i with (Z.of_nat (Z.to_nat i)) at 2 by lia.
    rewrite where_In.
    rewrite (nth_error_nth' (fit_flags64 self ar w) false).
    2:{ rewrite fit_flags64_by_value, length_map. lia. }
    reflexivity.
  - unfold Binary64.fit_arrays.
    now rewrite permuted_ones64.
Qed.

Lemma b64_fit_order_invariant_witness :
  exists labels core_indices labels' core_indices',
    Binary64.fit_arrays (Binary64.mk 1 3) [3; 0; 3; 0; 1]%float
      (Some [1; 2; 1; 2; 1]%float) = Ok (core_indices, labels) /\
    Binary64.fit_arrays (Binary64.mk 1 3) [0; 3; 1; 0; 3]%float
      (Some [2; 1; 1; 2; 1]%float) = Ok (core_indices', labels') /\
    take labels' (argsort Z.leb [3; 2; 4; 1; 0]%Z) = Ok labels.
Proof.
  destruct (b64_fit_order_invariant (Binary64.mk 1 3) [3; 0; 3; 0; 1]%float
              [1; 2; 1; 2; 1]%float [3; 2; 4; 1; 0]%Z)
    as [l [c [l' [c' [H1 [H2 [H3 _]]]]]]].
  - reflexivity.
  - cbn.
    apply (Permutation_cons_app [0; 1; 2]%Z [4%Z] 3%Z). cbn.
    apply (Permutation_cons_app [0; 1]%Z [4%Z] 2%Z). cbn.
    apply (Permutation_cons_app [0; 1]%Z [] 4%Z). cbn.
    apply perm_swap.
  - reflexivity.
  - intros a b Ha Hb. cbn in Ha, Hb.
    destruct Ha as [<-|[<-|[<-|[<-|[<-|[]]]]]];
      destruct Hb as [<-|[<-|[<-|[<-|[<-|[]]]]]];
      cbn [fst]; intros G1 G2; try reflexivity;
      vm_compute in G1; vm_compute in G2;
      first [discriminate G1|discriminate G2].
  - exists l, c, l', c'. split; [exact H1|]. split; [exact H2|exact H3].
Defined.

(** ** No gap inside a cluster *)

Lemma b64_group_numbers_between (self : Binary64.t) (cores : list float) :
  forall d i, (i + d < List.length cores)%nat ->
    (nth i (Binary64._assign_core_group_numbers self cores) (-1) <=
     nth (i + d) (Binary64._assign_core_group_numbers self cores) (-1))%Z /\
    (nth i (Binary64._assign_core_group_numbers self cores) (-1)%Z =
     nth (i + d) (Binary64._assign_core_group_numbers self cores) (-1)%Z <->
     forall k, (i <= k < i + d)%nat ->
       gap_exceeds64 (Binary64.eps self) (nth k cores PrimFloat.zero)
         (nth (S k) cores PrimFloat.zero) = false).
Proof.
  induction d as [|d IH]; intros i Hi.
  - rewrite Nat.add_0_r. split; [lia|]. split; [intros _ k Hk; lia|reflexivity].
  - replace (i + S d)%nat with (S (i + d)) in * by lia.
    destruct (IH i) as [Hle Heq]; [lia|].
    rewrite b64_group_numbers_step by exact Hi.
    destruct (gap_exceeds64 (Binary64.eps self)
                (nth (i + d) cores PrimFloat.zero)
                (nth (S (i + d)) cores PrimFloat.zero)) eqn:G.
    + split; [lia|]. split; [lia|].
      intro H. specialize (H (i + d)%nat). rewrite G in H.
      assert (true = false) by (apply H; lia). discriminate.
    + split; [lia|]. rewrite Z.add_0_r. rewrite Heq. split.
      * intros H k Hk. destruct (Nat.eq_dec k (i + d)) as [->|Hne];
          [exact G|apply H; lia].
      * intros H k Hk. apply H. lia.
Qed.

(** X13. Along the core values the ids do not go down, and two core points
    have the same id exactly when between them no rounded difference of two
    neighbours exceeds [eps]: a cluster has no gap that the method sees, and
    ends where it sees one. *)
Theorem b64_cluster_without_gap (self : Binary64.t) (cores : list float)
  (i j : nat) :
  (i <= j < List.length cores)%nat ->
  (nth i (Binary64._assign_core_group_numbers self cores) (-1) <=
   nth j (Binary64._assign_core_group_numbers self cores) (-1))%Z /\
  (nth i (Binary64._assign_core_group_numbers self cores) (-1)%Z =
   nth j (Binary64._assign_core_group_numbers self cores) (-1)%Z <->
   forall k, (i <= k < j)%nat ->
     PrimFloat.ltb (Binary64.eps self)
       (PrimFloat.abs (PrimFloat.sub (nth (S k) cores PrimFloat.zero)
                                     (nth k cores PrimFloat.zero))) = false).
Proof.
  intro Hij.
  replace j with (i + (j - i))%nat by lia.
  apply (b64_group_numbers_between self cores (j - i) i). lia.
Qed.

Lemma b64_cluster_without_gap_witness :
  (nth 0 (Binary64._assign_core_group_numbers (Binary64.mk 0.5 1)
            [-0.1; 0.4; 2]%float) (-1) <=
   nth 1 (Binary64._assign_core_group_numbers (Binary64.mk 0.5 1)
            [-0.1; 0.4; 2]%float) (-1))%Z.
Proof.
  apply (b64_cluster_without_gap (Binary64.mk 0.5 1) [-0.1; 0.4; 2]%float 0 1).
  simpl. lia.
Defined.
